(** * A shallow embedding of the spreadsheet model (model.c)

    The C file keeps a chained hash table of cells keyed by the string
    "row,col", evaluates '+'-separated formulas with a VISITING mark for
    cycle detection, and re-evaluates the direct dependents of a cell
    whose value changes.  This development embeds the functions of
    model.c as executable functions on an explicit program state and
    proves properties of them.

    ROW and COL come from interface.h and are printed with "%d"; they
    are taken as integers.  The table is first seen as a finite map
    from positions to cells, in which no node is removed.  The chains
    of nodes, with the hash function that selects the chain of a key
    and with free_cell and model_destroy that unlink nodes, are
    embedded in the module Chained. *)

From Stdlib Require Import ZArith String Ascii List Bool Lia.
From Stdlib Require Import Floats DecimalString.
From stdpp Require Import gmap strings.

Local Open Scope string_scope.
Local Open Scope Z_scope.

(** ** Outcomes

    A C call either returns, or hits undefined behaviour (a null or
    dangling pointer is dereferenced, an invalid pointer is freed, a
    union member that was not the one last written is used as a
    pointer, a pointer is handed to isdigit, an int subtraction
    overflows).  [OutOfFuel] is an artefact of the embedding: the recursive
    functions carry a counter, and it is proved below that the counter
    the entry points supply is never exhausted. *)

Inductive outcome (A : Type) : Type :=
  | Done (a : A)
  | Fault
  | OutOfFuel.
Arguments Done {A} a.
Arguments Fault {A}.
Arguments OutOfFuel {A}.

#[global] Instance outcome_ret : MRet outcome := fun A a => Done a.
#[global] Instance outcome_bind : MBind outcome := fun A B f m =>
  match m with
  | Done a => f a
  | Fault => Fault
  | OutOfFuel => OutOfFuel
  end.

(** A pointer that must be valid to be used: [None] is an invalid
    (uninitialised or freed) pointer. *)
Definition deref {A : Type} (p : option A) : outcome A :=
  match p with
  | Some a => Done a
  | None => Fault
  end.

(** ** The C library

    strtod, atof, atoi and the "%.1f" conversion of snprintf are not code
    of model.c; the development is parametric in them.  [strtod s] is
    the converted value together with the unparsed rest of [s] (what
    [*end] points to). *)

Class Libc := {
  strtod : string → float * string;
  atof : string → float;
  atoi : string → Z;
  snprintf_1f : float → string
}.

(** <ctype.h> in the "C" locale, on the int value of a character. *)
Definition isalpha (c : Z) : bool :=
  (65 <=? c) && (c <=? 90) || (97 <=? c) && (c <=? 122).
Definition isdigit (c : Z) : bool := (48 <=? c) && (c <=? 57).

(** isdigit(token) in evaluate_formula: the argument is the pointer
    [token], not the character [token[0]].  isdigit is defined on the
    values of unsigned char and on EOF, and the address of a token is
    none of them: the behaviour of the call is undefined. *)
Definition isdigit_of_pointer : outcome bool := Fault.

(** The type int, and a subtraction in it: an overflow is undefined
    behaviour. *)
Definition INT_MIN : Z := - 2 ^ 31.
Definition INT_MAX : Z := 2 ^ 31 - 1.

Definition int_sub (a b : Z) : outcome Z :=
  if (INT_MIN <=? a - b) && (a - b <=? INT_MAX) then Done (a - b) else Fault.

Definition isnan (x : float) : bool := PrimFloat.is_nan x.
Definition NAN : float := PrimFloat.nan.

Definition char_code (a : ascii) : Z := Z.of_N (N_of_ascii a).

(** ** strtok

    strtok keeps one static save pointer.  The state is the buffer it
    last received and the offset of the save pointer in it.  A call
    skips the delimiters, returns the token that follows (with its
    offset) or NULL at the end of the buffer, and leaves the save pointer
    behind the delimiter that ended the token. *)

Fixpoint string_drop (n : nat) (s : string) : string :=
  match n, s with
  | O, _ => s
  | S n', String _ s' => string_drop n' s'
  | S _, EmptyString => EmptyString
  end.

Fixpoint span_delim (delim : ascii) (s : string) : nat :=
  match s with
  | String a s' => if Ascii.eqb a delim then S (span_delim delim s') else O
  | EmptyString => O
  end.

Fixpoint span_token (delim : ascii) (s : string) : string * string :=
  match s with
  | String a s' =>
      if Ascii.eqb a delim then (EmptyString, s')
      else let '(t, r) := span_token delim s' in (String a t, r)
  | EmptyString => (EmptyString, EmptyString)
  end.

Record strtok_state := { tok_buf : string; tok_pos : nat }.

Definition strtok_from (delim : ascii) (buf : string) (pos : nat)
  : option (nat * string) * strtok_state :=
  let rest := string_drop pos buf in
  let d := span_delim delim rest in
  match string_drop d rest with
  | EmptyString =>
      (None, {| tok_buf := buf; tok_pos := String.length buf |})
  | String a r =>
      let '(t, after) := span_token delim (String a r) in
      (Some ((pos + d)%nat, t),
       {| tok_buf := buf; tok_pos := (String.length buf - String.length after)%nat |})
  end.

(** [strtok (Some s) delim] starts on a new buffer, [strtok None delim]
    continues from the save pointer. *)
Definition strtok (s : option string) (delim : ascii) (save : strtok_state)
  : option (nat * string) * strtok_state :=
  match s with
  | Some buf => strtok_from delim buf 0
  | None => strtok_from delim (tok_buf save) (tok_pos save)
  end.

(** ** Cells *)

Inductive cell_state := UNVISITED | VISITING.
Inductive cell_type := NUMBER | TEXT | FORMULA | ERROR.

#[global] Instance cell_state_eq_dec : EqDecision cell_state.
Proof. solve_decision. Defined.
#[global] Instance cell_type_eq_dec : EqDecision cell_type.
Proof. solve_decision. Defined.

(** A [cell *] points into the node that holds the cell.  Nodes are
    allocated one per key and never move, so a cell pointer is
    identified with the position (row, col) of the cell. *)
Abbreviation cellptr := (Z * Z)%type (only parsing).

(** The union [content]: the member last written, or [no_value] when the
    union is uninitialised or its text pointer has been freed.

    The pointers of a cell are [None] when they do not point to a live
    buffer.  [dependents] is the array together with dependents_count:
    [Some l] is an array that holds [l] (or the pointer NULL, with [l]
    empty and a capacity of 0), [None] an array that has been freed.
    [type] and [computed_value] are [None] until they are assigned;
    set_cell_value assigns the type of a cell before anything reads
    it. *)
Inductive content_union :=
  | number_value (v : float)
  | text_value (s : string)
  | no_value.

Record cell := mkcell {
  row : Z;
  col : Z;
  content : content_union;
  computed_value : option float;
  formula : option string;
  type : option cell_type;
  original_input : option string;
  dependents : option (list cellptr);
  dependents_capacity : nat;
  state : cell_state
}.

Definition get_number (c : content_union) : outcome float :=
  match c with number_value v => Done v | _ => Fault end.
Definition get_text (c : content_union) : outcome string :=
  match c with text_value s => Done s | _ => Fault end.

Definition set_content (c : cell) (v : content_union) : cell :=
  mkcell (row c) (col c) v (computed_value c) (formula c) (type c)
         (original_input c) (dependents c) (dependents_capacity c) (state c).
Definition set_computed_value (c : cell) (v : float) : cell :=
  mkcell (row c) (col c) (content c) (Some v) (formula c) (type c)
         (original_input c) (dependents c) (dependents_capacity c) (state c).
Definition set_formula (c : cell) (f : option string) : cell :=
  mkcell (row c) (col c) (content c) (computed_value c) f (type c)
         (original_input c) (dependents c) (dependents_capacity c) (state c).
Definition set_type (c : cell) (t : cell_type) : cell :=
  mkcell (row c) (col c) (content c) (computed_value c) (formula c) (Some t)
         (original_input c) (dependents c) (dependents_capacity c) (state c).
Definition set_original_input (c : cell) (s : option string) : cell :=
  mkcell (row c) (col c) (content c) (computed_value c) (formula c) (type c)
         s (dependents c) (dependents_capacity c) (state c).
Definition set_dependents (c : cell) (l : option (list cellptr)) (cap : nat) : cell :=
  mkcell (row c) (col c) (content c) (computed_value c) (formula c) (type c)
         (original_input c) l cap (state c).
Definition set_state (c : cell) (s : cell_state) : cell :=
  mkcell (row c) (col c) (content c) (computed_value c) (formula c) (type c)
         (original_input c) (dependents c) (dependents_capacity c) s.

Definition type_is (c : cell) (t : cell_type) : bool :=
  bool_decide (type c = Some t).

(** ** Program state

    [spreadsheet] is the hash table: the key "row,col" determines the
    pair (row, col), and a key has at most one node, so the table is a
    finite map from positions to cells.  [strtok_save] is strtok's static
    state.  [display] records the calls of update_cell_display, oldest
    first. *)

Record model := mkmodel {
  spreadsheet : gmap (Z * Z) cell;
  strtok_save : strtok_state;
  display : list (Z * Z * string)
}.

Definition model_init : model :=
  mkmodel ∅ {| tok_buf := ""; tok_pos := 0 |} [].

Definition load (st : model) (p : cellptr) : outcome cell :=
  deref (spreadsheet st !! p).

Definition store (st : model) (p : cellptr) (c : cell) : model :=
  mkmodel (<[p := c]> (spreadsheet st)) (strtok_save st) (display st).

Definition update_cell_display (st : model) (r c : Z) (text : string) : model :=
  mkmodel (spreadsheet st) (strtok_save st) (display st ++ [(r, c, text)]).

Definition call_strtok (s : option string) (st : model)
  : option (nat * string) * model :=
  let '(token, save) := strtok s "+"%char (strtok_save st) in
  (token, mkmodel (spreadsheet st) save (display st)).

(** ** The functions of model.c *)

Section Model.
Context `{Libc}.

(** set_error_and_update *)
Definition set_error_and_update (st : model) (current : cellptr)
    (error_message : string) : outcome model :=
  c ← load st current;
  let c' := set_content (set_type c ERROR) (text_value error_message) in
  mret (update_cell_display (store st current c') (row c') (col c') error_message).

(** create_cell: a node is pushed on its chain; type, content, formula
    and computed_value are left as malloc returned them. *)
Definition create_cell (st : model) (r c : Z) (text : string) : model * cellptr :=
  let current :=
    {| row := r; col := c; content := no_value; computed_value := None;
       formula := None; type := None; original_input := Some text;
       dependents := Some []; dependents_capacity := 0; state := UNVISITED |} in
  (store st (r, c) current, (r, c)).

(** add_dependent: dependents_count is the length of the list. *)
Definition add_dependent (st : model) (current dependent : cellptr) : outcome model :=
  c ← load st current;
  if (dependents_capacity c =? 0)%nat then
    mret (store st current (set_dependents c (Some [dependent]) 1))
  else
    l ← deref (dependents c);
    let cap := if (length l =? dependents_capacity c)%nat
               then (dependents_capacity c * 2)%nat else dependents_capacity c in
    mret (store st current (set_dependents c (Some (l ++ [dependent])%list) cap)).

(** find_cell: the pointer to the node's cell, or NULL. *)
Definition find_cell (st : model) (r c : Z) : option cellptr :=
  match spreadsheet st !! (r, c) with
  | Some _ => Some (r, c)
  | None => None
  end.

(** clear_cell: [current] is used without a test against NULL.  The
    buffers are freed and the pointers to them stay in the cell. *)
Definition clear_cell (st : model) (r c : Z) : outcome model :=
  current ← deref (find_cell st r c);
  cur ← load st current;
  cur1 ←
    (if type_is cur FORMULA then
       _ ← deref (formula cur); mret (set_formula cur None)
     else if type_is cur TEXT || type_is cur ERROR then
       _ ← get_text (content cur); mret (set_content cur no_value)
     else mret (set_content cur (number_value 0%float)));
  cur2 ←
    (if (dependents_capacity cur1 =? 0)%nat then mret cur1
     else _ ← deref (dependents cur1);
          mret (set_dependents cur1 None (dependents_capacity cur1)));
  _ ← deref (original_input cur2);
  let cur3 := set_original_input cur2 None in
  mret (update_cell_display (store st current cur3) r c "").

(** *** evaluate_formula *)

(** What one turn of the token loop does: go on to the next token, leave
    the loop ([break]), or return from the function. *)
Inductive turn :=
  | Continue (st : model) (result : float) (result_str : option string)
  | Break (st : model) (result : float) (result_str : option string)
  | Return (st : model) (v : float).

(** What the whole loop does. *)
Inductive scan :=
  | Scanned (st : model) (result : float) (result_str : option string)
  | Returned (st : model) (v : float).

Definition set_cell_state (st : model) (p : cellptr) (s : cell_state) : outcome model :=
  c ← load st p; mret (store st p (set_state c s)).

(** The error exits of the loop: the message, then the mark is reset. *)
Definition fail_with (st : model) (current : cellptr) (msg : string) : outcome turn :=
  st1 ← set_error_and_update st current msg;
  st2 ← set_cell_state st1 current UNVISITED;
  mret (Return st2 NAN).

Definition token_head (token : string) : Z :=
  match token with
  | String a _ => char_code a
  | EmptyString => 0
  end.
Definition token_tail (token : string) : string :=
  match token with
  | String _ s => s
  | EmptyString => EmptyString
  end.

Section Body.
(** The recursive call evaluate_formula(cell, cell->formula). *)
Variable evaluate_sub : model → cellptr → option string → outcome (model * float).

(** The branches on cell->type of a reference to the cell [target]: the value of
    the cell goes into one of the two accumulators. *)
Definition accumulate (st : model) (current target : cellptr) (cl : cell)
    (result : float) (result_str : option string) : outcome turn :=
  if type_is cl NUMBER then
    v ← get_number (content cl);
    mret (Continue st (result + v)%float result_str)
  else if type_is cl FORMULA then
    '(st1, sub_formula_result) ← evaluate_sub st target (formula cl);
    if isnan sub_formula_result then
      st2 ← set_cell_state st1 current UNVISITED;
      mret (Return st2 NAN)
    else mret (Continue st1 (result + sub_formula_result)%float result_str)
  else if type_is cl TEXT || type_is cl ERROR then
    t ← get_text (content cl);
    match result_str with
    | Some s =>
        if type_is cl ERROR then mret (Continue st result (Some t))
        else mret (Continue st result (Some (s ++ t)%string))
    | None => mret (Continue st result (Some t))
    end
  else mret (Continue st result result_str).

(** The search of the dependents of [target] for [current], add_dependent when it
    is not found, and the break on an ERROR cell. *)
Definition register_dependent (st : model) (current target : cellptr)
    (result : float) (result_str : option string) : outcome turn :=
  cl ← load st target;
  l ← deref (dependents cl);
  st1 ← (if bool_decide (current ∈ l) then mret st
         else add_dependent st target current);
  cl1 ← load st1 target;
  if type_is cl1 ERROR then mret (Break st1 result result_str)
  else mret (Continue st1 result result_str).

(** A token that starts with a letter: col = token[0] - 'A' and
    row = atoi(token + 1) - 1, both of type int. *)
Definition reference_turn (st : model) (current : cellptr) (result : float)
    (result_str : option string) (token : string) : outcome turn :=
  let c := token_head token - 65 in
  r ← int_sub (atoi (token_tail token)) 1;
  match find_cell st r c with
  | None => fail_with st current "ERROR: invalid cell reference"
  | Some target =>
      cl ← load st target;
      if bool_decide (state cl = VISITING) then
        fail_with st current "ERROR: circular dependency"
      else
        acc ← accumulate st current target cl result result_str;
        match acc with
        | Continue st1 result1 result_str1 =>
            register_dependent st1 current target result1 result_str1
        | other => mret other
        end
  end.

Definition token_turn (st : model) (current : cellptr) (result : float)
    (result_str : option string) (token : string) : outcome turn :=
  if isalpha (token_head token) then
    reference_turn st current result result_str token
  else
    digit ← isdigit_of_pointer;
    if digit : bool then mret (Continue st (result + atof token)%float result_str)
    else fail_with st current "ERROR: invalid cell reference".

Fixpoint token_loop (n : nat) (st : model) (current : cellptr) (result : float)
    (result_str : option string) (token : option (nat * string)) : outcome scan :=
  match token with
  | None => mret (Scanned st result result_str)
  | Some (off, tok) =>
      match n with
      | O => OutOfFuel
      | S n' =>
          t ← token_turn st current result result_str tok;
          match t with
          | Continue st1 result1 result_str1 =>
              let '(token1, st2) := call_strtok None st1 in
              token_loop n' st2 current result1 result_str1 token1
          | Break st1 result1 result_str1 => mret (Scanned st1 result1 result_str1)
          | Return st1 v => mret (Returned st1 v)
          end
      end
  end.

(** The first part of evaluate_formula: the mark, the copy of
    current->formula, and the loop over its tokens.  The parameter
    [formula] of the C function is not used: the copy is made of
    current->formula. *)
Definition scan_formula (st : model) (current : cellptr) : outcome scan :=
  st1 ← set_cell_state st current VISITING;
  cur ← load st1 current;
  temp_formula ← deref (formula cur);
  let '(token, st2) := call_strtok (Some temp_formula) st1 in
  token_loop (String.length temp_formula) st2 current 0%float None token.

(** The second part, after the loop: the mark is reset, and the two
    accumulators decide the outcome. *)
Definition resolve (st : model) (current : cellptr) (result : float)
    (result_str : option string) : outcome (model * float) :=
  st1 ← set_cell_state st current UNVISITED;
  match result_str with
  | Some s =>
      if negb (result =? 0)%float then
        st2 ← set_error_and_update st1 current "ERROR: incompatible types";
        mret (st2, NAN)
      else
        c ← load st1 current;
        mret (store st1 current (set_type (set_content c (text_value s)) TEXT), NAN)
  | None => mret (st1, result)
  end.

Definition evaluate_formula_body (st : model) (current : cellptr)
    (formula_arg : option string) : outcome (model * float) :=
  s ← scan_formula st current;
  match s with
  | Returned st1 v => mret (st1, v)
  | Scanned st1 result result_str => resolve st1 current result result_str
  end.

End Body.

(** Recursion depth is the counter: each nested call marks one more
    cell VISITING, and a VISITING cell is not entered again. *)
Fixpoint evaluate_formula_depth (d : nat) (st : model) (current : cellptr)
    (formula_arg : option string) : outcome (model * float) :=
  match d with
  | O => OutOfFuel
  | S d' => evaluate_formula_body (evaluate_formula_depth d') st current formula_arg
  end.

Definition evaluate_formula (st : model) (current : cellptr)
    (formula_arg : option string) : outcome (model * float) :=
  evaluate_formula_depth (S (size (spreadsheet st))) st current formula_arg.

(** *** update_dependencies

    The loop reads dependents_count and dependents[i] afresh on every
    turn.  [n] bounds the number of turns. *)
Fixpoint update_dependencies_loop (n : nat) (st : model) (current : cellptr)
    (i : nat) : outcome model :=
  cur ← load st current;
  l ← deref (dependents cur);
  match l !! i with
  | None => mret st
  | Some dependent =>
      match n with
      | O => OutOfFuel
      | S n' =>
          if bool_decide (dependent = current) then
            st1 ← set_error_and_update st current "ERROR: circular dependency";
            update_dependencies_loop n' st1 current (S i)
          else
            dep ← load st dependent;
            '(st1, formula_result) ← evaluate_formula st dependent (formula dep);
            if isnan formula_result then
              dep1 ← load st1 dependent;
              st2 ← (if type_is dep1 ERROR
                     then set_error_and_update st1 dependent "ERROR: incompatible types"
                     else mret st1);
              dep2 ← load st2 dependent;
              t ← get_text (content dep2);
              update_dependencies_loop n'
                (update_cell_display st2 (row dep2) (col dep2) t) current (S i)
            else
              dep1 ← load st1 dependent;
              let dep2 := set_content (set_type dep1 NUMBER) (number_value formula_result) in
              let dependent_value := snprintf_1f formula_result in
              update_dependencies_loop n'
                (update_cell_display (store st1 dependent dep2) (row dep2) (col dep2)
                   dependent_value) current (S i)
      end
  end.

(** Every turn either moves [i] forward in an unchanged list or
    appends to the list cells that were not in it, so the number of
    turns is at most the length of the list plus the number of cells. *)
Definition update_dependencies (st : model) (current : cellptr) : outcome model :=
  cur ← load st current;
  l ← deref (dependents cur);
  update_dependencies_loop (length l + size (spreadsheet st)) st current 0.

(** *** set_cell_value *)

(** The first part of set_cell_value: the cell is found or created, and
    the buffers of an existing cell are released. *)
Definition renew_cell (st : model) (r c : Z) (text : string) : outcome (model * cellptr) :=
  match find_cell st r c with
  | None => mret (create_cell st r c text)
  | Some current =>
      cur ← load st current;
      _ ← deref (original_input cur);
      let cur1 := set_original_input cur (Some text) in
      cur2 ←
        (if type_is cur1 FORMULA then
           _ ← deref (formula cur1); mret (set_formula cur1 None)
         else if type_is cur1 TEXT || type_is cur1 ERROR then
           _ ← get_text (content cur1); mret (set_content cur1 no_value)
         else mret cur1);
      mret (store st current cur2, current)
  end.

(** The cell as the formula branch leaves it before the evaluation. *)
Definition declare_formula (cur : cell) (text : string) : cell :=
  set_formula (set_type cur FORMULA) (Some (token_tail text)).

(** The cell as the formula branch leaves it for a numeric result. *)
Definition assign_number (cur : cell) (formula_result : float) : cell :=
  set_content (set_type (set_computed_value cur formula_result) NUMBER)
    (number_value formula_result).

Definition set_cell_value (st : model) (r c : Z) (text : string) : outcome model :=
  '(st1, current) ← renew_cell st r c text;
  if bool_decide (token_head text = 61) then
    cur ← load st1 current;
    let st2 := store st1 current (declare_formula cur text) in
    '(st3, formula_result) ← evaluate_formula st2 current (Some (token_tail text));
    if isnan formula_result then
      cur3 ← load st3 current;
      if type_is cur3 FORMULA then
        input ← deref (original_input cur3);
        let cur4 := set_content (set_type cur3 ERROR) (text_value input) in
        mret (update_cell_display (store st3 current cur4) r c input)
      else
        t ← get_text (content cur3);
        mret (update_cell_display st3 r c t)
    else
      cur3 ← load st3 current;
      let st4 := update_cell_display (store st3 current (assign_number cur3 formula_result))
                   r c (snprintf_1f formula_result) in
      update_dependencies st4 current
  else
    cur ← load st1 current;
    let '(number, rest) := strtod text in
    let cur1 :=
      if bool_decide (rest = "") then set_content (set_type cur NUMBER) (number_value number)
      else set_content (set_type cur TEXT) (text_value text) in
    let st2 := update_cell_display (store st1 current cur1) r c text in
    update_dependencies st2 current.

(** get_textual_value: a copy of the original input, or NULL. *)
Definition get_textual_value (st : model) (r c : Z) : outcome (option string) :=
  match find_cell st r c with
  | Some current =>
      cur ← load st current;
      s ← deref (original_input cur);
      mret (Some s)
  | None => mret None
  end.

End Model.

(** ** A concrete C library

    The examples below run the model on a C library in the "C" locale
    with IEEE 754 binary64 doubles.  [c_strtod] covers what C99 strtod
    accepts: decimal and hexadecimal notation, "inf", "infinity", "nan"
    and "nan(n-char-sequence)", without regard to case.  Values are
    rounded to nearest, ties to even; every NaN is the one NaN of the
    model. *)

Module CLib.

Definition isspace (a : ascii) : bool :=
  let c := char_code a in (c =? 32) || (9 <=? c) && (c <=? 13).

Fixpoint skip_space (s : string) : string :=
  match s with
  | String a s' => if isspace a then skip_space s' else s
  | EmptyString => s
  end.

(** An optional sign: whether it is '-', and what follows it. *)
Definition take_sign (s : string) : bool * string :=
  match s with
  | String "-" s' => (true, s')
  | String "+" s' => (false, s')
  | _ => (false, s)
  end.

(** The longest prefix of decimal digits: its value after [acc], how
    many digits it has, and what follows it. *)
Fixpoint take_digits (acc : Z) (s : string) : Z * nat * string :=
  match s with
  | String a s' =>
      if isdigit (char_code a) then
        let '(v, n, r) := take_digits (acc * 10 + (char_code a - 48)) s' in (v, S n, r)
      else (acc, O, s)
  | EmptyString => (acc, O, s)
  end.

Definition LONG_MAX : Z := 2 ^ 63 - 1.
Definition LONG_MIN : Z := - 2 ^ 63.

(** atoi is (int) strtol(s, NULL, 10): the value saturates as a long and
    is then reduced to an int. *)
Definition c_atoi (s : string) : Z :=
  let '(neg, s1) := take_sign (skip_space s) in
  let '(v, _, _) := take_digits 0 s1 in
  let l := Z.max LONG_MIN (Z.min LONG_MAX (if neg then - v else v)) in
  (l + 2 ^ 31) mod 2 ^ 32 - 2 ^ 31.

Definition lower (a : ascii) : ascii :=
  let c := char_code a in
  if (65 <=? c) && (c <=? 90) then ascii_of_N (Z.to_N (c + 32)) else a.

(** [s] without the prefix [p], compared without regard to case. *)
Fixpoint strip_prefix_nocase (p s : string) : option string :=
  match p, s with
  | EmptyString, _ => Some s
  | String a p', String b s' =>
      if Ascii.eqb a (lower b) then strip_prefix_nocase p' s' else None
  | String _ _, EmptyString => None
  end.

(** The double nearest to [m * 10 ^ e], for [0 <= m]. *)
Definition decimal_to_double (neg : bool) (m e : Z) : float :=
  match m with
  | Zpos p =>
      if 0 <=? e then
        SF2Prim (binary_normalize prec emax (if neg then - (m * 10 ^ e) else m * 10 ^ e)
                   0 false)
      else
        SF2Prim (SFdiv prec emax (S754_finite neg p 0)
                   (S754_finite false (Z.to_pos (10 ^ (- e))) 0))
  | _ => if neg then neg_zero else zero
  end.

(** The exponent part: 'e' or 'E', an optional sign and at least one
    digit; without a digit there is no exponent part. *)
Definition take_exponent (s : string) : Z * string :=
  match s with
  | String a s' =>
      if Ascii.eqb (lower a) "e" then
        let '(neg, s1) := take_sign s' in
        match take_digits 0 s1 with
        | (_, O, _) => (0, s)
        | (v, S _, r) => (if neg then - v else v, r)
        end
      else (0, s)
  | EmptyString => (0, s)
  end.

(** The value of a hexadecimal digit. *)
Definition hex_value (a : ascii) : option Z :=
  let c := char_code a in
  if isdigit c then Some (c - 48)
  else if (97 <=? c) && (c <=? 102) then Some (c - 87)
  else if (65 <=? c) && (c <=? 70) then Some (c - 55)
  else None.

(** The longest prefix of hexadecimal digits: its value after [acc],
    how many digits it has, and what follows it. *)
Fixpoint take_hex_digits (acc : Z) (s : string) : Z * nat * string :=
  match s with
  | String a s' =>
      match hex_value a with
      | Some d => let '(v, n, r) := take_hex_digits (acc * 16 + d) s' in (v, S n, r)
      | None => (acc, O, s)
      end
  | EmptyString => (acc, O, s)
  end.

(** The binary exponent part: 'p' or 'P', an optional sign and at least
    one decimal digit. *)
Definition take_binary_exponent (s : string) : Z * string :=
  match s with
  | String a s' =>
      if Ascii.eqb (lower a) "p" then
        let '(neg, s1) := take_sign s' in
        match take_digits 0 s1 with
        | (_, O, _) => (0, s)
        | (v, S _, r) => (if neg then - v else v, r)
        end
      else (0, s)
  | EmptyString => (0, s)
  end.

(** The double nearest to [m * 2 ^ e], for [0 <= m]. *)
Definition binary_to_double (neg : bool) (m e : Z) : float :=
  match m with
  | Zpos _ => SF2Prim (binary_normalize prec emax (if neg then - m else m) e false)
  | _ => if neg then neg_zero else zero
  end.

(** What follows "0x": hexadecimal digits with an optional '.', at least
    one digit in all, and an optional binary exponent. *)
Definition take_hexadecimal (neg : bool) (s : string) : option (float * string) :=
  let '(int_part, n_int, s2) := take_hex_digits 0 s in
  let '(mant, n_frac, s3) :=
    match s2 with
    | String "." s2' => take_hex_digits int_part s2'
    | _ => (int_part, O, s2)
    end in
  match n_int, n_frac with
  | O, O => None
  | _, _ =>
      let '(e, s4) := take_binary_exponent s3 in
      Some (binary_to_double neg mant (e - 4 * Z.of_nat n_frac), s4)
  end.

(** What follows "nan": an optional "(n-char-sequence)" of digits,
    letters and underscores. *)
Fixpoint skip_n_chars (s : string) : string :=
  match s with
  | String a s' =>
      let c := char_code a in
      if isdigit c || isalpha c || (c =? 95) then skip_n_chars s' else s
  | EmptyString => s
  end.

Definition skip_nan_sequence (s : string) : string :=
  match s with
  | String "(" s' =>
      match skip_n_chars s' with
      | String ")" r => r
      | _ => s
      end
  | _ => s
  end.

(** A decimal constant: digits with an optional '.', at least one
    digit in all, and an optional exponent.  Without a digit no
    conversion is performed, and the rest is the whole of [s]. *)
Definition take_decimal (neg : bool) (s s1 : string) : float * string :=
  let '(int_part, n_int, s2) := take_digits 0 s1 in
  let '(mant, n_frac, s3) :=
    match s2 with
    | String "." s2' => take_digits int_part s2'
    | _ => (int_part, O, s2)
    end in
  match n_int, n_frac with
  | O, O => (zero, s)
  | _, _ =>
      let '(e, s4) := take_exponent s3 in
      (decimal_to_double neg mant (e - Z.of_nat n_frac), s4)
  end.

Definition c_strtod (s : string) : float * string :=
  let '(neg, s1) := take_sign (skip_space s) in
  match strip_prefix_nocase "infinity" s1 with
  | Some r => (if neg then neg_infinity else infinity, r)
  | None =>
  match strip_prefix_nocase "inf" s1 with
  | Some r => (if neg then neg_infinity else infinity, r)
  | None =>
  match strip_prefix_nocase "nan" s1 with
  | Some r => (nan, skip_nan_sequence r)
  | None =>
  match strip_prefix_nocase "0x" s1 with
  | Some r => default (take_decimal neg s s1) (take_hexadecimal neg r)
  | None => take_decimal neg s s1
  end end end end.

Definition c_atof (s : string) : float := fst (c_strtod s).

(** [n / d] rounded to the nearest integer, ties to even. *)
Definition div_nearest_even (n d : Z) : Z :=
  let q := n / d in
  let r := n mod d in
  if 2 * r <? d then q
  else if d <? 2 * r then q + 1
  else if Z.even q then q else q + 1.

Definition decimal (n : Z) : string :=
  NilZero.string_of_uint (N.to_uint (Z.to_N n)).

Fixpoint string_take (n : nat) (s : string) : string :=
  match n, s with
  | S n', String a s' => String a (string_take n' s')
  | _, _ => EmptyString
  end.

(** snprintf(buf, 50, "%.1f", x): the exact value of [x] rounded to one
    decimal, ties to even, cut to 49 characters. *)
Definition c_snprintf_1f (x : float) : string :=
  let sign (s : bool) := if s then "-" else "" in
  string_take 49
    match Prim2SF x with
    | S754_nan => "nan"
    | S754_infinity s => sign s +:+ "inf"
    | S754_zero s => sign s +:+ "0.0"
    | S754_finite s m e =>
        let tenths :=
          if 0 <=? e then Zpos m * 2 ^ e * 10
          else div_nearest_even (Zpos m * 10) (2 ^ (- e)) in
        sign s +:+ decimal (tenths / 10) +:+ "." +:+ decimal (tenths mod 10)
    end.

#[global] Instance c_library : Libc := {|
  strtod := c_strtod;
  atof := c_atof;
  atoi := c_atoi;
  snprintf_1f := c_snprintf_1f
|}.

End CLib.

(** * The hash table

    The table is an array of HASH_SIZE chains of nodes.  A node holds
    its key, the text "row,col", a cell and the pointer to the next node
    of its chain.  The functions below are the functions of model.c
    that walk, extend and cut the chains; in the rest of the model the
    table is seen as the finite map [spreadsheet] from positions to
    cells.  malloc is taken to succeed and to return an address that is
    not in use. *)

(** The cell that create_cell makes. *)
Definition new_cell (r c : Z) (text : string) : cell :=
  {| row := r; col := c; content := no_value; computed_value := None;
     formula := None; type := None; original_input := Some text;
     dependents := Some []; dependents_capacity := 0; state := UNVISITED |}.

Module Chained.

Definition HASH_SIZE : Z := 1229.

(** Whether plain char is a signed type. *)
Class PlainChar := char_is_signed : bool.

Definition is_int (v : Z) : Prop := INT_MIN ≤ v ≤ INT_MAX.

Section Hash.
Context `{PlainChar}.

(** The value of [*str], a char, as an int. *)
Definition int_of_char (a : ascii) : Z :=
  let c := char_code a in
  if char_is_signed && (128 <=? c) then c - 256 else c.

(** The loop of hash: unsigned long arithmetic is modulo 2^64, and the
    string ends at its first NUL. *)
Fixpoint hash_loop (h : Z) (str : string) : Z :=
  match str with
  | EmptyString => h
  | String a str' =>
      let c := int_of_char a in
      if c =? 0 then h
      else hash_loop (((Z.shiftl h 5 mod 2 ^ 64 + h) mod 2 ^ 64 + c) mod 2 ^ 64) str'
  end.

Definition hash (str : string) : Z := hash_loop 5381 str mod HASH_SIZE.
End Hash.

(** "%d" of an int: a sign and at most ten digits. *)
Definition digit_char (d : Z) : ascii := ascii_of_N (Z.to_N (48 + d)).

Fixpoint decimal_digits (n : nat) (v : Z) (acc : string) : string :=
  let acc' := String (digit_char (v mod 10)) acc in
  match n with
  | O => acc'
  | S n' => if v <? 10 then acc' else decimal_digits n' (v / 10) acc'
  end.

Definition format_d (v : Z) : string :=
  if v <? 0 then String "-" (decimal_digits 9 (- v) "") else decimal_digits 9 v "".

(** The text that "%d,%d" produces. *)
Definition key_text (r c : Z) : string := format_d r +:+ "," +:+ format_d c.

(** snprintf(key, sizeof(key), "%d,%d", row, col) cuts the text to the
    49 characters that fit; sprintf writes behind the buffer when the text
    does not fit. *)
Definition snprintf_key (r c : Z) : string := CLib.string_take 49 (key_text r c).
Definition sprintf_key (r c : Z) : outcome string :=
  if (String.length (key_text r c) <? 50)%nat then Done (key_text r c) else Fault.

(** Nodes live in the heap at the address malloc returned.  A [cell *]
    is the address of the node that holds the cell. *)
Definition addr := positive.

Record node := mknode { key : string; value : cell; next : option addr }.

(** The array [spreadsheet], the heap of nodes, and the calls of
    update_cell_display. *)
Record table := mktable {
  buckets : list (option addr);
  heap : gmap addr node;
  shown : list (Z * Z * string)
}.

(** The state at program start: the array is zero-initialised. *)
Definition initial : table :=
  mktable (replicate (Z.to_nat HASH_SIZE) None) ∅ [].

(** model_init: every chain is dropped, no node is freed. *)
Definition model_init (t : table) : table :=
  mktable (replicate (Z.to_nat HASH_SIZE) None) (heap t) (shown t).

Section Functions.
Context `{PlainChar}.

(** The loop of find_cell.  [n] bounds the number of nodes visited. *)
Fixpoint find_loop (n : nat) (h : gmap addr node) (k : string) (current : option addr)
  : outcome (option addr) :=
  match current with
  | None => mret None
  | Some a =>
      match n with
      | O => OutOfFuel
      | S n' =>
          nd ← deref (h !! a);
          if String.eqb (key nd) k then mret (Some a)
          else find_loop n' h k (next nd)
      end
  end.

Definition find_cell (t : table) (r c : Z) : outcome (option addr) :=
  k ← sprintf_key r c;
  let index := Z.to_nat (hash k) in
  first ← deref (buckets t !! index);
  find_loop (size (heap t)) (heap t) k first.

(** create_cell: the node is put in front of its chain. *)
Definition create_cell (t : table) (r c : Z) (text : string) : outcome (table * addr) :=
  let k := snprintf_key r c in
  let index := Z.to_nat (hash k) in
  first ← deref (buckets t !! index);
  let new_node := fresh (dom (heap t)) in
  let current :=
    {| row := r; col := c; content := no_value; computed_value := None;
       formula := None; type := None; original_input := Some text;
       dependents := Some []; dependents_capacity := 0; state := UNVISITED |} in
  mret (mktable (<[index := Some new_node]> (buckets t))
          (<[new_node := mknode k current first]> (heap t)) (shown t),
        new_node).

(** What clear_cell does to the cell it found. *)
Definition clear_buffers (cur : cell) : outcome cell :=
  cur1 ←
    (if type_is cur FORMULA then
       _ ← deref (formula cur); mret (set_formula cur None)
     else if type_is cur TEXT || type_is cur ERROR then
       _ ← get_text (content cur); mret (set_content cur no_value)
     else mret (set_content cur (number_value 0%float)));
  cur2 ←
    (if (dependents_capacity cur1 =? 0)%nat then mret cur1
     else _ ← deref (dependents cur1);
          mret (set_dependents cur1 None (dependents_capacity cur1)));
  _ ← deref (original_input cur2);
  mret (set_original_input cur2 None).

Definition clear_cell (t : table) (r c : Z) : outcome table :=
  found ← find_cell t r c;
  current ← deref found;
  nd ← deref (heap t !! current);
  cur ← clear_buffers (value nd);
  mret (mktable (buckets t) (<[current := mknode (key nd) cur (next nd)]> (heap t))
          (shown t ++ [(r, c, "")])).

(** The loop of free_cell. *)
Fixpoint free_loop (n : nat) (t : table) (r c : Z) (k : string) (index : nat)
    (prev current : option addr) : outcome table :=
  match current with
  | None => mret t
  | Some a =>
      match n with
      | O => OutOfFuel
      | S n' =>
          nd ← deref (heap t !! a);
          if String.eqb (key nd) k then
            t1 ← match prev with
                 | None => mret (mktable (<[index := next nd]> (buckets t)) (heap t) (shown t))
                 | Some p =>
                     pn ← deref (heap t !! p);
                     mret (mktable (buckets t)
                             (<[p := mknode (key pn) (value pn) (next nd)]> (heap t)) (shown t))
                 end;
            nd1 ← deref (heap t1 !! a);
            t2 ← clear_cell t1 (row (value nd1)) (col (value nd1));
            _ ← deref (heap t2 !! a);
            mret (mktable (buckets t2) (delete a (heap t2)) (shown t2 ++ [(r, c, "")]))
          else free_loop n' t r c k index (Some a) (next nd)
      end
  end.

Definition free_cell (t : table) (r c : Z) : outcome table :=
  k ← sprintf_key r c;
  let index := Z.to_nat (hash k) in
  first ← deref (buckets t !! index);
  free_loop (size (heap t)) t r c k index None first.

(** The inner loop of model_destroy: [next] is read before the node is
    freed. *)
Fixpoint destroy_chain (n : nat) (t : table) (current : option addr) : outcome table :=
  match current with
  | None => mret t
  | Some a =>
      match n with
      | O => OutOfFuel
      | S n' =>
          nd ← deref (heap t !! a);
          t1 ← free_cell t (row (value nd)) (col (value nd));
          destroy_chain n' t1 (next nd)
      end
  end.

(** The outer loop, over [count] indices from [i]. *)
Fixpoint destroy_from (count : nat) (i : nat) (t : table) : outcome table :=
  match count with
  | O => mret t
  | S count' =>
      first ← deref (buckets t !! i);
      t1 ← destroy_chain (size (heap t)) t first;
      destroy_from count' (S i) t1
  end.

Definition model_destroy (t : table) : outcome table :=
  destroy_from (Z.to_nat HASH_SIZE) 0 t.
End Functions.

(** The plain char of the platform of the examples is signed. *)
#[global] Instance signed_char : PlainChar := true.

End Chained.

(** * Observations and scenarios *)

(** A call of set_cell_value. *)
Definition call : Type := Z * Z * string.

Section Calls.
Context `{Libc}.

(** The calls in order, as long as each returns. *)
Fixpoint set_cells (st : model) (calls : list call) : outcome model :=
  match calls with
  | [] => mret st
  | (r, c, text) :: rest => st1 ← set_cell_value st r c text; set_cells st1 rest
  end.

(** The states the interface reaches from the empty table, with the
    positions that set_cell_value was called on. *)
Inductive reached : list cellptr → model → Prop :=
  | reached_init : reached [] model_init
  | reached_set ps st r c text st' :
      reached ps st → set_cell_value st r c text = Done st' → reached ((r, c) :: ps) st'
  | reached_clear ps st r c st' :
      reached ps st → clear_cell st r c = Done st' → reached ps st'.

(** The scan that evaluate_formula performs on [current]. *)
Definition formula_scan (st : model) (current : cellptr) : outcome scan :=
  scan_formula (evaluate_formula_depth (size (spreadsheet st))) st current.

End Calls.

(** The text of the last update_cell_display call for a position. *)
Fixpoint last_shown (log : list (Z * Z * string)) (r c : Z) : option string :=
  match log with
  | [] => None
  | (r', c', text) :: rest =>
      match last_shown rest r c with
      | Some t => Some t
      | None => if bool_decide ((r', c') = (r, c)) then Some text else None
      end
  end.

(** What the display shows at a position. *)
Definition displayed (st : model) (r c : Z) : option string :=
  last_shown (display st) r c.

(** The type and content of the cell at a position. *)
Definition kind_of (st : model) (r c : Z) : option (option cell_type * content_union) :=
  (λ cl, (type cl, content cl)) <$> spreadsheet st !! (r, c).

(** The mark of the cell at a position. *)
Definition visit_state (st : model) (p : cellptr) : option cell_state :=
  state <$> spreadsheet st !! p.

(** What is seen of a cell: its type and content, and what the display
    shows for it. *)
Definition view (st : model) (r c : Z)
  : option (option cell_type * content_union) * option string :=
  (kind_of st r c, displayed st r c).

Definition is_number (x : float) (shown : string)
  : option (option cell_type * content_union) * option string :=
  (Some (Some NUMBER, number_value x), Some shown).
Definition is_error (msg : string)
  : option (option cell_type * content_union) * option string :=
  (Some (Some ERROR, text_value msg), Some msg).
Definition is_text (s : string)
  : option (option cell_type * content_union) * option string :=
  (Some (Some TEXT, text_value s), Some s).

(** The cell that update_dependencies leaves when it meets [current]
    among the dependents of [current]. *)
Definition flag_self_reference (st : model) (current : cellptr) (cur : cell) : model :=
  update_cell_display
    (store st current
       (set_content (set_type cur ERROR) (text_value "ERROR: circular dependency")))
    (row cur) (col cur) "ERROR: circular dependency".

(** The cell at [p] is one of its own dependents. *)
Definition lists_itself (st : model) (p : cellptr) : Prop :=
  ∃ cl l, spreadsheet st !! p = Some cl ∧ dependents cl = Some l ∧ p ∈ l.

(** The buffers that clear_cell frees are there to be freed. *)
Definition buffers_live (cl : cell) : Prop :=
  (type cl = Some FORMULA → is_Some (formula cl)) ∧
  (type cl = Some TEXT ∨ type cl = Some ERROR → ∃ s, content cl = text_value s) ∧
  (dependents_capacity cl ≠ 0%nat → is_Some (dependents cl)) ∧
  is_Some (original_input cl).

(** ** Scenarios on the concrete C library *)

(** An observation after a sequence of calls on the empty table. *)
Definition observe {A : Type} (calls : list call) (f : model → A) : outcome A :=
  st ← set_cells (H := CLib.c_library) model_init calls; mret (f st).

(** The state after the calls, or the empty table when one of them
    does not return. *)
Definition state_after (calls : list call) : model :=
  match set_cells (H := CLib.c_library) model_init calls with
  | Done st => st
  | _ => model_init
  end.

(** A1 = 1, then "=A1" and "=B1+B1" at the positions (1,0) and (2,0),
    which are the cells A2 and A3. *)
Definition chain_in_column : list call :=
  [(0, 0, "1"); (1, 0, "=A1"); (2, 0, "=B1+B1"); (0, 0, "5")].

(** The same chain in the cells A1, B1 and C1. *)
Definition chain_in_row : list call :=
  [(0, 0, "1"); (0, 1, "=A1"); (0, 2, "=B1+B1"); (0, 0, "5")].

(** The outcome of the chain that would follow from propagation to
    every transitive dependent. *)
Definition transitive_propagation_claim : Prop :=
  observe chain_in_column (λ st, (view st 1 0, view st 2 0))
  = Done (is_number 5 "5.0", is_number 10 "10.0").

(** A1 reads A2, then A2 reads A1. *)
Definition mutual_references : list call := [(0, 0, "=A2"); (1, 0, "=A1")].

(** Both cells flagged as a circular dependency. *)
Definition cycle_rejection_claim : Prop :=
  observe mutual_references
    (λ st, (view st 0 0, view st 1 0, visit_state st (0, 0), visit_state st (1, 0)))
  = Done (is_error "ERROR: circular dependency", is_error "ERROR: circular dependency",
          Some UNVISITED, Some UNVISITED).

(** B1 reads A1 and itself. *)
Definition self_reading_dependent : list call :=
  [(0, 0, "1"); (0, 1, "=A1+B1"); (0, 0, "2")].

(** The table in which B1 reads A1 and itself. *)
Definition one_and_self_reader : model :=
  state_after [(0, 0, "1"); (0, 1, "=A1+B1")].

(** B1 reads A1 twice. *)
Definition twice_referenced : list call := [(0, 0, "1"); (0, 1, "=A1+A1")].

(** A cell that lists itself among its dependents. *)
Definition self_edge_cell : cell :=
  {| row := 0; col := 0; content := number_value 1; computed_value := None;
     formula := None; type := Some NUMBER; original_input := Some "1";
     dependents := Some [(0, 0)]; dependents_capacity := 1; state := UNVISITED |}.

Definition self_edge : model := store model_init (0, 0) self_edge_cell.

(** A1 is a text and B1 a number. *)
Definition hello_and_three : model := state_after [(0, 0, "hello"); (0, 1, "3")].

(** A1 holds the input "nan", which strtod reads as a number. *)
Definition nan_number : model := state_after [(0, 0, "nan")].

(** The state after clear_cell, or the state itself when clear_cell
    does not return. *)
Definition cleared (st : model) (r c : Z) : model :=
  match clear_cell st r c with
  | Done st' => st'
  | _ => st
  end.

(** The cell at a position, or an empty cell. *)
Definition cell_at (st : model) (p : cellptr) : cell :=
  default (new_cell p.1 p.2 "") (spreadsheet st !! p).

(** A1 = 1. *)
Definition one_cell_model : model := state_after [(0, 0, "1")].

(** A1 = 1 and B1 = "=A1". *)
Definition one_and_copy : model := state_after [(0, 0, "1"); (0, 1, "=A1")].

(** A1 = 1 with the three readers B1, C1 and D1. *)
Definition three_readers : model :=
  state_after [(0, 0, "1"); (0, 1, "=A1"); (0, 2, "=A1"); (0, 3, "=A1")].

(** B1 = "=A1" is overwritten with the literal 7. *)
Definition copy_overwritten : model :=
  state_after [(0, 0, "1"); (0, 1, "=A1"); (0, 1, "7")].

(** The table after create_cell(0, 0, "1") at program start. *)
Definition one_cell : Chained.table :=
  match Chained.create_cell Chained.initial 0 0 "1" with
  | Done (t, _) => t
  | _ => Chained.initial
  end.

(** * Vocabulary of the proofs *)

(** [wp m Q]: the computation [m] does not run out of fuel, and [Q]
    holds of what it returns.  A [Fault] is undefined behaviour of the
    C program, of which nothing is claimed. *)
Definition wp {A : Type} (m : outcome A) (Q : A → Prop) : Prop :=
  match m with
  | Done a => Q a
  | Fault => True
  | OutOfFuel => False
  end.

(** The measure of the loop of update_dependencies on a list of
    dependents, in a table with the positions [D]: the length of the
    list and the number of positions that are not on it.  Registering
    a dependent that is not on the list leaves it as it is. *)
Definition potential (D : gset cellptr) (lo : option (list cellptr)) : nat :=
  match lo with
  | Some l => (length l + size (D ∖ list_to_set l))%nat
  | None => size D
  end.

(** No position is twice on the list of dependents. *)
Definition nodups (lo : option (list cellptr)) : Prop :=
  match lo with
  | Some l => NoDup l
  | None => True
  end.

(** The cell at [p] does not list itself among its dependents. *)
Definition self_free (p : cellptr) (c : cell) : Prop :=
  ∀ l, dependents c = Some l → p ∉ l.

(** What every step of an evaluation keeps of the cell at [p], in a
    table with the positions [D]: its position, input and formula; the
    potential and the distinctness of its dependents; and that it does
    not list itself. *)
Record cell_kept (D : gset cellptr) (p : cellptr) (c c' : cell) : Prop := {
  kept_row : row c' = row c;
  kept_col : col c' = col c;
  kept_input : original_input c' = original_input c;
  kept_formula : formula c' = formula c;
  kept_potential : (potential D (dependents c') ≤ potential D (dependents c))%nat;
  kept_nodup : nodups (dependents c) → nodups (dependents c');
  kept_self : self_free p c → self_free p c'
}.

(** What an evaluation keeps of a cell it does not evaluate: the mark,
    and the type and content unless the cell is an unvisited FORMULA. *)
Definition cell_same (c c' : cell) : Prop :=
  state c' = state c ∧
  (state c = VISITING ∨ type c ≠ Some FORMULA →
   type c' = type c ∧ content c' = content c).

(** [frame K m m']: [m'] has the cells of [m], each kept, and the same
    at the positions in [K]. *)
Definition frame (K : cellptr → Prop) (m m' : gmap (Z * Z) cell) : Prop :=
  ∀ p, (m !! p = None → m' !! p = None) ∧
       (∀ c, m !! p = Some c →
             ∃ c', m' !! p = Some c' ∧ cell_kept (dom m) p c c' ∧ (K p → cell_same c c')).

(** The length of the text that strtok has not consumed yet. *)
Definition remaining (s : strtok_state) : nat :=
  (String.length (tok_buf s) - tok_pos s)%nat.

(** The positions whose cell is UNVISITED: the measure of the depth of
    an evaluation. *)
Definition unvisited (m : gmap (Z * Z) cell) : gset (Z * Z) :=
  dom (filter (λ kv, state kv.2 = UNVISITED) m).

Abbreviation mframe K st st' := (frame K (spreadsheet st) (spreadsheet st')).

(** The sets of positions at which a frame asks for the same cell. *)
Definition everywhere : cellptr → Prop := λ _, True.
Definition besides (cur : cellptr) : cellptr → Prop := λ p, p ≠ cur.
Definition nowhere : cellptr → Prop := λ _, False.
Definition only (cur : cellptr) (Kc : Prop) : cellptr → Prop := λ p, Kc ∧ p = cur.

(** There is a cell at [p], and it is UNVISITED. *)
Definition unvisited_at (st : model) (p : cellptr) : Prop :=
  ∃ c, spreadsheet st !! p = Some c ∧ state c = UNVISITED.

(** What one token of the loop of evaluate_formula guarantees.  Going
    on, the token either left strtok alone or, after an evaluation of
    another cell, left it without text; returning, the evaluated cell
    is UNVISITED again and the value is NaN. *)
Definition turn_ok (st : model) (cur : cellptr) (t : turn) : Prop :=
  match t with
  | Continue st' _ _ =>
      mframe everywhere st st' ∧
      (strtok_save st' = strtok_save st ∨ remaining (strtok_save st') = 0%nat)
  | Break st' _ rs => mframe everywhere st st' ∧ rs ≠ None
  | Return st' v =>
      mframe (besides cur) st st' ∧ unvisited_at st' cur ∧ isnan v = true
  end.

(** What evaluate_formula guarantees on the cell [cur]: the other cells
    are the same, [cur] is UNVISITED, and with a value other than NaN
    [cur] has the type and content it had. *)
Definition eval_post (st : model) (cur : cellptr) (r : model * float) : Prop :=
  mframe (besides cur) st r.1 ∧ unvisited_at r.1 cur ∧
  (isnan r.2 = false →
   remaining (strtok_save r.1) = 0%nat ∧
   ∀ c c', spreadsheet st !! cur = Some c → spreadsheet r.1 !! cur = Some c' →
           type c' = type c ∧ content c' = content c).

(** What [accumulate] guarantees: a [Continue] leaves a cell of type
    ERROR only together with an accumulated string. *)
Definition accumulate_ok (st : model) (cur target : cellptr) (t : turn) : Prop :=
  match t with
  | Continue st' _ rs =>
      turn_ok st cur t ∧
      (∀ c', spreadsheet st' !! target = Some c' → type c' = Some ERROR → rs ≠ None)
  | Break _ _ _ => False
  | Return _ _ => turn_ok st cur t
  end.

(** What the loop over the tokens guarantees. *)
Definition scan_ok (st : model) (cur : cellptr) (s : scan) : Prop :=
  match s with
  | Scanned st' _ rs =>
      mframe everywhere st st' ∧ (rs = None → remaining (strtok_save st') = 0%nat)
  | Returned st' v =>
      mframe (besides cur) st st' ∧ unvisited_at st' cur ∧ isnan v = true
  end.

(** What the first part of evaluate_formula guarantees: after a
    complete scan the cell still has the type and content it had. *)
Definition scan_post (st : model) (cur : cellptr) (s : scan) : Prop :=
  match s with
  | Scanned st' _ rs =>
      ∃ c c', spreadsheet st !! cur = Some c ∧ spreadsheet st' !! cur = Some c' ∧
              mframe (besides cur) st st' ∧ type c' = type c ∧ content c' = content c ∧
              (rs = None → remaining (strtok_save st') = 0%nat)
  | Returned st' v =>
      mframe (besides cur) st st' ∧ unvisited_at st' cur ∧ isnan v = true
  end.

(** What set_cell_value guarantees: the cell at (r, c) got the input
    [text] and the dependents it had, and every cell was kept from
    there on. *)
Definition set_cell_value_post (st : model) (r c : Z) (text : string) (st' : model) : Prop :=
  ∃ c1, original_input c1 = Some text ∧
        dependents c1 = match spreadsheet st !! (r, c) with
                        | Some c0 => dependents c0
                        | None => Some []
                        end ∧
        frame nowhere (<[(r, c) := c1]> (spreadsheet st)) (spreadsheet st').

(** No cell of the table has a dependent twice. *)
Definition dependents_distinct (st : model) : Prop :=
  ∀ p cl, spreadsheet st !! p = Some cl → nodups (dependents cl).

(** ** Partial correctness and the writes of an evaluation *)

(** [returns m Q]: when [m] returns, [Q] holds of what it returns. *)
Definition returns {A : Type} (m : outcome A) (Q : A → Prop) : Prop :=
  ∀ a, m = Done a → Q a.

(** The list and the capacity that add_dependent leaves in a cell with
    the dependents [l]. *)
Definition added (c : cell) (l : list cellptr) (dependent : cellptr) : cell :=
  if (dependents_capacity c =? 0)%nat then set_dependents c (Some [dependent]) 1
  else set_dependents c (Some (l ++ [dependent])%list)
         (if (length l =? dependents_capacity c)%nat
          then (dependents_capacity c * 2)%nat else dependents_capacity c).

(** The pairs of type and content that an evaluation writes. *)
Definition agrees (t : cell_type) (v : content_union) : Prop :=
  match t, v with
  | NUMBER, number_value _ | TEXT, text_value _ | ERROR, text_value _ => True
  | _, _ => False
  end.

(** [J D p c] holds of every cell [c] at its position [p], in the table
    with the positions [D]. *)
Definition cells_ok (J : gset cellptr → cellptr → cell → Prop) (st : model) : Prop :=
  ∀ p c, spreadsheet st !! p = Some c → J (dom (spreadsheet st)) p c.

(** From [st] to [st'] the positions are the same, and [J] still holds
    of every cell. *)
Definition keeps (J : gset cellptr → cellptr → cell → Prop) (st st' : model) : Prop :=
  dom (spreadsheet st') = dom (spreadsheet st) ∧ (cells_ok J st → cells_ok J st').

(** What a turn of the token loop leaves. *)
Definition turn_keeps (J : gset cellptr → cellptr → cell → Prop) (st0 : model) (t : turn)
  : Prop :=
  match t with
  | Continue st _ _ | Break st _ _ | Return st _ => keeps J st0 st
  end.

Definition scan_keeps (J : gset cellptr → cellptr → cell → Prop) (st0 : model) (s : scan)
  : Prop :=
  match s with
  | Scanned st _ _ | Returned st _ => keeps J st0 st
  end.

(** Two cells with the same position and the same array of dependents. *)
Definition same_edges (c c' : cell) : Prop :=
  row c' = row c ∧ col c' = col c ∧ dependents c' = dependents c ∧
  dependents_capacity c' = dependents_capacity c.

(** What renew_cell does to the table: the cell at (r, c) is new, or it
    is the old cell with another input and its text buffers freed. *)
Definition renewed (st : model) (r c : Z) (text : string) (c1 : cell) : Prop :=
  original_input c1 = Some text ∧
  match spreadsheet st !! (r, c) with
  | Some c0 => same_edges c0 c1 ∧ type c1 = type c0 ∧ state c1 = state c0 ∧
               formula c1 = (if type_is c0 FORMULA then None else formula c0) ∧
               is_Some (original_input c0)
  | None => c1 = new_cell r c text
  end.

(** The count of dependents is within the capacity of the array, and an
    array without capacity has no dependents. *)
Definition within_capacity (c : cell) : Prop :=
  ∀ l, dependents c = Some l →
       (length l ≤ dependents_capacity c)%nat ∧ (dependents_capacity c = 0%nat → l = []).

(** Every dependent is a cell of the table. *)
Definition dependents_in (D : gset cellptr) (c : cell) : Prop :=
  ∀ l d, dependents c = Some l → d ∈ l → d ∈ D.

(** The cell records the position it is stored at. *)
Definition placed (p : cellptr) (c : cell) : Prop := (row c, col c) = p.

(** The three together. *)
Definition edges_ok (D : gset cellptr) (p : cellptr) (c : cell) : Prop :=
  within_capacity c ∧ dependents_in D c ∧ placed p c.

(** The member of the union that the type of the cell selects is the
    one that was written. *)
Definition content_agrees (c : cell) : Prop :=
  match type c with
  | Some NUMBER => ∃ v, content c = number_value v
  | Some TEXT | Some ERROR => ∃ s, content c = text_value s
  | _ => True
  end.

(** A cell that clear_cell has not cleared has its content and its
    array of dependents. *)
Definition live_ok (c : cell) : Prop :=
  is_Some (original_input c) → content_agrees c ∧ is_Some (dependents c).

(** A cell between two calls: Number, Text or Error. *)
Definition settled (c : cell) : Prop :=
  type c ≠ None ∧ type c ≠ Some FORMULA ∧ live_ok c.

(** A cell while the formula of [current] is evaluated. *)
Definition evaluating (current : cellptr) (D : gset cellptr) (p : cellptr) (c : cell) : Prop :=
  type c ≠ None ∧ (p ≠ current → type c ≠ Some FORMULA) ∧ live_ok c.

(** [settled], as a property of the cells of a table. *)
Definition at_rest (D : gset cellptr) (p : cellptr) (c : cell) : Prop := settled c.

(** The dependents of [c0] are still dependents of [c], in their
    places. *)
Definition edges_kept (c0 c : cell) : Prop :=
  ∀ l0, dependents c0 = Some l0 → ∃ l, dependents c = Some l ∧ l0 `prefix_of` l.

(** The dependents that the cells of [m0] had are kept. *)
Definition grown (m0 : gmap (Z * Z) cell) (D : gset cellptr) (p : cellptr) (c : cell) : Prop :=
  within_capacity c ∧ ∀ c0, m0 !! p = Some c0 → edges_kept c0 c.

(** What get_textual_value, the formula and the position of a cell are
    taken from. *)
Definition same_text (c c' : cell) : Prop :=
  original_input c' = original_input c ∧ formula c' = formula c ∧
  row c' = row c ∧ col c' = col c.

(** The position that a token names: the column of its letter and the
    row atoi(token + 1) - 1, when that subtraction does not overflow. *)
Definition referenced `{Libc} (token : string) : option cellptr :=
  match int_sub (atoi (token_tail token)) 1 with
  | Done r => Some (r, token_head token - 65)
  | _ => None
  end.

(** ** Chains of the hash table *)

Section TableVocabulary.
Import Chained.
Context `{PlainChar}.

(** No character of the string is a comma. *)
Fixpoint comma_free (s : string) : Prop :=
  match s with
  | EmptyString => True
  | String a s' => a ≠ ","%char ∧ comma_free s'
  end.

(** [path h from l to]: the nodes linked in the heap [h] from [from] up
    to, and without, [to], with their addresses. *)
Inductive path (h : gmap addr node) : option addr → list (addr * node) → option addr → Prop :=
  | path_end o : path h o [] o
  | path_link a nd l o :
      h !! a = Some nd → path h (next nd) l o → path h (Some a) ((a, nd) :: l) o.

(** A chain ends with NULL. *)
Definition chain (h : gmap addr node) (first : option addr) (l : list (addr * node)) : Prop :=
  path h first l None.

(** The first node of the list with the key [k]. *)
Fixpoint lookup_key (k : string) (l : list (addr * node)) : option addr :=
  match l with
  | [] => None
  | (a, nd) :: l' => if String.eqb (key nd) k then Some a else lookup_key k l'
  end.

(** A node is where find_cell looks for it. *)
Record node_ok (i : nat) (nd : node) : Prop := {
  ok_row : is_int (row (value nd));
  ok_col : is_int (col (value nd));
  ok_key : key nd = key_text (row (value nd)) (col (value nd));
  ok_index : Z.to_nat (hash (key nd)) = i
}.

(** No address and no key occurs twice in the chain of index [i]. *)
Record chain_ok (i : nat) (l : list (addr * node)) : Prop := {
  ok_addrs : NoDup l.*1;
  ok_keys : NoDup (key <$> l.*2);
  ok_nodes : Forall (node_ok i) l.*2
}.

(** The array has HASH_SIZE entries, each the head of a chain without a
    cycle, in which no key occurs twice and every node has the key of
    its position and is in the chain of its key. *)
Definition table_ok (t : table) : Prop :=
  length (buckets t) = Z.to_nat HASH_SIZE ∧
  ∀ i first, buckets t !! i = Some first →
             ∃ l, chain (heap t) first l ∧ chain_ok i l.

(** The node at [a] is in a chain of the table. *)
Definition linked (t : table) (a : addr) (nd : node) : Prop :=
  ∃ i first l, buckets t !! i = Some first ∧ chain (heap t) first l ∧ (a, nd) ∈ l.

(** The index of the chain of a position. *)
Definition bucket_of (r c : Z) : nat := Z.to_nat (hash (key_text r c)).

(** The head [prev] and the list behind it, as the loop of free_cell has
    them when [current] is reached. *)
Definition walked (first prev current : option addr) (l1 : list (addr * node)) : Prop :=
  match prev with
  | None => l1 = [] ∧ current = first
  | Some p => ∃ l0 pn, l1 = (l0 ++ [(p, pn)])%list
  end.

End TableVocabulary.

(** * Proofs *)

Lemma wp_bind {A B : Type} (m : outcome A) (f : A → outcome B) (Q : B → Prop) :
  wp m (λ a, wp (f a) Q) → wp (m ≫= f) Q.
Proof. destruct m; simpl; auto. Qed.

Lemma wp_mono {A : Type} (m : outcome A) (P Q : A → Prop) :
  wp m P → (∀ a, P a → Q a) → wp m Q.
Proof. destruct m; simpl; auto. Qed.

Lemma wp_Done {A : Type} (m : outcome A) (Q : A → Prop) a :
  wp m Q → m = Done a → Q a.
Proof. intros Hw ->. exact Hw. Qed.

Lemma wp_deref {A : Type} (o : option A) (Q : A → Prop) :
  (∀ a, o = Some a → Q a) → wp (deref o) Q.
Proof. destruct o; simpl; auto. Qed.

Lemma wp_load st p (Q : cell → Prop) :
  (∀ c, spreadsheet st !! p = Some c → Q c) → wp (load st p) Q.
Proof. apply wp_deref. Qed.

Lemma bind_Done {A B : Type} (m : outcome A) (f : A → outcome B) b :
  m ≫= f = Done b → ∃ a, m = Done a ∧ f a = Done b.
Proof. destruct m; simpl; try discriminate. eauto. Qed.

Lemma size_remove_one (X : gset cellptr) (x : cellptr) :
  (size X ≤ S (size (X ∖ {[x]})))%nat.
Proof.
  rewrite size_difference_alt.
  assert (size (X ∩ {[x]}) ≤ 1)%nat.
  { rewrite <- (size_singleton (C := gset cellptr) x). apply subseteq_size. set_solver. }
  lia.
Qed.

Lemma potential_ge D lo : (size D ≤ potential D lo)%nat.
Proof.
  destruct lo as [l|]; simpl; [|lia].
  induction l as [|x l IH]; simpl.
  - replace (D ∖ ∅) with D by set_solver. lia.
  - replace (D ∖ ({[x]} ∪ list_to_set l)) with ((D ∖ list_to_set l) ∖ {[x]}) by set_solver.
    pose proof (size_remove_one (D ∖ list_to_set l) x). lia.
Qed.

Lemma potential_le D l : (potential D (Some l) ≤ length l + size D)%nat.
Proof.
  simpl. assert (size (D ∖ list_to_set l) ≤ size D)%nat; [|lia].
  apply subseteq_size. set_solver.
Qed.

Lemma potential_snoc D l x :
  x ∈ D → x ∉ l → potential D (Some (l ++ [x])%list) = potential D (Some l).
Proof.
  intros HD Hl. simpl. rewrite length_app. simpl.
  replace (D ∖ list_to_set (l ++ [x])) with ((D ∖ list_to_set l) ∖ {[x]}).
  2:{ rewrite list_to_set_app_L. set_solver. }
  rewrite size_difference.
  2:{ apply singleton_subseteq_l. apply elem_of_difference. split; [done|].
      rewrite elem_of_list_to_set. done. }
  rewrite size_singleton.
  assert (1 ≤ size (D ∖ list_to_set l))%nat; [|lia].
  rewrite <- (size_singleton (C := gset cellptr) x). apply subseteq_size.
  apply singleton_subseteq_l. apply elem_of_difference. split; [done|].
  rewrite elem_of_list_to_set. done.
Qed.

Lemma potential_single D x : x ∈ D → potential D (Some [x]) = size D.
Proof.
  intros HD. simpl.
  replace (D ∖ ({[x]} ∪ ∅)) with (D ∖ {[x]}) by set_solver.
  rewrite size_difference by set_solver. rewrite size_singleton.
  assert (1 ≤ size D)%nat; [|lia].
  rewrite <- (size_singleton (C := gset cellptr) x). apply subseteq_size. set_solver.
Qed.

Lemma cell_kept_refl D p c : cell_kept D p c c.
Proof. split; auto. Qed.

Lemma cell_kept_trans D p c1 c2 c3 :
  cell_kept D p c1 c2 → cell_kept D p c2 c3 → cell_kept D p c1 c3.
Proof.
  intros [] []. split; try congruence; auto. lia.
Qed.

Lemma cell_same_refl c : cell_same c c.
Proof. split; auto. Qed.

Lemma cell_same_trans c1 c2 c3 : cell_same c1 c2 → cell_same c2 c3 → cell_same c1 c3.
Proof.
  intros [H1 H2] [H3 H4]. split; [congruence|].
  intros Hv. destruct (H2 Hv) as [? ?].
  assert (state c2 = VISITING ∨ type c2 ≠ Some FORMULA) as Hv2
    by (destruct Hv; [left|right]; congruence).
  destruct (H4 Hv2) as [? ?]. split; congruence.
Qed.

Lemma frame_refl K m : frame K m m.
Proof.
  intros p. split; [done|]. intros c E.
  exists c. auto using cell_kept_refl, cell_same_refl.
Qed.

Lemma frame_lookup K m m' p c :
  frame K m m' → m !! p = Some c →
  ∃ c', m' !! p = Some c' ∧ cell_kept (dom m) p c c' ∧ (K p → cell_same c c').
Proof. intros Hf E. destruct (Hf p) as [_ Hs]. auto. Qed.

Lemma frame_lookup_None K m m' p : frame K m m' → m !! p = None → m' !! p = None.
Proof. intros Hf E. destruct (Hf p) as [Hn _]. auto. Qed.

Lemma frame_lookup_rev K m m' p c' :
  frame K m m' → m' !! p = Some c' →
  ∃ c, m !! p = Some c ∧ cell_kept (dom m) p c c' ∧ (K p → cell_same c c').
Proof.
  intros Hf E. destruct (m !! p) as [c|] eqn:E1.
  - destruct (frame_lookup _ _ _ _ _ Hf E1) as (c2 & E2 & ?).
    exists c. split; [done|]. congruence.
  - rewrite (frame_lookup_None _ _ _ _ Hf E1) in E. done.
Qed.

Lemma frame_dom K m m' : frame K m m' → dom m' = dom m.
Proof.
  intros Hf. apply set_eq. intros p. rewrite !elem_of_dom. split; intros [c E].
  - destruct (frame_lookup_rev _ _ _ _ _ Hf E) as (c0 & -> & _). eauto.
  - destruct (frame_lookup _ _ _ _ _ Hf E) as (c0 & -> & _). eauto.
Qed.

Lemma frame_trans K m1 m2 m3 : frame K m1 m2 → frame K m2 m3 → frame K m1 m3.
Proof.
  intros H12 H23 p. pose proof (frame_dom _ _ _ H12) as HD. split.
  - intros E. eauto using frame_lookup_None.
  - intros c1 E1.
    destruct (frame_lookup _ _ _ _ _ H12 E1) as (c2 & E2 & Hk & Hs).
    destruct (frame_lookup _ _ _ _ _ H23 E2) as (c3 & E3 & Hk' & Hs').
    rewrite HD in Hk'. exists c3. split; [done|].
    split; [eauto using cell_kept_trans|]. eauto using cell_same_trans.
Qed.

Lemma frame_weaken (K K' : cellptr → Prop) m m' :
  (∀ p, K' p → K p) → frame K m m' → frame K' m m'.
Proof.
  intros HK Hf p. split; [eauto using frame_lookup_None|].
  intros c E. destruct (frame_lookup _ _ _ _ _ Hf E) as (c' & ? & ? & ?).
  exists c'. auto.
Qed.

Lemma frame_insert K m p c c' :
  m !! p = Some c → cell_kept (dom m) p c c' → (K p → cell_same c c') →
  frame K m (<[p := c']> m).
Proof.
  intros E Hk Hs q. destruct (decide (q = p)) as [->|Hne].
  - split; [congruence|]. intros c0 E0. rewrite lookup_insert_eq.
    assert (c0 = c) as -> by congruence. eauto.
  - rewrite lookup_insert_ne by done. split; [done|]. intros c0 E0.
    exists c0. auto using cell_kept_refl, cell_same_refl.
Qed.

Lemma string_drop_length n s :
  String.length (string_drop n s) = (String.length s - n)%nat.
Proof.
  revert s. induction n as [|n IH]; intros [|a s]; simpl; auto; lia.
Qed.

Lemma span_token_rest delim a s :
  (String.length (span_token delim (String a s)).2 ≤ String.length s)%nat.
Proof.
  revert a. induction s as [|b s IH]; intros a; simpl.
  - destruct (Ascii.eqb a delim); simpl; lia.
  - destruct (Ascii.eqb a delim); simpl; [lia|].
    specialize (IH b). simpl in IH.
    destruct (Ascii.eqb b delim); simpl in *; [lia|].
    destruct (span_token delim s) as [t r]; simpl in *. lia.
Qed.

Lemma strtok_from_spec delim buf pos :
  match strtok_from delim buf pos with
  | (None, s) => remaining s = 0%nat
  | (Some _, s) => (remaining s < String.length buf - pos)%nat
  end.
Proof.
  unfold strtok_from, remaining.
  pose proof (string_drop_length (span_delim delim (string_drop pos buf))
                (string_drop pos buf)) as Hd.
  pose proof (string_drop_length pos buf) as Hp.
  destruct (string_drop _ (string_drop pos buf)) as [|a r] eqn:E.
  - simpl. lia.
  - pose proof (span_token_rest delim a r) as Hr.
    destruct (span_token delim (String a r)) as [t after]; simpl in *. lia.
Qed.

Lemma elem_of_unvisited m p :
  p ∈ unvisited m ↔ ∃ c, m !! p = Some c ∧ state c = UNVISITED.
Proof.
  unfold unvisited. rewrite elem_of_dom. split.
  - intros [c Hc]. apply map_lookup_filter_Some in Hc. naive_solver.
  - intros (c & Hc & Hs). exists c. apply map_lookup_filter_Some. done.
Qed.

Lemma unvisited_frame m m' : frame (λ _, True) m m' → unvisited m' = unvisited m.
Proof.
  intros Hf. apply set_eq. intros p. rewrite !elem_of_unvisited. split.
  - intros (c' & E' & Hs).
    destruct (frame_lookup_rev _ _ _ _ _ Hf E') as (c & E & _ & Hsame).
    destruct Hsame as [Hst _]; [done|]. exists c. split; congruence.
  - intros (c & E & Hs).
    destruct (frame_lookup _ _ _ _ _ Hf E) as (c' & E' & _ & Hsame).
    destruct Hsame as [Hst _]; [done|]. exists c'. split; congruence.
Qed.

Lemma unvisited_mark m p c :
  m !! p = Some c → state c = UNVISITED →
  (size (unvisited (<[p := set_state c VISITING]> m)) < size (unvisited m))%nat.
Proof.
  intros E Hs. apply subset_size. apply strict_spec_alt. split.
  - intros q. rewrite !elem_of_unvisited. intros (c' & E' & Hs').
    destruct (decide (q = p)) as [->|Hne].
    + rewrite lookup_insert_eq in E'. injection E' as <-. simpl in Hs'. done.
    + rewrite lookup_insert_ne in E' by done. eauto.
  - intros Heq. assert (p ∈ unvisited m) as Hin by (apply elem_of_unvisited; eauto).
    rewrite <- Heq in Hin. apply elem_of_unvisited in Hin as (c' & E' & Hs').
    rewrite lookup_insert_eq in E'. injection E' as <-. simpl in Hs'. done.
Qed.

Lemma cell_kept_set_state D p c s : cell_kept D p c (set_state c s).
Proof. split; auto. Qed.

Lemma cell_kept_set_value D p c t v : cell_kept D p c (set_content (set_type c t) v).
Proof. split; auto. Qed.

Lemma cell_kept_set_dependents D p c l cap :
  (potential D (Some l) ≤ potential D (dependents c))%nat →
  (nodups (dependents c) → NoDup l) →
  (self_free p c → p ∉ l) →
  cell_kept D p c (set_dependents c (Some l) cap).
Proof.
  intros Hp Hn Hs. split; auto.
  intros Hself l' Hl'. simpl in Hl'. injection Hl' as <-. auto.
Qed.

Lemma cell_same_set_dependents c l cap : cell_same c (set_dependents c l cap).
Proof. split; auto. Qed.

Lemma frame_besides m m' cur : frame everywhere m m' → frame (besides cur) m m'.
Proof. apply frame_weaken. done. Qed.

(** A frame that spares one cell is a frame everywhere when that cell
    was UNVISITED before and is UNVISITED after. *)
Lemma frame_restore st st' p c :
  mframe (besides p) st st' → spreadsheet st !! p = Some c → state c = UNVISITED →
  type c = Some FORMULA → unvisited_at st' p → mframe everywhere st st'.
Proof.
  intros Hf E Hs Hty (c' & E' & Hs') q. split; [eauto using frame_lookup_None|].
  intros c0 E0. destruct (frame_lookup _ _ _ _ _ Hf E0) as (c1 & E1 & Hk & Hsame).
  exists c1. split; [done|]. split; [done|]. intros _.
  destruct (decide (q = p)) as [->|Hne]; [|auto].
  assert (c0 = c) as -> by congruence. assert (c1 = c') as -> by congruence.
  split; [congruence|]. rewrite Hs. intros [Hv|Hv]; [done|]. congruence.
Qed.

Section EvalSpec.
Context `{Libc}.

Lemma wp_set_cell_state st p s (Q : model → Prop) :
  (∀ c, spreadsheet st !! p = Some c → Q (store st p (set_state c s))) →
  wp (set_cell_state st p s) Q.
Proof. intros HQ. unfold set_cell_state. apply wp_bind, wp_load. intros c E. apply HQ, E. Qed.

Lemma wp_set_error_and_update st p msg (Q : model → Prop) :
  (∀ c, spreadsheet st !! p = Some c →
        Q (update_cell_display (store st p (set_content (set_type c ERROR) (text_value msg)))
             (row c) (col c) msg)) →
  wp (set_error_and_update st p msg) Q.
Proof.
  intros HQ. unfold set_error_and_update. apply wp_bind, wp_load. intros c E.
  simpl. exact (HQ c E).
Qed.

Lemma wp_add_dependent st p dep (Q : model → Prop) :
  (∀ c l cap, spreadsheet st !! p = Some c →
      (dependents_capacity c = 0%nat ∧ l = [dep] ∨
       ∃ l0, dependents_capacity c ≠ 0%nat ∧ dependents c = Some l0 ∧ l = (l0 ++ [dep])%list) →
      Q (store st p (set_dependents c (Some l) cap))) →
  wp (add_dependent st p dep) Q.
Proof.
  intros HQ. unfold add_dependent. apply wp_bind, wp_load. intros c E.
  destruct (dependents_capacity c =? 0)%nat eqn:Ecap.
  - apply Nat.eqb_eq in Ecap. apply HQ; auto.
  - apply Nat.eqb_neq in Ecap. apply wp_bind, wp_deref. intros l El.
    apply HQ; eauto.
Qed.

Lemma isnan_NAN : isnan NAN = true.
Proof. reflexivity. Qed.

Lemma isnan_NAN_absurd (P : Prop) : isnan NAN = false → P.
Proof. rewrite isnan_NAN. discriminate. Qed.

Lemma wp_fail_with st cur c msg :
  spreadsheet st !! cur = Some c → wp (fail_with st cur msg) (turn_ok st cur).
Proof.
  intros E. unfold fail_with. apply wp_bind, wp_set_error_and_update. intros c0 E0.
  assert (c0 = c) as -> by congruence.
  apply wp_bind, wp_set_cell_state. intros c1 E1. simpl in E1.
  rewrite lookup_insert_eq in E1. injection E1 as <-.
  simpl. split; [|split; [|apply isnan_NAN]].
  - eapply frame_trans.
    + apply (frame_insert _ _ cur c); [done|apply cell_kept_set_value|].
      intros Hc. exfalso. apply Hc. done.
    + eapply frame_insert; [apply lookup_insert_eq|apply cell_kept_set_state|].
      intros Hc. exfalso. apply Hc. done.
  - eexists. split; [apply lookup_insert_eq|]. done.
Qed.

Variable d : nat.
Variable evaluate_sub : model → cellptr → option string → outcome (model * float).
Hypothesis evaluate_sub_ok : ∀ st target f c,
  spreadsheet st !! target = Some c → state c = UNVISITED →
  (size (unvisited (spreadsheet st)) ≤ d)%nat →
  wp (evaluate_sub st target f) (eval_post st target).

Lemma wp_accumulate st cur ccur target cl result result_str :
  spreadsheet st !! cur = Some ccur → state ccur = VISITING →
  spreadsheet st !! target = Some cl → state cl ≠ VISITING →
  (size (unvisited (spreadsheet st)) ≤ d)%nat →
  wp (accumulate evaluate_sub st cur target cl result result_str)
     (accumulate_ok st cur target).
Proof.
  intros Ecur Hvis Etgt Hnv Hsize. unfold accumulate, type_is.
  assert (state cl = UNVISITED) as Hun by (destruct (state cl); done).
  assert (target ≠ cur) as Hne by (intros ->; congruence).
  destruct (type cl) as [[]|] eqn:Ety; cbn.
  - (* NUMBER *)
    apply wp_bind. destruct (content cl); simpl; try done.
    split; [split; [apply frame_refl|auto]|].
    intros c' E' Ht. congruence.
  - (* TEXT *)
    apply wp_bind. destruct (content cl); simpl; try done.
    destruct result_str; simpl;
      (split; [split; [apply frame_refl|auto]|done]).
  - (* FORMULA *)
    apply wp_bind. eapply wp_mono; [apply (evaluate_sub_ok st target (formula cl) cl); done|].
    intros [st1 v] (Hf & Hu & Hnn); simpl in *.
    assert (mframe everywhere st st1) as Hall by eauto using frame_restore.
    destruct (isnan v) eqn:Env.
    + apply wp_bind, wp_set_cell_state. intros c1 E1. simpl.
      split; [|split; [|apply isnan_NAN]].
      * eapply frame_trans; [apply frame_besides, Hall|].
        eapply frame_insert; eauto using cell_kept_set_state.
        intros Hc. exfalso. apply Hc. done.
      * eexists. split; [apply lookup_insert_eq|]. done.
    + simpl. destruct (Hnn eq_refl) as [Hrem Hty].
      split; [split; [done|auto]|].
      intros c' E' Ht. destruct (Hty _ _ Etgt E') as [Hty' _]. congruence.
  - (* ERROR *)
    apply wp_bind. destruct (content cl); simpl; try done.
    destruct result_str; simpl;
      (split; [split; [apply frame_refl|auto]|done]).
  - split; [split; [apply frame_refl|auto]|].
    intros c' E' Ht. assert (c' = cl) as -> by congruence. congruence.
Qed.

Lemma wp_register_dependent st0 st cur ccur target result result_str :
  mframe everywhere st0 st →
  (strtok_save st = strtok_save st0 ∨ remaining (strtok_save st) = 0%nat) →
  spreadsheet st !! cur = Some ccur → target ≠ cur →
  (∀ c', spreadsheet st !! target = Some c' → type c' = Some ERROR → result_str ≠ None) →
  wp (register_dependent st cur target result result_str) (turn_ok st0 cur).
Proof.
  intros Hf0 Htok Ecur Hne Herr. unfold register_dependent.
  apply wp_bind, wp_load. intros cl Ecl.
  apply wp_bind, wp_deref. intros l El.
  assert (∀ st1 cl1, mframe everywhere st st1 → strtok_save st1 = strtok_save st →
            spreadsheet st1 !! target = Some cl1 → type cl1 = type cl →
            wp (if type_is cl1 ERROR then mret (Break st1 result result_str)
                else mret (Continue st1 result result_str)) (turn_ok st0 cur)) as Hend.
  { intros st1 cl1 Hf1 Hs1 E1 Hty. unfold type_is. case_bool_decide; simpl.
    - split; [eauto using frame_trans|]. apply (Herr cl); congruence.
    - split; [eauto using frame_trans|]. rewrite Hs1. done. }
  case_bool_decide as Hin; simpl.
  - apply wp_bind, wp_load. intros cl1 E1. assert (cl1 = cl) as -> by congruence.
    apply Hend; auto using frame_refl.
  - apply wp_bind, wp_add_dependent. intros c l' cap Ec Hl'.
    assert (c = cl) as -> by congruence.
    apply wp_bind, wp_load. intros cl1 E1. simpl in E1.
    rewrite lookup_insert_eq in E1. injection E1 as <-.
    apply Hend; simpl; [|done|apply lookup_insert_eq|done].
    eapply frame_insert; [done| |auto using cell_same_set_dependents].
    assert (cur ∈ dom (spreadsheet st)) as Hdom by (apply elem_of_dom; eauto).
    apply cell_kept_set_dependents.
    + destruct Hl' as [[_ ->]|(l0 & _ & El0 & ->)].
      * rewrite potential_single by done. apply potential_ge.
      * rewrite El0. rewrite potential_snoc; [done|done|]. congruence.
    + destruct Hl' as [[_ ->]|(l0 & _ & El0 & ->)].
      * intros _. apply NoDup_singleton.
      * rewrite El0. simpl. intros Hnd. apply NoDup_app. split; [done|].
        split; [|apply NoDup_singleton].
        intros x Hx Hx'. apply list_elem_of_singleton in Hx' as ->.
        apply Hin. congruence.
    + destruct Hl' as [[_ ->]|(l0 & _ & El0 & ->)].
      * intros _ Hx. apply list_elem_of_singleton in Hx. done.
      * intros Hself Hx. apply elem_of_app in Hx as [Hx|Hx].
        -- exact (Hself l0 El0 Hx).
        -- apply list_elem_of_singleton in Hx. done.
Qed.

Lemma wp_reference_turn st cur ccur result result_str token :
  spreadsheet st !! cur = Some ccur → state ccur = VISITING →
  (size (unvisited (spreadsheet st)) ≤ d)%nat →
  wp (reference_turn evaluate_sub st cur result result_str token) (turn_ok st cur).
Proof.
  intros Ecur Hvis Hsize. unfold reference_turn, find_cell.
  unfold int_sub. destruct (_ && _); simpl; [|done].
  set (target := (atoi (token_tail token) - 1, token_head token - 65)).
  destruct (spreadsheet st !! target) as [cl0|] eqn:Etgt; [|eauto using wp_fail_with].
  apply wp_bind, wp_load. intros cl Ecl. assert (cl0 = cl) as -> by congruence.
  case_bool_decide as Hst; [eauto using wp_fail_with|].
  assert (target ≠ cur) as Hne by (intros Heq; rewrite Heq in Ecl; congruence).
  apply wp_bind. eapply wp_mono; [eapply wp_accumulate; eauto|].
  intros [st1 r1 rs1| |st1 v]; simpl; [|done|done].
  intros [[Hf Htok] Herr].
  destruct (frame_lookup _ _ _ _ _ Hf Ecur) as (ccur1 & Ecur1 & _).
  eapply wp_register_dependent; eauto.
Qed.

Lemma wp_token_turn st cur ccur result result_str token :
  spreadsheet st !! cur = Some ccur → state ccur = VISITING →
  (size (unvisited (spreadsheet st)) ≤ d)%nat →
  wp (token_turn evaluate_sub st cur result result_str token) (turn_ok st cur).
Proof.
  intros Ecur Hvis Hsize. unfold token_turn.
  destruct (isalpha _); [eauto using wp_reference_turn|].
  unfold isdigit_of_pointer. done.
Qed.

Lemma call_strtok_next st :
  match call_strtok None st with
  | (None, st') => spreadsheet st' = spreadsheet st ∧ remaining (strtok_save st') = 0%nat
  | (Some _, st') =>
      spreadsheet st' = spreadsheet st ∧
      (remaining (strtok_save st') < remaining (strtok_save st))%nat
  end.
Proof.
  unfold call_strtok, strtok.
  pose proof (strtok_from_spec "+" (tok_buf (strtok_save st)) (tok_pos (strtok_save st))) as Hs.
  destruct (strtok_from _ _ _) as [[tok|] s]; simpl; auto.
Qed.

Lemma call_strtok_first st buf :
  match call_strtok (Some buf) st with
  | (None, st') => spreadsheet st' = spreadsheet st ∧ remaining (strtok_save st') = 0%nat
  | (Some _, st') =>
      spreadsheet st' = spreadsheet st ∧
      (remaining (strtok_save st') < String.length buf)%nat
  end.
Proof.
  unfold call_strtok, strtok.
  pose proof (strtok_from_spec "+" buf 0) as Hs.
  destruct (strtok_from _ _ _) as [[tok|] s]; simpl; [split; [done|lia]|auto].
Qed.

Lemma wp_token_loop n st cur ccur result result_str token :
  spreadsheet st !! cur = Some ccur → state ccur = VISITING →
  (size (unvisited (spreadsheet st)) ≤ d)%nat →
  match token with
  | Some _ => (remaining (strtok_save st) < n)%nat
  | None => remaining (strtok_save st) = 0%nat
  end →
  wp (token_loop evaluate_sub n st cur result result_str token) (scan_ok st cur).
Proof.
  revert st ccur result result_str token.
  induction n as [|n IH]; intros st ccur result result_str [[off tok]|] Ecur Hvis Hsize Hrem;
    simpl; try (split; [apply frame_refl|done]); [lia|].
  apply wp_bind. eapply wp_mono; [eapply wp_token_turn; eauto|].
  intros [st1 r1 rs1|st1 r1 rs1|st1 v]; simpl.
  - intros [Hf Htok].
    destruct (frame_lookup _ _ _ _ _ Hf Ecur) as (ccur1 & Ecur1 & _ & Hsame).
    destruct Hsame as [Hst1 _]; [done|].
    pose proof (call_strtok_next st1) as Hnext.
    destruct (call_strtok None st1) as [token1 st2].
    assert (spreadsheet st2 = spreadsheet st1) as Hsp by (destruct token1; tauto).
    eapply wp_mono.
    + eapply (IH st2 ccur1); rewrite ?Hsp; eauto; try congruence.
      * rewrite (unvisited_frame _ _ Hf). done.
      * destruct token1 as [[off1 tok1]|]; [|tauto].
        destruct Hnext as [_ Hlt]. destruct Htok as [Htok|Htok]; [rewrite Htok in Hlt|]; lia.
    + intros [st3 r3 rs3|st3 v3]; simpl; rewrite Hsp.
      * intros [Hf3 Hex]. split; eauto using frame_trans.
      * intros (Hf3 & Hu & Hn). split; [|done].
        eapply frame_trans; [apply frame_besides, Hf|done].
  - intros [Hf Hrs]. split; [done|]. intros ->. done.
  - auto.
Qed.

End EvalSpec.

Section EvalTotal.
Context `{Libc}.

Lemma wp_scan_formula d evaluate_sub st cur :
  (∀ st target f c,
      spreadsheet st !! target = Some c → state c = UNVISITED →
      (size (unvisited (spreadsheet st)) ≤ d)%nat →
      wp (evaluate_sub st target f) (eval_post st target)) →
  (∀ c, spreadsheet st !! cur = Some c →
        size (unvisited (<[cur := set_state c VISITING]> (spreadsheet st))) ≤ d)%nat →
  wp (scan_formula evaluate_sub st cur) (scan_post st cur).
Proof.
  intros Hsub Hsize. unfold scan_formula.
  apply wp_bind, wp_set_cell_state. intros c0 E0.
  apply wp_bind, wp_load. simpl. intros c1 E1.
  rewrite lookup_insert_eq in E1. injection E1 as <-.
  apply wp_bind, wp_deref. simpl. intros temp_formula Ef.
  set (st1 := store st cur (set_state c0 VISITING)).
  assert (mframe (besides cur) st st1) as Hf1.
  { eapply frame_insert; eauto using cell_kept_set_state.
    intros Hc. exfalso. apply Hc. done. }
  pose proof (call_strtok_first st1 temp_formula) as Hfirst.
  destruct (call_strtok (Some temp_formula) st1) as [token st2].
  assert (spreadsheet st2 = spreadsheet st1) as Hsp by (destruct token; tauto).
  eapply wp_mono.
  { eapply (wp_token_loop d evaluate_sub Hsub _ st2 cur (set_state c0 VISITING)).
    - rewrite Hsp. apply lookup_insert_eq.
    - done.
    - rewrite Hsp. simpl. auto.
    - destruct token; tauto. }
  intros [st3 result result_str|st3 v]; simpl; rewrite Hsp.
  - intros [Hf3 Hex].
    destruct (frame_lookup _ _ _ _ _ Hf3 (lookup_insert_eq _ _ _))
      as (c3 & E3 & _ & Hsame3).
    destruct Hsame3 as [_ Hty3]; [done|].
    destruct (Hty3 (or_introl eq_refl)) as [Hty Hct].
    simpl in Hty, Hct. exists c0, c3.
    split; [done|]. split; [done|]. split; [|auto].
    eapply frame_trans; [exact Hf1|]. apply frame_besides, Hf3.
  - intros (Hf3 & Hu & Hn). split; [|done].
    eapply frame_trans; [exact Hf1|done].
Qed.

Lemma wp_resolve st0 st cur c0 c result result_str :
  spreadsheet st0 !! cur = Some c0 → spreadsheet st !! cur = Some c →
  mframe (besides cur) st0 st → type c = type c0 → content c = content c0 →
  (result_str = None → remaining (strtok_save st) = 0%nat) →
  wp (resolve st cur result result_str) (eval_post st0 cur).
Proof.
  intros E0 E Hf Hty Hct Hex. unfold resolve.
  apply wp_bind, wp_set_cell_state. intros c3 E3. assert (c3 = c) as -> by congruence.
  set (st4 := store st cur (set_state c UNVISITED)).
  assert (mframe (besides cur) st0 st4) as Hf4.
  { eapply frame_trans; [exact Hf|].
    eapply frame_insert; eauto using cell_kept_set_state.
    intros Hc. exfalso. apply Hc. done. }
  destruct result_str as [s|].
  - destruct (negb (result =? 0)%float).
    + apply wp_bind, wp_set_error_and_update. intros c4 E4. simpl in E4.
      rewrite lookup_insert_eq in E4. injection E4 as <-. simpl.
      split; [|split; [|apply isnan_NAN_absurd]].
      * eapply frame_trans; [exact Hf4|].
        eapply frame_insert; [apply lookup_insert_eq|apply cell_kept_set_value|].
        intros Hc. exfalso. apply Hc. done.
      * eexists. split; [apply lookup_insert_eq|]. done.
    + apply wp_bind, wp_load. intros c4 E4. simpl in E4.
      rewrite lookup_insert_eq in E4. injection E4 as <-. simpl.
      split; [|split; [|apply isnan_NAN_absurd]].
      * eapply frame_trans; [exact Hf4|].
        eapply frame_insert; [apply lookup_insert_eq| |].
        -- split; auto.
        -- intros Hc. exfalso. apply Hc. done.
      * eexists. split; [apply lookup_insert_eq|]. done.
  - simpl. split; [done|]. split.
    + eexists. split; [apply lookup_insert_eq|]. done.
    + intros _. split; [auto|]. intros c1 c' Ec Ec'.
      unfold st4 in Ec'. simpl in Ec'. rewrite lookup_insert_eq in Ec'. injection Ec' as <-.
      assert (c1 = c0) as -> by congruence. simpl. split; congruence.
Qed.

Lemma wp_evaluate_formula_body d evaluate_sub st cur f :
  (∀ st target f c,
      spreadsheet st !! target = Some c → state c = UNVISITED →
      (size (unvisited (spreadsheet st)) ≤ d)%nat →
      wp (evaluate_sub st target f) (eval_post st target)) →
  (∀ c, spreadsheet st !! cur = Some c →
        size (unvisited (<[cur := set_state c VISITING]> (spreadsheet st))) ≤ d)%nat →
  wp (evaluate_formula_body evaluate_sub st cur f) (eval_post st cur).
Proof.
  intros Hsub Hsize. unfold evaluate_formula_body.
  apply wp_bind. eapply wp_mono; [eapply wp_scan_formula; eauto|].
  intros [st3 result result_str|st3 v]; simpl.
  - intros (c0 & c3 & E0 & E3 & Hf & Hty & Hct & Hex). eapply wp_resolve; eauto.
  - intros (Hf & Hu & Hn). split; [done|]. split; [done|].
    simpl. intros Hn'. congruence.
Qed.

Lemma wp_evaluate_formula_depth d st cur f :
  (∀ c, spreadsheet st !! cur = Some c →
        size (unvisited (<[cur := set_state c VISITING]> (spreadsheet st))) ≤ d)%nat →
  wp (evaluate_formula_depth (S d) st cur f) (eval_post st cur).
Proof.
  revert st cur f. induction d as [|d IH]; intros st cur f Hsize; simpl.
  - apply (wp_evaluate_formula_body 0); [|done].
    intros st0 target f0 c E Hs Hz. exfalso.
    assert (target ∈ unvisited (spreadsheet st0)) as Hin by (apply elem_of_unvisited; eauto).
    apply Nat.le_0_r in Hz. apply size_empty_iff in Hz.
    rewrite (leibniz_equiv _ _ Hz) in Hin. set_solver.
  - apply (wp_evaluate_formula_body (S d)); [|done].
    intros st0 target f0 c E Hs Hle. apply IH. intros c' E'.
    assert (c' = c) as -> by congruence.
    pose proof (unvisited_mark _ _ _ E Hs). lia.
Qed.

End EvalTotal.

Section EntryPoints.
Context `{Libc}.

Lemma unvisited_subseteq m : unvisited m ⊆ dom m.
Proof.
  intros p Hp. apply elem_of_unvisited in Hp as (c & E & _).
  apply elem_of_dom. eauto.
Qed.

Lemma wp_evaluate_formula st cur f :
  wp (evaluate_formula st cur f) (eval_post st cur).
Proof.
  unfold evaluate_formula. apply wp_evaluate_formula_depth. intros c E.
  etrans; [apply subseteq_size, unvisited_subseteq|].
  rewrite dom_insert_lookup_L by eauto. rewrite size_dom. done.
Qed.

Lemma frame_nowhere K m m' : frame K m m' → frame nowhere m m'.
Proof. apply frame_weaken. intros p []. Qed.

Lemma wp_update_dependencies_loop (Kc : Prop) n st cur i :
  (Kc → ∀ c, spreadsheet st !! cur = Some c → self_free cur c) →
  (∀ c l, spreadsheet st !! cur = Some c → dependents c = Some l →
          potential (dom (spreadsheet st)) (Some l) ≤ n + i)%nat →
  wp (update_dependencies_loop n st cur i) (λ st', mframe (only cur Kc) st st').
Proof.
  revert st i. induction n as [|n IH]; intros st i Hself Hpot.
  - simpl. apply wp_bind, wp_load. intros c E. apply wp_bind, wp_deref. intros l El.
    destruct (l !! i) as [dependent|] eqn:Ei; simpl; [|apply frame_refl].
    specialize (Hpot c l E El). apply lookup_lt_Some in Ei. simpl in Hpot. lia.
  - simpl. apply wp_bind, wp_load. intros c E. apply wp_bind, wp_deref. intros l El.
    destruct (l !! i) as [dependent|] eqn:Ei; simpl; [|apply frame_refl].
    specialize (Hpot c l E El).
    assert (∀ st1, mframe (only cur Kc) st st1 →
              wp (update_dependencies_loop n st1 cur (S i))
                 (λ st', mframe (only cur Kc) st st')) as Hnext.
    { intros st1 Hf1. eapply wp_mono.
      - apply IH.
        + intros HK c1 E1.
          destruct (frame_lookup_rev _ _ _ _ _ Hf1 E1) as (c0 & E0 & Hk & _).
          apply (kept_self _ _ _ _ Hk). eauto.
        + intros c1 l1 E1 El1.
          destruct (frame_lookup_rev _ _ _ _ _ Hf1 E1) as (c0 & E0 & Hk & _).
          assert (c0 = c) as -> by congruence.
          rewrite (frame_dom _ _ _ Hf1).
          pose proof (kept_potential _ _ _ _ Hk) as Hp.
          rewrite El1, El in Hp. lia.
      - intros st' Hf'. eauto using frame_trans. }
    case_bool_decide as Hdep.
    + apply wp_bind, wp_set_error_and_update. intros c0 E0. apply Hnext. simpl.
      eapply frame_insert; [done|apply cell_kept_set_value|].
      intros [HK _]. exfalso. subst dependent.
      apply (Hself HK c E l El). eapply list_elem_of_lookup_2. exact Ei.
    + assert (∀ q, only cur Kc q → q ≠ dependent) as Hother.
      { intros q [_ ->]. congruence. }
      apply wp_bind, wp_load. intros dep Edep.
      apply wp_bind. eapply wp_mono; [apply wp_evaluate_formula|].
      intros [st1 formula_result] (Hf1 & Hu & _). simpl in Hf1, Hu.
      apply (frame_weaken _ (only cur Kc)) in Hf1; [|exact Hother].
      destruct (isnan formula_result).
      * apply wp_bind, wp_load. intros dep1 Edep1.
        apply wp_bind.
        assert (wp (if type_is dep1 ERROR
                    then set_error_and_update st1 dependent "ERROR: incompatible types"
                    else mret st1) (λ st2, mframe (only cur Kc) st st2)) as Hst2.
        { destruct (type_is dep1 ERROR); simpl; [|done].
          apply wp_set_error_and_update. intros c1 E1. simpl.
          eapply frame_trans; [exact Hf1|].
          eapply frame_insert; [done|apply cell_kept_set_value|].
          intros HK. exfalso. exact (Hother _ HK eq_refl). }
        eapply wp_mono; [exact Hst2|]. intros st2 Hf2. simpl.
        apply wp_bind, wp_load. intros dep2 Edep2.
        apply wp_bind. destruct (content dep2); simpl; try done.
        apply Hnext. done.
      * apply wp_bind, wp_load. intros dep1 Edep1. apply Hnext. simpl.
        eapply frame_trans; [exact Hf1|].
        eapply frame_insert; [done|apply cell_kept_set_value|].
        intros HK. exfalso. exact (Hother _ HK eq_refl).
Qed.

Lemma wp_update_dependencies_only (Kc : Prop) st cur :
  (Kc → ∀ c, spreadsheet st !! cur = Some c → self_free cur c) →
  wp (update_dependencies st cur) (λ st', mframe (only cur Kc) st st').
Proof.
  intros Hself. unfold update_dependencies. apply wp_bind, wp_load. intros c E.
  apply wp_bind, wp_deref. intros l El.
  apply wp_update_dependencies_loop; [done|]. intros c0 l0 E0 El0.
  assert (l0 = l) as -> by congruence.
  rewrite Nat.add_0_r, <- size_dom. apply potential_le.
Qed.

Lemma wp_update_dependencies st cur :
  wp (update_dependencies st cur) (λ st', mframe nowhere st st').
Proof.
  eapply wp_mono; [apply (wp_update_dependencies_only False); tauto|].
  intros st'. apply frame_weaken. intros p [].
Qed.

(** update_dependencies leaves the changed cell as it is, when that
    cell does not list itself and is no FORMULA. *)
Lemma wp_update_dependencies_keeps st cur c :
  spreadsheet st !! cur = Some c → self_free cur c → type c ≠ Some FORMULA →
  wp (update_dependencies st cur)
     (λ st', ∃ c', spreadsheet st' !! cur = Some c' ∧ state c' = state c ∧
                   type c' = type c ∧ content c' = content c).
Proof.
  intros E Hself Hty.
  eapply wp_mono; [apply (wp_update_dependencies_only True)|].
  - intros _ c0 E0. assert (c0 = c) as -> by congruence. done.
  - intros st' Hf. destruct (frame_lookup _ _ _ _ _ Hf E) as (c' & E' & _ & Hsame).
    destruct Hsame as [Hst Hval]; [done|]. destruct Hval as [? ?]; [auto|]. eauto.
Qed.

Lemma cell_kept_set_computed_value D p c v : cell_kept D p c (set_computed_value c v).
Proof. split; auto. Qed.

Lemma frame_insert_nowhere m p c c' :
  m !! p = Some c → cell_kept (dom m) p c c' → frame nowhere m (<[p := c']> m).
Proof. intros E Hk. eapply frame_insert; [done|done|intros []]. Qed.

Lemma wp_renew_cell st r c text :
  wp (renew_cell st r c text)
     (λ p, p.2 = (r, c) ∧
           ∃ c1, spreadsheet p.1 = <[(r, c) := c1]> (spreadsheet st) ∧
                 strtok_save p.1 = strtok_save st ∧ display p.1 = display st ∧
                 original_input c1 = Some text ∧
                 dependents c1 = match spreadsheet st !! (r, c) with
                                 | Some c0 => dependents c0
                                 | None => Some []
                                 end).
Proof.
  unfold renew_cell, find_cell.
  destruct (spreadsheet st !! (r, c)) as [c0|] eqn:E0; simpl.
  - unfold load. rewrite E0. simpl. apply wp_bind, wp_deref. intros input Hin.
    apply wp_bind.
    assert (∀ cur2, original_input cur2 = Some text → dependents cur2 = dependents c0 →
              wp (mret (store st (r, c) cur2, (r, c)) : outcome (model * cellptr))
                 (λ p, p.2 = (r, c) ∧
                       ∃ c1, spreadsheet p.1 = <[(r, c) := c1]> (spreadsheet st) ∧
                             strtok_save p.1 = strtok_save st ∧ display p.1 = display st ∧
                             original_input c1 = Some text ∧
                             dependents c1 = dependents c0)) as Hret.
    { intros cur2 Hi Hd. simpl. split; [done|]. exists cur2. auto. }
    unfold type_is; simpl.
    destruct (type c0) as [[]|]; cbn.
    + apply Hret; done.
    + apply wp_bind. destruct (content c0); simpl; try done. apply Hret; done.
    + apply wp_bind, wp_deref. intros f Hf. apply Hret; done.
    + apply wp_bind. destruct (content c0); simpl; try done. apply Hret; done.
    + apply Hret; done.
  - split; [done|]. eexists. split; [reflexivity|]. done.
Qed.

Lemma wp_set_cell_value st r c text :
  wp (set_cell_value st r c text) (set_cell_value_post st r c text).
Proof.
  unfold set_cell_value. apply wp_bind.
  eapply wp_mono; [apply wp_renew_cell|].
  intros [st1 current] (Hcur & c1 & Hsp & _ & _ & Hin & Hdep).
  simpl in Hcur, Hsp. subst current.
  assert (spreadsheet st1 !! (r, c) = Some c1) as E1 by (rewrite Hsp; apply lookup_insert_eq).
  case_bool_decide as Hformula.
  - apply wp_bind, wp_load. intros cur Ecur. assert (cur = c1) as -> by congruence.
    set (c2 := declare_formula c1 text).
    set (st2 := store st1 (r, c) c2).
    assert (spreadsheet st2 = <[(r, c) := c2]> (spreadsheet st)) as Hsp2.
    { simpl. rewrite Hsp. apply insert_insert_eq. }
    assert (∀ st', mframe nowhere st2 st' → set_cell_value_post st r c text st') as Hpost.
    { intros st' Hf. exists c2. rewrite <- Hsp2. auto. }
    apply wp_bind. eapply wp_mono; [apply wp_evaluate_formula|].
    intros [st3 formula_result] (Hf3 & _ & _). simpl in Hf3. apply frame_nowhere in Hf3.
    destruct (isnan formula_result).
    + apply wp_bind, wp_load. intros cur3 E3.
      destruct (type_is cur3 FORMULA).
      * apply wp_bind, wp_deref. intros input Hinput. simpl. apply Hpost. simpl.
        eapply frame_trans; [exact Hf3|].
        apply frame_insert_nowhere with cur3; auto using cell_kept_set_value.
      * apply wp_bind. destruct (content cur3); simpl; try done. apply Hpost. done.
    + apply wp_bind, wp_load. intros cur3 E3.
      eapply wp_mono; [apply wp_update_dependencies|]. simpl.
      intros st' Hf'. apply Hpost.
      eapply frame_trans; [exact Hf3|]. eapply frame_trans; [|exact Hf'].
      apply frame_insert_nowhere with cur3; [done|].
      eapply cell_kept_trans; [apply cell_kept_set_computed_value|].
      apply (cell_kept_set_value _ _ (set_computed_value cur3 formula_result)).
  - apply wp_bind, wp_load. intros cur Ecur. assert (cur = c1) as -> by congruence.
    destruct (strtod text) as [number rest].
    eapply wp_mono; [apply wp_update_dependencies|]. simpl.
    intros st' Hf'. exists c1. split; [done|]. split; [done|].
    rewrite <- Hsp. eapply frame_trans; [|exact Hf'].
    apply frame_insert_nowhere with c1; [done|].
    destruct (bool_decide (rest = "")); apply cell_kept_set_value.
Qed.

Lemma wp_get_textual_value_after_set st r c text :
  wp (set_cell_value st r c text)
     (λ st', get_textual_value st' r c = Done (Some text)).
Proof.
  eapply wp_mono; [apply wp_set_cell_value|].
  intros st' (c1 & Hin & _ & Hf).
  destruct (frame_lookup _ _ _ _ _ Hf (lookup_insert_eq _ _ _)) as (c' & E' & Hk & _).
  unfold get_textual_value, find_cell. rewrite E'. simpl. unfold load. rewrite E'. simpl.
  destruct Hk as [_ _ Hi _ _ _]. rewrite Hi, Hin. done.
Qed.

End EntryPoints.

(** * The claims *)

Section Claims.
Context `{Libc}.

Lemma wp_evaluate_formula_sub d st target f c :
  spreadsheet st !! target = Some c → state c = UNVISITED →
  (size (unvisited (spreadsheet st)) ≤ d)%nat →
  wp (evaluate_formula_depth d st target f) (eval_post st target).
Proof.
  intros E Hs Hle. destruct d as [|d].
  - exfalso.
    assert (target ∈ unvisited (spreadsheet st)) as Hin by (apply elem_of_unvisited; eauto).
    apply Nat.le_0_r in Hle. apply size_empty_iff in Hle.
    rewrite (leibniz_equiv _ _ Hle) in Hin. set_solver.
  - apply wp_evaluate_formula_depth. intros c' E'.
    assert (c' = c) as -> by congruence.
    pose proof (unvisited_mark _ _ _ E Hs). lia.
Qed.

Lemma not_OutOfFuel {A : Type} (m : outcome A) (Q : A → Prop) : wp m Q → m ≠ OutOfFuel.
Proof. destruct m; simpl; [discriminate|discriminate|tauto]. Qed.

Lemma visit_state_unvisited st p : unvisited_at st p → visit_state st p = Some UNVISITED.
Proof. intros (c & E & Hs). unfold visit_state. rewrite E. simpl. congruence. Qed.

Lemma visit_state_frame K st st' p :
  mframe K st st' → K p → visit_state st' p = visit_state st p.
Proof.
  intros Hf HK. unfold visit_state.
  destruct (spreadsheet st !! p) as [c|] eqn:E.
  - destruct (frame_lookup _ _ _ _ _ Hf E) as (c' & -> & _ & Hsame).
    destruct (Hsame HK) as [Hst _]. simpl. congruence.
  - rewrite (frame_lookup_None _ _ _ _ Hf E). done.
Qed.

(** ** Visit marks *)

(** C4.  For every state, cell and formula argument, a top-level call
    of evaluate_formula terminates (the counter of the embedding is
    never exhausted), and when it returns, whatever the returned value
    (a number, or NaN after an error, a cycle or a text result), the
    evaluated cell is UNVISITED; the marks of all other cells are what
    they were before the call. *)
Theorem evaluate_formula_restores_visit_state st current f :
  evaluate_formula st current f ≠ OutOfFuel ∧
  ∀ st' v, evaluate_formula st current f = Done (st', v) →
    visit_state st' current = Some UNVISITED ∧
    ∀ p, p ≠ current → visit_state st' p = visit_state st p.
Proof.
  pose proof (wp_evaluate_formula st current f) as Hwp.
  split; [eauto using not_OutOfFuel|].
  intros st' v Heq. destruct (wp_Done _ _ _ Hwp Heq) as (Hf & Hu & _). simpl in *.
  split; [auto using visit_state_unvisited|].
  intros p Hp. eapply visit_state_frame; eauto.
Qed.

(** ** Round trip *)

(** C5.  For every state, position and text, set_cell_value terminates,
    and when it returns, get_textual_value at that position returns
    exactly the text, whether the text was taken as a number, a text or
    a formula and whether its evaluation ended in an error.  Texts are
    the contents of C strings. *)
Theorem get_textual_value_after_set_cell_value st r c text :
  set_cell_value st r c text ≠ OutOfFuel ∧
  ∀ st', set_cell_value st r c text = Done st' →
         get_textual_value st' r c = Done (Some text).
Proof.
  pose proof (wp_get_textual_value_after_set st r c text) as Hwp.
  split; [eauto using not_OutOfFuel|].
  intros st' Heq. exact (wp_Done _ _ _ Hwp Heq).
Qed.

(** ** Self reference during propagation *)

(** C9.  When the loop of update_dependencies meets, at index [i] of
    the dependents of the changed cell, the changed cell itself, it
    marks that cell ERROR with the message "ERROR: circular dependency"
    (the message the code gives a self reference), notifies the display,
    and goes on with index [i + 1]: the formula is not evaluated, and
    nothing else of the state changes. *)
Theorem self_reference_is_flagged_and_skipped n st current cur l i :
  spreadsheet st !! current = Some cur → dependents cur = Some l → l !! i = Some current →
  update_dependencies_loop (S n) st current i
  = update_dependencies_loop n (flag_self_reference st current cur) current (S i).
Proof.
  intros E El Ei. simpl. unfold load. rewrite E. simpl. rewrite El. simpl. rewrite Ei.
  rewrite bool_decide_eq_true_2 by done.
  unfold set_error_and_update, load. rewrite E. reflexivity.
Qed.

(** ** clear_cell *)

Lemma clear_cell_absent st r c : find_cell st r c = None → clear_cell st r c = Fault.
Proof. intros E. unfold clear_cell. rewrite E. reflexivity. Qed.

Ltac clear_cell_tail Hd Hin :=
  unfold set_content, set_formula; simpl;
  let Ecap := fresh "Ecap" in
  destruct (dependents_capacity _ =? 0)%nat eqn:Ecap; simpl;
  [rewrite Hin; simpl; eauto
  |apply Nat.eqb_neq in Ecap; destruct (Hd Ecap) as [? ->]; simpl;
   rewrite Hin; simpl; eauto].

Lemma clear_cell_present st r c cl :
  spreadsheet st !! (r, c) = Some cl → buffers_live cl → ∃ st', clear_cell st r c = Done st'.
Proof.
  intros E (Hf & Ht & Hd & [input Hin]). unfold clear_cell, find_cell, load. rewrite E. simpl.
  rewrite E. simpl. unfold type_is.
  destruct (type cl) as [[]|] eqn:Ety; cbn.
  - clear_cell_tail Hd Hin.
  - destruct Ht as [s ->]; [auto|]. simpl. clear_cell_tail Hd Hin.
  - destruct Hf as [f ->]; [auto|]. simpl. clear_cell_tail Hd Hin.
  - destruct Ht as [s ->]; [auto|]. simpl. clear_cell_tail Hd Hin.
  - clear_cell_tail Hd Hin.
Qed.

Lemma wp_clear_cell st r c :
  wp (clear_cell st r c)
     (λ st', ∃ cl cl', spreadsheet st !! (r, c) = Some cl ∧
                       spreadsheet st' = <[(r, c) := cl']> (spreadsheet st) ∧
                       (dependents cl' = dependents cl ∨ dependents cl' = None)).
Proof.
  unfold clear_cell, find_cell.
  destruct (spreadsheet st !! (r, c)) as [cl|] eqn:E; simpl; [|done].
  apply wp_bind, wp_load. intros cl0 E0. assert (cl0 = cl) as -> by congruence.
  apply wp_bind.
  apply wp_mono with (P := λ cur1, dependents cur1 = dependents cl ∧
                                   dependents_capacity cur1 = dependents_capacity cl).
  { destruct (type_is cl FORMULA).
    - apply wp_bind, wp_deref. intros f Hf. simpl. done.
    - destruct (type_is cl TEXT || type_is cl ERROR).
      + apply wp_bind. destruct (content cl); simpl; done.
      + simpl. done. }
  intros cur1 [Hd1 Hc1]. apply wp_bind.
  apply wp_mono with (P := λ cur2, dependents cur2 = dependents cl ∨ dependents cur2 = None).
  { destruct (dependents_capacity cur1 =? 0)%nat; simpl; [auto|].
    apply wp_bind, wp_deref. intros l Hl. simpl. auto. }
  intros cur2 Hd2. apply wp_bind, wp_deref. intros input Hin. simpl.
  exists cl, (set_original_input cur2 None). auto.
Qed.

Lemma set_cell_value_dom st r c text st' :
  set_cell_value st r c text = Done st' →
  dom (spreadsheet st') = {[(r, c)]} ∪ dom (spreadsheet st).
Proof.
  intros Heq. destruct (wp_Done _ _ _ (wp_set_cell_value st r c text) Heq) as (c1 & _ & _ & Hf).
  rewrite (frame_dom _ _ _ Hf). apply dom_insert_L.
Qed.

Lemma reached_dom ps st p :
  reached ps st → p ∈ dom (spreadsheet st) → p ∈ ps.
Proof.
  induction 1 as [|ps st r c text st' Hr IH Heq|ps st r c st' Hr IH Heq]; intros Hp.
  - simpl in Hp. set_solver.
  - rewrite (set_cell_value_dom _ _ _ _ _ Heq) in Hp.
    apply elem_of_union in Hp as [Hp|Hp]; [|right; auto].
    apply elem_of_singleton in Hp as ->. left.
  - destruct (wp_Done _ _ _ (wp_clear_cell st r c) Heq) as (cl & cl' & E & Hsp & _).
    rewrite Hsp, dom_insert_lookup_L in Hp by eauto. auto.
Qed.

Lemma reached_set_cells ps st calls st' :
  reached ps st → set_cells st calls = Done st' →
  reached (reverse (map fst calls) ++ ps) st'.
Proof.
  revert ps st. induction calls as [|[[r c] text] calls IH]; intros ps st Hr Heq; simpl in *.
  - injection Heq as <-. done.
  - apply bind_Done in Heq as (st1 & Hset & Hrest).
    rewrite reverse_cons, <- app_assoc. simpl.
    eapply IH; [|exact Hrest]. eapply reached_set; eauto.
Qed.

(** C10.  clear_cell dereferences what find_cell returns without a test
    against NULL.  In every state the interface reaches: at a position
    that set_cell_value was never called on, find_cell returns NULL and
    clear_cell faults on it; clear_cell returns only at a position
    where a cell exists; and where a cell exists whose buffers are
    there to be freed, clear_cell does return. *)
Theorem clear_cell_requires_a_cell ps st r c :
  reached ps st →
  ((r, c) ∉ ps → find_cell st r c = None ∧ clear_cell st r c = Fault) ∧
  (∀ st', clear_cell st r c = Done st' → find_cell st r c = Some (r, c) ∧ (r, c) ∈ ps) ∧
  (∀ cl, spreadsheet st !! (r, c) = Some cl → buffers_live cl →
         ∃ st', clear_cell st r c = Done st').
Proof.
  intros Hr.
  assert (∀ cl, spreadsheet st !! (r, c) = Some cl → (r, c) ∈ ps) as Hin.
  { intros cl E. apply (reached_dom _ _ _ Hr). apply elem_of_dom. eauto. }
  split; [|split].
  - intros Hps. assert (find_cell st r c = None) as Hnone.
    { unfold find_cell. destruct (spreadsheet st !! (r, c)) eqn:E; [|done].
      exfalso. eauto. }
    split; [done|]. by apply clear_cell_absent.
  - intros st' Heq. unfold find_cell.
    destruct (spreadsheet st !! (r, c)) as [cl|] eqn:E; [eauto|].
    rewrite clear_cell_absent in Heq; [done|]. unfold find_cell. by rewrite E.
  - eauto using clear_cell_present.
Qed.

(** ** Dependency registration *)

Lemma set_cell_value_distinct st r c text st' :
  dependents_distinct st → set_cell_value st r c text = Done st' → dependents_distinct st'.
Proof.
  intros Hinv Heq p cl' E'.
  destruct (wp_Done _ _ _ (wp_set_cell_value st r c text) Heq) as (c1 & _ & Hdeps & Hf).
  destruct (frame_lookup_rev _ _ _ _ _ Hf E') as (cl & E & Hk & _).
  apply (kept_nodup _ _ _ _ Hk).
  destruct (decide (p = (r, c))) as [->|Hne].
  - rewrite lookup_insert_eq in E. injection E as <-. rewrite Hdeps.
    destruct (spreadsheet st !! (r, c)) as [c0|] eqn:E0; [eauto|]. apply NoDup_nil_2.
  - rewrite lookup_insert_ne in E by done. eauto.
Qed.

Lemma clear_cell_distinct st r c st' :
  dependents_distinct st → clear_cell st r c = Done st' → dependents_distinct st'.
Proof.
  intros Hinv Heq p cl' E'.
  destruct (wp_Done _ _ _ (wp_clear_cell st r c) Heq) as (cl & cl1 & E & Hsp & Hd).
  rewrite Hsp in E'. destruct (decide (p = (r, c))) as [->|Hne].
  - rewrite lookup_insert_eq in E'. injection E' as <-.
    destruct Hd as [-> | ->]; [eauto|done].
  - rewrite lookup_insert_ne in E' by done. eauto.
Qed.

Lemma reached_distinct ps st : reached ps st → dependents_distinct st.
Proof.
  induction 1; eauto using set_cell_value_distinct, clear_cell_distinct.
  intros p cl E. simpl in E. rewrite lookup_empty in E. done.
Qed.

Lemma set_cell_value_self_free st r c text st' :
  (∀ p, ¬ lists_itself st p) → set_cell_value st r c text = Done st' →
  ∀ p, ¬ lists_itself st' p.
Proof.
  intros Hinv Heq p (cl' & l' & E' & El' & Hin').
  destruct (wp_Done _ _ _ (wp_set_cell_value st r c text) Heq) as (c1 & _ & Hdeps & Hf).
  destruct (frame_lookup_rev _ _ _ _ _ Hf E') as (cl & E & Hk & _).
  apply (kept_self _ _ _ _ Hk) in El'; [done|]. intros l El Hin.
  destruct (decide (p = (r, c))) as [->|Hne].
  - rewrite lookup_insert_eq in E. injection E as <-. rewrite Hdeps in El.
    destruct (spreadsheet st !! (r, c)) as [c0|] eqn:E0.
    + apply (Hinv (r, c)). exists c0, l. auto.
    + injection El as <-. by apply not_elem_of_nil in Hin.
  - rewrite lookup_insert_ne in E by done. apply (Hinv p). exists cl, l. auto.
Qed.

Lemma clear_cell_self_free st r c st' :
  (∀ p, ¬ lists_itself st p) → clear_cell st r c = Done st' →
  ∀ p, ¬ lists_itself st' p.
Proof.
  intros Hinv Heq p (cl' & l' & E' & El' & Hin').
  destruct (wp_Done _ _ _ (wp_clear_cell st r c) Heq) as (cl & cl1 & E & Hsp & Hd).
  rewrite Hsp in E'. destruct (decide (p = (r, c))) as [->|Hne].
  - rewrite lookup_insert_eq in E'. injection E' as <-.
    destruct Hd as [Hd|Hd]; [|congruence].
    apply (Hinv (r, c)). exists cl, l'. rewrite <- Hd. auto.
  - rewrite lookup_insert_ne in E' by done. apply (Hinv p). exists cl', l'. auto.
Qed.

(** No cell of a reached state is its own dependent: evaluate_formula
    rejects a reference to the cell under evaluation before it
    registers anything. *)
Lemma reached_self_free ps st : reached ps st → ∀ p, ¬ lists_itself st p.
Proof.
  induction 1; eauto using set_cell_value_self_free, clear_cell_self_free.
  intros p (cl & l & E & _). simpl in E. rewrite lookup_empty in E. done.
Qed.

(** C7.  In every state the interface reaches, no cell's dependents
    list holds the same cell twice: evaluate_formula registers the
    evaluated cell with a referenced cell only when the list of that
    cell does not hold it yet. *)
Theorem dependents_never_repeat ps st p cl l :
  reached ps st → spreadsheet st !! p = Some cl → dependents cl = Some l → NoDup l.
Proof.
  intros Hr E El. pose proof (reached_distinct _ _ Hr p cl E) as Hnd.
  rewrite El in Hnd. exact Hnd.
Qed.

(** ** Resolution *)

Lemma evaluate_formula_unfold st current f :
  evaluate_formula st current f
  = s ← formula_scan st current;
    match s with
    | Returned st1 v => mret (st1, v)
    | Scanned st1 result result_str => resolve st1 current result result_str
    end.
Proof. reflexivity. Qed.

Lemma wp_formula_scan st current : wp (formula_scan st current) (scan_post st current).
Proof.
  unfold formula_scan. eapply wp_scan_formula.
  - intros st0 target f c E Hs Hle. eapply wp_evaluate_formula_sub; eauto.
  - intros c E. etrans; [apply subseteq_size, unvisited_subseteq|].
    rewrite dom_insert_lookup_L by eauto. rewrite size_dom. done.
Qed.

Lemma last_shown_snoc log r c text : last_shown (log ++ [(r, c, text)]) r c = Some text.
Proof.
  induction log as [|[[r' c'] t'] log IH]; simpl.
  - rewrite bool_decide_eq_true_2 by done. done.
  - rewrite IH. done.
Qed.

Ltac run_cell := repeat first [progress simpl | rewrite lookup_insert_eq].
Ltac show_cell :=
  split;
  [unfold visit_state; simpl; rewrite lookup_insert_eq; done
  |unfold view, displayed, kind_of; simpl; rewrite lookup_insert_eq, last_shown_snoc; done].

(** The end of evaluate_formula after a complete scan, whoever called
    it. *)
Lemma resolution_in_evaluate_formula st current f st1 result result_str :
  formula_scan st current = Done (Scanned st1 result result_str) →
  ∃ st' v, evaluate_formula st current f = Done (st', v) ∧
           visit_state st' current = Some UNVISITED ∧
           match result_str with
           | Some s =>
               isnan v = true ∧
               kind_of st' current.1 current.2
               = Some (if (result =? 0)%float then (Some TEXT, text_value s)
                       else (Some ERROR, text_value "ERROR: incompatible types"))
           | None =>
               v = result ∧ kind_of st' current.1 current.2 = kind_of st current.1 current.2
           end.
Proof.
  intros Hscan.
  destruct (wp_Done _ _ _ (wp_formula_scan _ _) Hscan)
    as (c0 & c3 & E0 & E3 & Hf & Hty & Hct & _).
  destruct current as [r c].
  rewrite evaluate_formula_unfold, Hscan. simpl.
  unfold resolve, set_cell_state, load. rewrite E3. simpl.
  destruct result_str as [s|].
  - destruct (result =? 0)%float; simpl.
    + rewrite lookup_insert_eq. simpl. eexists _, _. split; [reflexivity|].
      unfold visit_state, kind_of. simpl. rewrite lookup_insert_eq. done.
    + unfold set_error_and_update, load. simpl. rewrite lookup_insert_eq. simpl.
      eexists _, _. split; [reflexivity|].
      unfold visit_state, kind_of. simpl. rewrite lookup_insert_eq. done.
  - simpl. eexists _, _. split; [reflexivity|].
    unfold visit_state, kind_of. simpl. rewrite lookup_insert_eq, E0. simpl.
    rewrite Hty, Hct. done.
Qed.

(** The evaluation that set_cell_value starts on the cell it sets. *)
Lemma resolution_in_set_cell_value st r c text st1 cur st3 result result_str :
  token_head text = 61 →
  renew_cell st r c text = Done (st1, (r, c)) →
  load st1 (r, c) = Done cur →
  formula_scan (store st1 (r, c) (declare_formula cur text)) (r, c)
  = Done (Scanned st3 result result_str) →
  match result_str with
  | Some s =>
      ∃ st', set_cell_value st r c text = Done st' ∧
             visit_state st' (r, c) = Some UNVISITED ∧
             view st' r c = if (result =? 0)%float then is_text s
                            else is_error "ERROR: incompatible types"
  | None =>
      if isnan result then
        ∃ st', set_cell_value st r c text = Done st' ∧
               visit_state st' (r, c) = Some UNVISITED ∧
               view st' r c = is_error text
      else
        ∃ st4, set_cell_value st r c text = update_dependencies st4 (r, c) ∧
               visit_state st4 (r, c) = Some UNVISITED ∧
               view st4 r c = is_number result (snprintf_1f result) ∧
               (¬ lists_itself st (r, c) →
                ∀ st', update_dependencies st4 (r, c) = Done st' →
                       visit_state st' (r, c) = Some UNVISITED ∧
                       kind_of st' r c = Some (Some NUMBER, number_value result))
  end.
Proof.
  intros Hhead Hrenew Hload Hscan.
  destruct (wp_Done _ _ _ (wp_renew_cell st r c text) Hrenew)
    as (_ & c1 & Hsp1 & _ & _ & Hin1 & Hdep1). simpl in Hsp1.
  assert (cur = c1) as ->.
  { unfold load in Hload. rewrite Hsp1, lookup_insert_eq in Hload. simpl in Hload. congruence. }
  destruct (wp_Done _ _ _ (wp_formula_scan _ _) Hscan)
    as (c0 & c3 & E0 & E3 & Hf & Hty & Hct & _).
  simpl in E0. rewrite lookup_insert_eq in E0. injection E0 as <-.
  destruct (frame_lookup_rev _ _ _ _ _ Hf E3) as (c0 & E0 & Hk & _).
  simpl in E0. rewrite lookup_insert_eq in E0. injection E0 as <-.
  assert (original_input c3 = Some text) as Hin3.
  { rewrite (kept_input _ _ _ _ Hk). simpl. done. }
  simpl in Hty.
  unfold set_cell_value. rewrite Hrenew. simpl.
  rewrite bool_decide_eq_true_2 by done. rewrite Hload. simpl.
  rewrite evaluate_formula_unfold, Hscan. simpl.
  unfold resolve, set_cell_state, load. rewrite E3. simpl.
  destruct result_str as [s|].
  - destruct (result =? 0)%float; simpl.
    + run_cell. eexists. split; [reflexivity|]. show_cell.
    + unfold set_error_and_update, load. run_cell.
      eexists. split; [reflexivity|]. show_cell.
  - simpl. destruct (isnan result) eqn:Enan; simpl.
    + run_cell. unfold type_is. simpl. rewrite Hty, bool_decide_eq_true_2 by done.
      rewrite Hin3. simpl. eexists. split; [reflexivity|]. show_cell.
    + run_cell. eexists. split; [reflexivity|].
      split; [unfold visit_state; simpl; rewrite lookup_insert_eq; done|].
      split; [unfold view, displayed, kind_of; simpl;
              rewrite lookup_insert_eq, last_shown_snoc; done|].
      intros Hself st' Hupd.
      assert (self_free (r, c) c3) as Hfree.
      { apply (kept_self _ _ _ _ Hk). intros l El Hin. apply Hself.
        simpl in El. rewrite Hdep1 in El.
        destruct (spreadsheet st !! (r, c)) as [c0|] eqn:E0.
        - exists c0, l. auto.
        - injection El as <-. by apply not_elem_of_nil in Hin. }
      eapply wp_Done in Hupd;
        [|eapply wp_update_dependencies_keeps;
          [simpl; apply lookup_insert_eq|exact Hfree|simpl; discriminate]].
      destruct Hupd as (c' & E' & Hst' & Hty' & Hct').
      unfold visit_state, kind_of. rewrite E'. simpl. rewrite Hst', Hty', Hct'. done.
Qed.

Ltac run_turn H := repeat first [progress simpl in H | rewrite lookup_insert_eq in H].

(** The evaluation that update_dependencies starts on the dependent
    [d], the entry [i] of the dependents of [current]. *)
Lemma resolution_in_update_dependencies n st current cur l i d dep st1 result result_str :
  spreadsheet st !! current = Some cur → dependents cur = Some l → l !! i = Some d →
  d ≠ current → spreadsheet st !! d = Some dep → (row dep, col dep) = d →
  formula_scan st d = Done (Scanned st1 result result_str) →
  match result_str with
  | Some s =>
      ∃ st2, update_dependencies_loop (S n) st current i
             = update_dependencies_loop n st2 current (S i) ∧
             visit_state st2 d = Some UNVISITED ∧
             view st2 d.1 d.2 = if (result =? 0)%float then is_text s
                                else is_error "ERROR: incompatible types"
  | None =>
      if isnan result then
        if type_is dep ERROR then
          ∃ st2, update_dependencies_loop (S n) st current i
                 = update_dependencies_loop n st2 current (S i) ∧
                 visit_state st2 d = Some UNVISITED ∧
                 view st2 d.1 d.2 = is_error "ERROR: incompatible types"
        else
          match content dep with
          | text_value t =>
              ∃ st2, update_dependencies_loop (S n) st current i
                     = update_dependencies_loop n st2 current (S i) ∧
                     visit_state st2 d = Some UNVISITED ∧
                     view st2 d.1 d.2 = (Some (type dep, text_value t), Some t)
          | _ => update_dependencies_loop (S n) st current i = Fault
          end
      else
        ∃ st2, update_dependencies_loop (S n) st current i
               = update_dependencies_loop n st2 current (S i) ∧
               visit_state st2 d = Some UNVISITED ∧
               view st2 d.1 d.2 = is_number result (snprintf_1f result)
  end.
Proof.
  intros Ecur El Ei Hne Ed Hpos Hscan.
  destruct (wp_Done _ _ _ (wp_formula_scan _ _) Hscan)
    as (c0 & c3 & E0 & E3 & Hf & Hty & Hct & _).
  assert (c0 = dep) as -> by congruence.
  destruct (frame_lookup_rev _ _ _ _ _ Hf E3) as (c0 & E0' & Hk & _).
  assert (c0 = dep) as -> by congruence.
  assert (row c3 = d.1 ∧ col c3 = d.2) as [Hrow Hcol].
  { rewrite (kept_row _ _ _ _ Hk), (kept_col _ _ _ _ Hk), <- Hpos. done. }
  destruct d as [dr dc]. simpl in Hrow, Hcol.
  remember (update_dependencies_loop (S n) st current i) as turn eqn:Hturn.
  assert (load st current = Done cur) as Hload by (unfold load; rewrite Ecur; done).
  assert (load st (dr, dc) = Done dep) as Hloadd by (unfold load; rewrite Ed; done).
  cbn [update_dependencies_loop] in Hturn. rewrite Hload in Hturn. simpl in Hturn.
  rewrite El in Hturn. simpl in Hturn.
  rewrite Ei, bool_decide_eq_false_2 in Hturn by done.
  rewrite Hloadd in Hturn. simpl in Hturn.
  rewrite evaluate_formula_unfold, Hscan in Hturn. simpl in Hturn.
  unfold resolve, set_cell_state, load in Hturn. rewrite E3 in Hturn. simpl in Hturn.
  destruct result_str as [s|].
  - destruct (result =? 0)%float; simpl in Hturn.
    + run_turn Hturn. rewrite Hrow, Hcol in Hturn.
      subst turn. eexists. split; [reflexivity|]. show_cell.
    + unfold set_error_and_update, load in Hturn. run_turn Hturn.
      rewrite Hrow, Hcol in Hturn.
      subst turn. eexists. split; [reflexivity|]. show_cell.
  - simpl in Hturn. destruct (isnan result) eqn:Enan; simpl in Hturn.
    + run_turn Hturn. unfold type_is in *. simpl in Hturn. rewrite Hty in Hturn.
      case_bool_decide as Herr; simpl in Hturn.
      * unfold set_error_and_update, load in Hturn. run_turn Hturn.
        rewrite Hrow, Hcol in Hturn.
        subst turn. eexists. split; [reflexivity|]. show_cell.
      * run_turn Hturn. rewrite Hct in Hturn.
        destruct (content dep) as [x|t|]; simpl in Hturn; [done| |done].
        rewrite Hrow, Hcol in Hturn.
        subst turn. eexists. split; [reflexivity|]. split.
        -- unfold visit_state. simpl. rewrite lookup_insert_eq. done.
        -- unfold view, displayed, kind_of. simpl.
           rewrite lookup_insert_eq, last_shown_snoc. simpl. rewrite Hty, Hct. done.
    + run_turn Hturn. rewrite Hrow, Hcol in Hturn.
      subst turn. eexists. split; [reflexivity|]. show_cell.
Qed.

(** C2.  Let the token scan of an evaluation complete with the sum
    [result] and the string [result_str].  If a string was accumulated,
    evaluate_formula makes the evaluated cell Text with that string
    when the sum equals 0, and Error with the message
    "ERROR: incompatible types" when it does not, and returns NaN.  If
    no string was accumulated, evaluate_formula leaves the type and the
    content of the cell as they were and returns the sum: its caller
    decides.

    set_cell_value, on the cell that receives a formula: a sum that is
    not NaN (a sum of 0 included) makes the cell Number with the sum,
    its display shows the "%.1f" rendering, and the dependents are then
    updated, which leaves the cell Number with the sum unless it lists
    itself as a dependent.  A sum that is NaN is read as the failure
    signal of the evaluator: the cell becomes Error with its original
    input as text.

    update_dependencies, on each dependent other than the cell itself:
    a sum that is not NaN makes the dependent Number with the sum, and
    its display shows the "%.1f" rendering.  With a sum that is NaN the
    dependent keeps the type it had: an Error gets the message
    "ERROR: incompatible types", a cell whose content is a text shows
    that text, and the content of any other cell is read as a text
    pointer, which is undefined.  With a string the dependent ends and
    is shown as evaluate_formula left it. *)
Theorem resolution_policy :
  (∀ st current f st1 result result_str,
    formula_scan st current = Done (Scanned st1 result result_str) →
    ∃ st' v, evaluate_formula st current f = Done (st', v) ∧
             visit_state st' current = Some UNVISITED ∧
             match result_str with
             | Some s =>
                 isnan v = true ∧
                 kind_of st' current.1 current.2
                 = Some (if (result =? 0)%float then (Some TEXT, text_value s)
                         else (Some ERROR, text_value "ERROR: incompatible types"))
             | None =>
                 v = result ∧ kind_of st' current.1 current.2 = kind_of st current.1 current.2
             end) ∧
  (∀ st r c text st1 cur st3 result result_str,
    token_head text = 61 →
    renew_cell st r c text = Done (st1, (r, c)) →
    load st1 (r, c) = Done cur →
    formula_scan (store st1 (r, c) (declare_formula cur text)) (r, c)
    = Done (Scanned st3 result result_str) →
    match result_str with
    | Some s =>
        ∃ st', set_cell_value st r c text = Done st' ∧
               visit_state st' (r, c) = Some UNVISITED ∧
               view st' r c = if (result =? 0)%float then is_text s
                              else is_error "ERROR: incompatible types"
    | None =>
        if isnan result then
          ∃ st', set_cell_value st r c text = Done st' ∧
                 visit_state st' (r, c) = Some UNVISITED ∧
                 view st' r c = is_error text
        else
          ∃ st4, set_cell_value st r c text = update_dependencies st4 (r, c) ∧
                 visit_state st4 (r, c) = Some UNVISITED ∧
                 view st4 r c = is_number result (snprintf_1f result) ∧
                 (¬ lists_itself st (r, c) →
                  ∀ st', update_dependencies st4 (r, c) = Done st' →
                         visit_state st' (r, c) = Some UNVISITED ∧
                         kind_of st' r c = Some (Some NUMBER, number_value result))
    end) ∧
  (∀ n st current cur l i d dep st1 result result_str,
    spreadsheet st !! current = Some cur → dependents cur = Some l → l !! i = Some d →
    d ≠ current → spreadsheet st !! d = Some dep → (row dep, col dep) = d →
    formula_scan st d = Done (Scanned st1 result result_str) →
    match result_str with
    | Some s =>
        ∃ st2, update_dependencies_loop (S n) st current i
               = update_dependencies_loop n st2 current (S i) ∧
               visit_state st2 d = Some UNVISITED ∧
               view st2 d.1 d.2 = if (result =? 0)%float then is_text s
                                  else is_error "ERROR: incompatible types"
    | None =>
        if isnan result then
          if type_is dep ERROR then
            ∃ st2, update_dependencies_loop (S n) st current i
                   = update_dependencies_loop n st2 current (S i) ∧
                   visit_state st2 d = Some UNVISITED ∧
                   view st2 d.1 d.2 = is_error "ERROR: incompatible types"
          else
            match content dep with
            | text_value t =>
                ∃ st2, update_dependencies_loop (S n) st current i
                       = update_dependencies_loop n st2 current (S i) ∧
                       visit_state st2 d = Some UNVISITED ∧
                       view st2 d.1 d.2 = (Some (type dep, text_value t), Some t)
            | _ => update_dependencies_loop (S n) st current i = Fault
            end
        else
          ∃ st2, update_dependencies_loop (S n) st current i
                 = update_dependencies_loop n st2 current (S i) ∧
                 visit_state st2 d = Some UNVISITED ∧
                 view st2 d.1 d.2 = is_number result (snprintf_1f result)
    end).
Proof.
  split; [|split].
  - exact resolution_in_evaluate_formula.
  - exact resolution_in_set_cell_value.
  - exact resolution_in_update_dependencies.
Qed.

End Claims.

(** ** The claims on concrete calls

    The lemmas of this part run the model on [CLib.c_library]. *)

(** C4, witness: the formula "A1+B1" of the cell B1 reads B1 itself;
    its evaluation detects the cycle, returns NaN and leaves B1
    UNVISITED. *)
Lemma evaluate_formula_restores_after_cycle :
  ∃ st' v, evaluate_formula one_and_self_reader (0, 1) None = Done (st', v) ∧
           isnan v = true ∧
           view st' 0 1 = is_error "ERROR: circular dependency" ∧
           visit_state st' (0, 1) = Some UNVISITED.
Proof.
  eassert (evaluate_formula one_and_self_reader (0, 1) None = Done (_, _)) as Heq
    by (vm_compute; reflexivity).
  eexists _, _. split; [exact Heq|].
  split; [reflexivity|]. split; [vm_compute; reflexivity|].
  exact (proj1 (proj2 (evaluate_formula_restores_visit_state one_and_self_reader (0, 1) None)
                  _ _ Heq)).
Defined.

(** C5, witness: a formula whose evaluation fails is returned as it was
    given. *)
Lemma round_trip_of_failing_formula :
  ∃ st', set_cell_value one_and_self_reader 0 1 "=A1+oops" = Done st' ∧
         view st' 0 1 = is_error "ERROR: invalid cell reference" ∧
         get_textual_value st' 0 1 = Done (Some "=A1+oops").
Proof.
  eexists. split; [vm_compute; reflexivity|]. split; [vm_compute; reflexivity|].
  apply (proj2 (get_textual_value_after_set_cell_value one_and_self_reader 0 1 "=A1+oops")).
  vm_compute. reflexivity.
Defined.

(** C7, witness: "=A1+A1" in B1 registers B1 once with A1, and a later
    change of A1 notifies the display once for A1 and once for B1. *)
Lemma double_reference_registers_once :
  ∃ st cl, set_cells model_init twice_referenced = Done st ∧
           spreadsheet st !! (0, 0) = Some cl ∧
           dependents cl = Some [(0, 1)] ∧ NoDup [(0, 1)] ∧
           observe (twice_referenced ++ [(0, 0, "5")]) (λ st, drop 2 (display st))
           = Done [(0, 0, "5"); (0, 1, "10.0")].
Proof.
  eexists _, _. split; [vm_compute; reflexivity|].
  split; [vm_compute; reflexivity|]. split; [reflexivity|].
  split; [|vm_compute; reflexivity].
  eapply (dependents_never_repeat [(0, 1); (0, 0)] _ (0, 0)).
  - apply (reached_set_cells [] model_init twice_referenced); [constructor|].
    vm_compute. reflexivity.
  - vm_compute. reflexivity.
  - reflexivity.
Defined.

(** C9, witness: a cell that lists itself is flagged, and the loop ends
    behind it. *)
Lemma self_edge_is_flagged :
  update_dependencies_loop 1 self_edge (0, 0) 0
  = Done (flag_self_reference self_edge (0, 0) self_edge_cell)
  ∧ view (flag_self_reference self_edge (0, 0) self_edge_cell) 0 0
    = is_error "ERROR: circular dependency".
Proof.
  split; [|vm_compute; reflexivity].
  rewrite (self_reference_is_flagged_and_skipped 0 self_edge (0, 0) self_edge_cell
             [(0, 0)] 0); reflexivity.
Defined.

(** C10, witness: clear_cell faults on the empty table, and returns on
    a cell that set_cell_value made. *)
Lemma clear_cell_on_empty_table_faults :
  (find_cell model_init 0 0 = None ∧ clear_cell model_init 0 0 = Fault) ∧
  ∃ st', clear_cell (state_after [(0, 0, "1")]) 0 0 = Done st'.
Proof.
  split.
  - apply (proj1 (clear_cell_requires_a_cell [] model_init 0 0 reached_init)).
    apply not_elem_of_nil.
  - eapply (proj2 (proj2 (clear_cell_requires_a_cell [(0, 0)] (state_after [(0, 0, "1")]) 0 0 _))).
    + vm_compute. reflexivity.
    + vm_compute. repeat split; eauto; try discriminate.
      intros [Hx|Hx]; discriminate.
  Unshelve.
  apply (reached_set_cells [] model_init [(0, 0, "1")]); [constructor|].
  vm_compute. reflexivity.
Defined.

(** C2, witness: A1 = "hello", B1 = 3, and "=A1+B1" in C1: a string and
    a sum that is not 0, so C1 is Error.  And A1 = 1 with B1 = "=A1":
    the turn of update_dependencies on B1 makes B1 the Number 1 and
    shows "1.0". *)
Lemma resolution_policy_type_mix :
  (∃ st', set_cell_value hello_and_three 0 2 "=A1+B1" = Done st' ∧
          visit_state st' (0, 2) = Some UNVISITED ∧
          view st' 0 2 = is_error "ERROR: incompatible types") ∧
  (∃ st2, update_dependencies_loop 1 one_and_copy (0, 0) 0
          = update_dependencies_loop 0 st2 (0, 0) 1 ∧
          visit_state st2 (0, 1) = Some UNVISITED ∧
          view st2 0 1 = is_number 1 "1.0").
Proof.
  split; cycle 1.
  { eassert (formula_scan one_and_copy (0, 1) = Done (Scanned _ 1 None)) as Hscan
      by (vm_compute; reflexivity).
    eassert (spreadsheet one_and_copy !! (0, 0) = Some _) as Ecur by (vm_compute; reflexivity).
    eassert (spreadsheet one_and_copy !! (0, 1) = Some _) as Edep by (vm_compute; reflexivity).
    exact (proj2 (proj2 resolution_policy) 0%nat one_and_copy (0, 0) _ [(0, 1)] 0%nat (0, 1) _ _ _ _
             Ecur eq_refl eq_refl ltac:(discriminate) Edep eq_refl Hscan). }
  eassert (renew_cell hello_and_three 0 2 "=A1+B1" = Done (_, (0, 2))) as Hrenew
    by (vm_compute; reflexivity).
  lazymatch type of Hrenew with
  | _ = Done (?st1, _) =>
      eassert (load st1 (0, 2) = Done _) as Hload by (vm_compute; reflexivity);
      lazymatch type of Hload with
      | _ = Done ?cur =>
          eassert (formula_scan (store st1 (0, 2) (declare_formula cur "=A1+B1")) (0, 2)
                   = Done (Scanned _ 3 (Some "hello"))) as Hscan
            by (vm_compute; reflexivity)
      end
  end.
  exact (proj1 (proj2 resolution_policy) hello_and_three 0 2 "=A1+B1" _ _ _ _ _
           eq_refl Hrenew Hload Hscan).
Defined.

(** C2, counterexample: A1 holds the number NaN (the input "nan") and
    B1 receives "=A1".  The scan completes with no string and the sum
    NaN, and B1 becomes Error with the text "=A1", not Number. *)
Lemma nan_sum_is_not_a_number :
  ∃ st1 cur st3 result st',
    renew_cell nan_number 0 1 "=A1" = Done (st1, (0, 1)) ∧
    load st1 (0, 1) = Done cur ∧
    formula_scan (store st1 (0, 1) (declare_formula cur "=A1")) (0, 1)
    = Done (Scanned st3 result None) ∧
    set_cell_value nan_number 0 1 "=A1" = Done st' ∧
    view st' 0 1 = is_error "=A1" ∧
    view st' 0 1 ≠ is_number result (snprintf_1f result).
Proof.
  eexists _, _, _, _, _.
  split; [vm_compute; reflexivity|]. split; [vm_compute; reflexivity|].
  split; [vm_compute; reflexivity|]. split; [vm_compute; reflexivity|].
  split; [vm_compute; reflexivity|]. vm_compute. discriminate.
Qed.

(** C1, counterexample: the cell (2,0) does not end as Number 10.  Its
    formula "=B1+B1" reads the cell (0,1), which no call has set. *)
Lemma transitive_propagation_fails :
  observe chain_in_column (λ st, view st 2 0)
  = Done (is_error "ERROR: invalid cell reference")
  ∧ ¬ transitive_propagation_claim.
Proof.
  split; [vm_compute; reflexivity|].
  unfold transitive_propagation_claim. vm_compute. discriminate.
Qed.

(** C1.  After the four calls the cell (1,0) is Number 5
    and shows "5.0"; the cell (2,0) is Error with the message
    "ERROR: invalid cell reference".  With the chain in the cells A1, B1
    and C1, the change of A1 reaches B1, which becomes Number 5 and
    shows "5.0", and does not reach C1, which keeps Number 2 and shows
    "2.0": update_dependencies re-evaluates the direct dependents only. *)
Theorem propagation_reaches_direct_dependents_only :
  observe chain_in_column (λ st, (view st 1 0, view st 2 0))
  = Done (is_number 5 "5.0", is_error "ERROR: invalid cell reference")
  ∧ observe chain_in_row (λ st, (view st 0 1, view st 0 2))
  = Done (is_number 5 "5.0", is_number 2 "2.0").
Proof. split; vm_compute; reflexivity. Qed.

(** C3, counterexample: neither cell carries a circular-dependency
    message, and the cell (1,0) is not of type ERROR. *)
Lemma mutual_references_not_flagged_circular :
  observe mutual_references (λ st, (kind_of st 0 0, kind_of st 1 0))
  = Done (Some (Some ERROR, text_value "ERROR: invalid cell reference"),
          Some (Some TEXT, text_value "ERROR: invalid cell reference"))
  ∧ ¬ cycle_rejection_claim.
Proof.
  split; [vm_compute; reflexivity|].
  unfold cycle_rejection_claim. vm_compute. discriminate.
Qed.

(** C3.  After set_cell_value(0,0,"=A2") and
    set_cell_value(1,0,"=A1"), the cell (0,0) is Error with the message
    "ERROR: invalid cell reference" (A2 did not exist when A1 was
    evaluated), the cell (1,0) is Text with that same message (an Error
    operand is copied as a string), and both cells are UNVISITED. *)
Theorem mutual_references_end_as_invalid_reference :
  observe mutual_references
    (λ st, (view st 0 0, view st 1 0, visit_state st (0, 0), visit_state st (1, 0)))
  = Done (is_error "ERROR: invalid cell reference", is_text "ERROR: invalid cell reference",
          Some UNVISITED, Some UNVISITED).
Proof. vm_compute. reflexivity. Qed.

(** C8, the code at the failing input: B1 = "=A1+B1" is Error with the
    message "ERROR: circular dependency"; when A1 changes, the
    evaluator sets that message again, and update_dependencies then
    replaces it: B1 ends with "ERROR: incompatible types", and the
    display is notified of it last. *)
Theorem propagation_overwrites_error_message :
  observe (take 2 self_reading_dependent) (λ st, view st 0 1)
  = Done (is_error "ERROR: circular dependency")
  ∧ observe self_reading_dependent (λ st, (view st 0 1, drop 3 (display st)))
  = Done (is_error "ERROR: incompatible types",
          [(0, 0, "2");
           (0, 1, "ERROR: circular dependency");
           (0, 1, "ERROR: incompatible types");
           (0, 1, "ERROR: incompatible types")]).
Proof. split; vm_compute; reflexivity. Qed.

(** * Further properties of the model *)

(** ** What the writes of an evaluation keep *)

Lemma returns_bind {A B : Type} (m : outcome A) (f : A → outcome B) (Q : B → Prop) :
  returns m (λ a, returns (f a) Q) → returns (m ≫= f) Q.
Proof. intros Hm b Heq. apply bind_Done in Heq as (a & Ha & Hb). exact (Hm a Ha b Hb). Qed.

Lemma returns_ret {A : Type} (a : A) (Q : A → Prop) : Q a → returns (mret a) Q.
Proof. intros HQ b [= <-]. done. Qed.

Lemma returns_mono {A : Type} (m : outcome A) (P Q : A → Prop) :
  returns m P → (∀ a, P a → Q a) → returns m Q.
Proof. intros Hm HPQ a Ha. auto. Qed.

Lemma returns_deref {A : Type} (o : option A) (Q : A → Prop) :
  (∀ a, o = Some a → Q a) → returns (deref o) Q.
Proof. intros HQ a Ha. destruct o; [|done]. injection Ha as <-. auto. Qed.

Lemma returns_load st p (Q : cell → Prop) :
  (∀ c, spreadsheet st !! p = Some c → Q c) → returns (load st p) Q.
Proof. apply returns_deref. Qed.

Lemma returns_get_text v (Q : string → Prop) :
  (∀ s, v = text_value s → Q s) → returns (get_text v) Q.
Proof. intros HQ s Hs. destruct v; try done. injection Hs as <-. auto. Qed.

Lemma returns_get_number v (Q : float → Prop) :
  (∀ x, v = number_value x → Q x) → returns (get_number v) Q.
Proof. intros HQ s Hs. destruct v; try done. injection Hs as <-. auto. Qed.

Section Invariant.
Context `{Libc}.

(** A property [J D p c] of the cell [c] at the position [p] of a table
    with the positions [D] that every write of an evaluation keeps. *)
Variable J : gset cellptr → cellptr → cell → Prop.
Hypothesis J_state : ∀ D p c s, J D p c → J D p (set_state c s).
Hypothesis J_value : ∀ D p c t v,
  agrees t v → J D p c → J D p (set_content (set_type c t) v).
Hypothesis J_add : ∀ D p c l d,
  J D p c → dependents c = Some l → d ∈ D → d ∉ l → J D p (added c l d).

Lemma keeps_refl st : keeps J st st.
Proof. done. Qed.

Lemma keeps_trans st1 st2 st3 : keeps J st1 st2 → keeps J st2 st3 → keeps J st1 st3.
Proof. intros [D1 H1] [D2 H2]. split; [congruence|auto]. Qed.

Lemma keeps_same st st' : spreadsheet st' = spreadsheet st → keeps J st st'.
Proof. intros Heq. unfold keeps, cells_ok. rewrite Heq. done. Qed.

Lemma keeps_store st p c c' :
  spreadsheet st !! p = Some c →
  (J (dom (spreadsheet st)) p c → J (dom (spreadsheet st)) p c') →
  keeps J st (store st p c').
Proof.
  intros E HJ. assert (dom (spreadsheet (store st p c')) = dom (spreadsheet st)) as Hdom.
  { simpl. apply dom_insert_lookup_L. eauto. }
  split; [done|]. intros Hok q cq Eq. rewrite Hdom. simpl in Eq.
  destruct (decide (q = p)) as [->|Hne].
  - rewrite lookup_insert_eq in Eq. injection Eq as <-. auto.
  - rewrite lookup_insert_ne in Eq by done. auto.
Qed.

Lemma returns_set_cell_state st0 st p s :
  keeps J st0 st → returns (set_cell_state st p s) (keeps J st0).
Proof.
  intros Hk. unfold set_cell_state. apply returns_bind, returns_load. intros c E.
  apply returns_ret. eapply keeps_trans; [exact Hk|]. eapply keeps_store; eauto.
Qed.

Lemma returns_set_error_and_update st0 st p msg :
  keeps J st0 st → returns (set_error_and_update st p msg) (keeps J st0).
Proof.
  intros Hk. unfold set_error_and_update. apply returns_bind, returns_load. intros c E.
  apply returns_ret. eapply keeps_trans; [exact Hk|].
  eapply keeps_trans; [eapply (keeps_store st p c); [done|]|by apply keeps_same].
  by apply J_value.
Qed.

Lemma returns_fail_with st0 st cur msg :
  keeps J st0 st → returns (fail_with st cur msg) (λ t, ∃ st' v, t = Return st' v ∧ keeps J st0 st').
Proof.
  intros Hk. unfold fail_with. apply returns_bind.
  eapply returns_mono; [by apply returns_set_error_and_update|]. intros st1 Hk1.
  apply returns_bind. eapply returns_mono; [by apply returns_set_cell_state|].
  intros st2 Hk2. apply returns_ret. eauto.
Qed.

Section InvariantBody.
Variable evaluate_sub : model → cellptr → option string → outcome (model * float).
Hypothesis evaluate_sub_keeps : ∀ st target f,
  target ∈ dom (spreadsheet st) → returns (evaluate_sub st target f) (λ r, keeps J st r.1).

Lemma returns_accumulate st cur target cl result result_str :
  spreadsheet st !! target = Some cl →
  returns (accumulate evaluate_sub st cur target cl result result_str) (turn_keeps J st).
Proof.
  intros E. unfold accumulate.
  destruct (type_is cl NUMBER).
  { apply returns_bind, returns_get_number. intros v _. apply returns_ret. simpl. apply keeps_refl. }
  destruct (type_is cl FORMULA).
  { apply returns_bind. eapply returns_mono.
    - apply evaluate_sub_keeps. apply elem_of_dom. eauto.
    - intros [st1 v] Hk. simpl in Hk. destruct (isnan v).
      + apply returns_bind. eapply returns_mono; [by apply returns_set_cell_state|].
        intros st2 Hk2. by apply returns_ret.
      + by apply returns_ret. }
  destruct (type_is cl TEXT || type_is cl ERROR).
  { apply returns_bind, returns_get_text. intros t _.
    destruct result_str; [destruct (type_is cl ERROR)|]; apply returns_ret; apply keeps_refl. }
  apply returns_ret. apply keeps_refl.
Qed.

Lemma returns_add_dependent st target current c l :
  spreadsheet st !! target = Some c → dependents c = Some l →
  returns (add_dependent st target current) (λ st', st' = store st target (added c l current)).
Proof.
  intros E El. unfold add_dependent, load. rewrite E. simpl. unfold added.
  destruct (dependents_capacity c =? 0)%nat; [by apply returns_ret|].
  rewrite El. simpl. by apply returns_ret.
Qed.

Lemma returns_register_dependent st0 st cur target result result_str :
  keeps J st0 st → cur ∈ dom (spreadsheet st) →
  returns (register_dependent st cur target result result_str) (turn_keeps J st0).
Proof.
  intros Hk Hcur. unfold register_dependent. apply returns_bind, returns_load. intros cl E.
  apply returns_bind, returns_deref. intros l El.
  apply returns_bind.
  apply returns_mono with (P := keeps J st0).
  { case_bool_decide as Hin; [by apply returns_ret|].
    eapply returns_mono; [by apply returns_add_dependent|]. intros st1 ->.
    eapply keeps_trans; [exact Hk|]. eapply keeps_store; [done|].
    intros HJ. apply J_add; done. }
  intros st1 Hk1. apply returns_bind, returns_load. intros cl1 E1.
  destruct (type_is cl1 ERROR); by apply returns_ret.
Qed.

Lemma returns_reference_turn st cur result result_str token :
  cur ∈ dom (spreadsheet st) →
  returns (reference_turn evaluate_sub st cur result result_str token) (turn_keeps J st).
Proof.
  intros Hcur. unfold reference_turn.
  assert (∀ msg, returns (fail_with st cur msg) (turn_keeps J st)) as Hfail.
  { intros msg. eapply returns_mono; [apply returns_fail_with, keeps_refl|].
    intros t (st' & v & -> & Hk). done. }
  unfold find_cell, int_sub. destruct (_ && _); simpl; [|done].
  set (target := (atoi (token_tail token) - 1, token_head token - 65)).
  destruct (spreadsheet st !! target) as [cl0|] eqn:E; [|apply Hfail].
  apply returns_bind, returns_load. intros cl Ecl.
  case_bool_decide as Hst; [apply Hfail|].
  apply returns_bind. eapply returns_mono; [by apply returns_accumulate|].
  intros [st1 r1 rs1|st1 r1 rs1|st1 v] Hk; simpl in Hk; try by apply returns_ret.
  apply returns_register_dependent; [done|]. by rewrite (proj1 Hk).
Qed.

Lemma returns_token_turn st cur result result_str token :
  cur ∈ dom (spreadsheet st) →
  returns (token_turn evaluate_sub st cur result result_str token) (turn_keeps J st).
Proof.
  intros Hcur. unfold token_turn.
  destruct (isalpha (token_head token)); [by apply returns_reference_turn|].
  unfold isdigit_of_pointer. done.
Qed.

Lemma keeps_call_strtok st s : keeps J st (call_strtok s st).2.
Proof.
  apply keeps_same. unfold call_strtok. by destruct (strtok s "+"%char (strtok_save st)).
Qed.

Lemma returns_token_loop n st0 st cur result result_str token :
  keeps J st0 st → cur ∈ dom (spreadsheet st) →
  returns (token_loop evaluate_sub n st cur result result_str token) (scan_keeps J st0).
Proof.
  revert st result result_str token.
  induction n as [|n IH]; intros st result result_str [[off tok]|] Hk Hcur; simpl;
    try (by apply returns_ret); [done|].
  apply returns_bind. eapply returns_mono; [by apply returns_token_turn|].
  intros [st1 r1 rs1|st1 r1 rs1|st1 v] Hk1; simpl in Hk1.
  - pose proof (keeps_call_strtok st1 None) as Hk2.
    destruct (call_strtok None st1) as [token1 st2]. simpl in Hk2.
    apply IH.
    + eauto using keeps_trans.
    + by rewrite (proj1 Hk2), (proj1 Hk1).
  - apply returns_ret. simpl. eauto using keeps_trans.
  - apply returns_ret. simpl. eauto using keeps_trans.
Qed.

Lemma returns_scan_formula st cur :
  returns (scan_formula evaluate_sub st cur) (scan_keeps J st).
Proof.
  unfold scan_formula. apply returns_bind.
  eapply returns_mono; [apply returns_set_cell_state, keeps_refl|]. intros st1 Hk1.
  apply returns_bind, returns_load. intros c E.
  apply returns_bind, returns_deref. intros f Hf.
  pose proof (keeps_call_strtok st1 (Some f)) as Hk2.
  destruct (call_strtok (Some f) st1) as [token st2]. simpl in Hk2.
  apply returns_token_loop; [eauto using keeps_trans|].
  rewrite (proj1 Hk2). apply elem_of_dom. eauto.
Qed.

Lemma returns_resolve st0 st cur result result_str :
  keeps J st0 st → returns (resolve st cur result result_str) (λ r, keeps J st0 r.1).
Proof.
  intros Hk. unfold resolve. apply returns_bind.
  eapply returns_mono; [by apply returns_set_cell_state|]. intros st1 Hk1.
  destruct result_str as [s|]; [|by apply returns_ret].
  destruct (negb _).
  - apply returns_bind. eapply returns_mono; [by apply returns_set_error_and_update|].
    intros st2 Hk2. by apply returns_ret.
  - apply returns_bind, returns_load. intros c E. apply returns_ret. simpl.
    eapply keeps_trans; [exact Hk1|]. eapply keeps_store; [done|].
    intros HJ. change (set_type (set_content c (text_value s)) TEXT)
      with (set_content (set_type c TEXT) (text_value s)). by apply J_value.
Qed.

Lemma returns_evaluate_formula_body st cur f :
  returns (evaluate_formula_body evaluate_sub st cur f) (λ r, keeps J st r.1).
Proof.
  unfold evaluate_formula_body. apply returns_bind.
  eapply returns_mono; [apply returns_scan_formula|].
  intros [st1 result result_str|st1 v] Hk; simpl in Hk.
  - by apply returns_resolve.
  - by apply returns_ret.
Qed.

End InvariantBody.

Lemma returns_evaluate_formula_depth d st cur f :
  returns (evaluate_formula_depth d st cur f) (λ r, keeps J st r.1).
Proof.
  revert st cur f. induction d as [|d IH]; intros st cur f; simpl; [done|].
  apply returns_evaluate_formula_body. intros. apply IH.
Qed.

Lemma returns_evaluate_formula st cur f :
  returns (evaluate_formula st cur f) (λ r, keeps J st r.1).
Proof. apply returns_evaluate_formula_depth. Qed.

Lemma returns_update_dependencies_loop n st0 st cur i :
  keeps J st0 st → returns (update_dependencies_loop n st cur i) (keeps J st0).
Proof.
  revert st i. induction n as [|n IH]; intros st i Hk.
  - simpl. apply returns_bind, returns_load. intros c E.
    apply returns_bind, returns_deref. intros l El.
    destruct (l !! i); [done|by apply returns_ret].
  - simpl. apply returns_bind, returns_load. intros c E.
    apply returns_bind, returns_deref. intros l El.
    destruct (l !! i) as [dependent|]; [|by apply returns_ret].
    case_bool_decide as Hself.
    { apply returns_bind. eapply returns_mono; [by apply returns_set_error_and_update|].
      intros st1 Hk1. by apply IH. }
    apply returns_bind, returns_load. intros dep Edep.
    apply returns_bind. eapply returns_mono; [apply returns_evaluate_formula|].
    intros [st1 v] Hk1. simpl in Hk1.
    assert (keeps J st0 st1) as Hk01 by eauto using keeps_trans.
    destruct (isnan v).
    + apply returns_bind, returns_load. intros dep1 E1.
      apply returns_bind.
      apply returns_mono with (P := keeps J st0).
      { destruct (type_is dep1 ERROR); [by apply returns_set_error_and_update|by apply returns_ret]. }
      intros st2 Hk2. apply returns_bind, returns_load. intros dep2 E2.
      apply returns_bind, returns_get_text. intros t _.
      apply IH. eapply keeps_trans; [exact Hk2|]. by apply keeps_same.
    + apply returns_bind, returns_load. intros dep1 E1.
      apply IH. eapply keeps_trans; [exact Hk01|].
      eapply keeps_trans; [eapply (keeps_store st1 dependent dep1); [done|]|by apply keeps_same].
      by apply J_value.
Qed.

Lemma returns_update_dependencies st0 st cur :
  keeps J st0 st → returns (update_dependencies st cur) (keeps J st0).
Proof.
  intros Hk. unfold update_dependencies. apply returns_bind, returns_load. intros c E.
  apply returns_bind, returns_deref. intros l El.
  by apply returns_update_dependencies_loop.
Qed.

End Invariant.

(** ** set_cell_value and clear_cell *)

Section SetCell.
Context `{Libc}.

Lemma returns_renew_cell st r c text :
  returns (renew_cell st r c text)
    (λ p, p.2 = (r, c) ∧
          ∃ c1, renewed st r c text c1 ∧ p.1 = store st (r, c) c1).
Proof.
  unfold renew_cell, find_cell, renewed.
  destruct (spreadsheet st !! (r, c)) as [c0|] eqn:E0.
  - apply returns_bind, returns_load. intros cur E. assert (cur = c0) as -> by congruence.
    apply returns_bind, returns_deref. intros input Hin.
    apply returns_bind. unfold type_is. simpl.
    destruct (type c0) as [[]|] eqn:Ety; simpl.
    + apply returns_ret, returns_ret. simpl. split; [done|]. eexists. split; [|done].
      simpl. rewrite Ety, Hin. repeat split; eauto.
    + apply returns_bind, returns_get_text. intros s Hs. apply returns_ret, returns_ret.
      simpl. split; [done|]. eexists. split; [|done].
      simpl. rewrite Ety, Hin. repeat split; eauto.
    + apply returns_bind, returns_deref. intros f Hf. apply returns_ret, returns_ret.
      simpl. split; [done|]. eexists. split; [|done].
      simpl. rewrite Ety, Hin. repeat split; eauto.
    + apply returns_bind, returns_get_text. intros s Hs. apply returns_ret, returns_ret.
      simpl. split; [done|]. eexists. split; [|done].
      simpl. rewrite Ety, Hin. repeat split; eauto.
    + apply returns_ret, returns_ret. simpl. split; [done|]. eexists. split; [|done].
      simpl. rewrite Ety, Hin. repeat split; eauto.
  - apply returns_ret. simpl. split; [done|]. exists (new_cell r c text). done.
Qed.

End SetCell.

Section Bookkeeping.
Context `{Libc}.

(** A property of the position and the array of dependents of a cell. *)
Variable J : gset cellptr → cellptr → cell → Prop.
Hypothesis J_edges : ∀ D p c c', same_edges c c' → J D p c → J D p c'.
Hypothesis J_add : ∀ D p c l d,
  J D p c → dependents c = Some l → d ∈ D → d ∉ l → J D p (added c l d).
Hypothesis J_mono : ∀ D D' p c, D ⊆ D' → J D p c → J D' p c.

Lemma J_edges_state D p c s : J D p c → J D p (set_state c s).
Proof. by apply J_edges. Qed.

Lemma J_edges_value D p c t v : agrees t v → J D p c → J D p (set_content (set_type c t) v).
Proof. intros _. by apply J_edges. Qed.

Lemma cells_ok_store st p c1 :
  cells_ok J st → J ({[p]} ∪ dom (spreadsheet st)) p c1 → cells_ok J (store st p c1).
Proof.
  intros Hok H1 q cq Eq. simpl in *. rewrite dom_insert_L.
  destruct (decide (q = p)) as [->|Hne].
  - rewrite lookup_insert_eq in Eq. injection Eq as <-. done.
  - rewrite lookup_insert_ne in Eq by done. eapply J_mono; [|by apply Hok]. set_solver.
Qed.

Lemma returns_set_cell_value st r c text :
  (spreadsheet st !! (r, c) = None →
   J ({[(r, c)]} ∪ dom (spreadsheet st)) (r, c) (new_cell r c text)) →
  cells_ok J st →
  returns (set_cell_value st r c text)
    (λ st', cells_ok J st' ∧ dom (spreadsheet st') = {[(r, c)]} ∪ dom (spreadsheet st)).
Proof.
  intros Hnew Hok. unfold set_cell_value. apply returns_bind.
  eapply returns_mono; [apply returns_renew_cell|].
  intros [st1 current] (Hcur & c1 & [Hin Hc1] & Hst1). simpl in Hcur, Hst1. subst current st1.
  set (st1 := store st (r, c) c1).
  assert (dom (spreadsheet st1) = {[(r, c)]} ∪ dom (spreadsheet st)) as Hdom1
    by apply dom_insert_L.
  assert (cells_ok J st1) as Hok1.
  { apply cells_ok_store; [done|].
    destruct (spreadsheet st !! (r, c)) as [c0|] eqn:E0.
    - destruct Hc1 as (Hsame & _). eapply J_edges; [exact Hsame|].
      eapply J_mono; [|by apply Hok]. set_solver.
    - subst c1. auto. }
  assert (∀ st', keeps J st1 st' →
                 cells_ok J st' ∧ dom (spreadsheet st') = {[(r, c)]} ∪ dom (spreadsheet st))
    as Hend.
  { intros st' [Hd Hk]. split; [auto|congruence]. }
  assert (∀ c' : cell, same_edges c1 c' → keeps J st1 (store st1 (r, c) c')) as Hstore.
  { intros c' Hsame. eapply keeps_store; [apply lookup_insert_eq|]. by apply J_edges. }
  assert (∀ st2 c2 c', keeps J st1 st2 → spreadsheet st2 !! (r, c) = Some c2 →
                       same_edges c2 c' → keeps J st1 (store st2 (r, c) c')) as Hstore2.
  { intros st2 c2 c' Hk E2 Hsame. eapply keeps_trans; [exact Hk|].
    eapply keeps_store; [done|]. by apply J_edges. }
  case_bool_decide as Hformula.
  - apply returns_bind, returns_load. intros cur Ecur.
    assert (cur = c1) as -> by (simpl in Ecur; rewrite lookup_insert_eq in Ecur; congruence).
    apply returns_bind.
    eapply returns_mono; [apply (returns_evaluate_formula J J_edges_state J_edges_value J_add)|].
    intros [st3 v] Hk3. simpl in Hk3.
    assert (keeps J st1 st3) as Hk13.
    { eapply keeps_trans; [|exact Hk3]. by apply Hstore. }
    destruct (isnan v).
    + apply returns_bind, returns_load. intros cur3 E3.
      destruct (type_is cur3 FORMULA).
      * apply returns_bind, returns_deref. intros input Hinput. apply returns_ret.
        apply Hend. eapply keeps_trans; [|by apply keeps_same]. by eapply Hstore2.
      * apply returns_bind, returns_get_text. intros t _. apply returns_ret.
        apply Hend. eapply keeps_trans; [exact Hk13|]. by apply keeps_same.
    + apply returns_bind, returns_load. intros cur3 E3.
      eapply returns_mono; [|exact Hend].
      apply (returns_update_dependencies J J_edges_state J_edges_value J_add).
      eapply keeps_trans; [|by apply keeps_same]. by eapply Hstore2.
  - apply returns_bind, returns_load. intros cur Ecur.
    assert (cur = c1) as -> by (simpl in Ecur; rewrite lookup_insert_eq in Ecur; congruence).
    destruct (strtod text) as [number rest].
    eapply returns_mono; [|exact Hend].
    apply (returns_update_dependencies J J_edges_state J_edges_value J_add).
    eapply keeps_trans; [|by apply keeps_same].
    apply Hstore. by case_bool_decide.
Qed.

Hypothesis J_freed : ∀ D p c cap, J D p c → J D p (set_dependents c None cap).

Lemma returns_clear_cell st r c :
  cells_ok J st →
  returns (clear_cell st r c)
    (λ st', cells_ok J st' ∧ dom (spreadsheet st') = dom (spreadsheet st)).
Proof.
  intros Hok. unfold clear_cell, find_cell.
  destruct (spreadsheet st !! (r, c)) as [cl|] eqn:E; [|done]. simpl.
  apply returns_bind, returns_load. intros cur Ecur. assert (cur = cl) as -> by congruence.
  apply returns_bind.
  apply returns_mono with (P := λ cur1, J (dom (spreadsheet st)) (r, c) cur1).
  { destruct (type_is cl FORMULA).
    - apply returns_bind, returns_deref. intros f _. apply returns_ret.
      eapply J_edges; [|by apply Hok]. done.
    - destruct (type_is cl TEXT || type_is cl ERROR).
      + apply returns_bind, returns_get_text. intros s _. apply returns_ret.
        eapply J_edges; [|by apply Hok]. done.
      + apply returns_ret. eapply J_edges; [|by apply Hok]. done. }
  intros cur1 H1. apply returns_bind.
  apply returns_mono with (P := λ cur2, J (dom (spreadsheet st)) (r, c) cur2).
  { destruct (dependents_capacity cur1 =? 0)%nat; [by apply returns_ret|].
    apply returns_bind, returns_deref. intros l _. apply returns_ret. by apply J_freed. }
  intros cur2 H2. apply returns_bind, returns_deref. intros input _. apply returns_ret.
  assert (keeps J st (store st (r, c) (set_original_input cur2 None))) as [Hd Hk].
  { eapply keeps_store; [done|]. intros _. eapply J_edges; [|exact H2]. done. }
  split; [by apply Hk|done].
Qed.

Hypothesis J_new : ∀ D r c text, J D (r, c) (new_cell r c text).

(** The property holds of every cell of every state that the interface
    reaches. *)
Lemma reached_cells_ok ps st : reached ps st → cells_ok J st.
Proof.
  induction 1 as [|ps st r c text st' Hr IH Heq|ps st r c st' Hr IH Heq].
  - intros p c E. simpl in E. by rewrite lookup_empty in E.
  - apply (returns_set_cell_value st r c text) in Heq as [Hok _]; auto.
  - apply (returns_clear_cell st r c) in Heq as [Hok _]; auto.
Qed.

End Bookkeeping.

(** ** The arrays of dependents *)

Section Edges.
Context `{Libc}.
Local Open Scope list_scope.

Lemma edges_ok_edges D p c c' : same_edges c c' → edges_ok D p c → edges_ok D p c'.
Proof.
  intros (Hr & Hc & Hd & Hcap) (H1 & H2 & H3). unfold edges_ok, within_capacity, dependents_in, placed.
  rewrite Hr, Hc, Hd, Hcap. done.
Qed.

Lemma within_capacity_added c l d :
  within_capacity c → dependents c = Some l → within_capacity (added c l d).
Proof.
  intros H1 El. destruct (H1 l El) as [Hlen Hzero].
  unfold added. destruct (Nat.eqb_spec (dependents_capacity c) 0) as [Hcap|Hcap].
  - intros l' [= <-]. simpl. split; [lia|done].
  - intros l' [= <-]. simpl. rewrite length_app. simpl.
    split; [|by destruct (length l =? dependents_capacity c)%nat; lia].
    destruct (Nat.eqb_spec (length l) (dependents_capacity c)); lia.
Qed.

Lemma edges_ok_add D p c l d :
  edges_ok D p c → dependents c = Some l → d ∈ D → d ∉ l → edges_ok D p (added c l d).
Proof.
  intros (H1 & H2 & H3) El Hd Hnew.
  split; [by apply within_capacity_added|]. split.
  - unfold added. destruct (dependents_capacity c =? 0)%nat.
    + intros l' d' [= <-] Hin. apply list_elem_of_singleton in Hin as ->. done.
    + intros l' d' [= <-] Hin. apply elem_of_app in Hin as [Hin|Hin]; [eauto|].
      apply list_elem_of_singleton in Hin as ->. done.
  - unfold added, placed. by destruct (dependents_capacity c =? 0)%nat.
Qed.

Lemma edges_ok_mono D D' p c : D ⊆ D' → edges_ok D p c → edges_ok D' p c.
Proof. intros Hsub (H1 & H2 & H3). split; [done|]. split; [|done]. intros l d El Hin. eauto. Qed.

Lemma edges_ok_freed D p c cap : edges_ok D p c → edges_ok D p (set_dependents c None cap).
Proof. intros (H1 & H2 & H3). split; [|split]; [intros l [=]|intros l d [=]|done]. Qed.

Lemma edges_ok_new D r c text : edges_ok D (r, c) (new_cell r c text).
Proof.
  split; [|split]; [|intros l d [= <-] Hin; by apply elem_of_nil in Hin|done].
  intros l [= <-]. done.
Qed.

Lemma reached_edges_ok ps st p cl :
  reached ps st → spreadsheet st !! p = Some cl → edges_ok (dom (spreadsheet st)) p cl.
Proof.
  intros Hr E.
  apply (reached_cells_ok edges_ok edges_ok_edges edges_ok_add edges_ok_mono
           edges_ok_freed edges_ok_new ps st Hr p cl E).
Qed.

Lemma reached_dom_eq ps st : reached ps st → dom (spreadsheet st) = list_to_set ps.
Proof.
  induction 1 as [|ps st r c text st' Hr IH Heq|ps st r c st' Hr IH Heq].
  - simpl. apply dom_empty_L.
  - rewrite (set_cell_value_dom _ _ _ _ _ Heq), IH. done.
  - pose proof (reached_cells_ok edges_ok edges_ok_edges edges_ok_add edges_ok_mono
                  edges_ok_freed edges_ok_new ps st Hr) as Hok.
    apply (returns_clear_cell edges_ok edges_ok_edges edges_ok_freed st r c Hok) in Heq
      as [_ Hd]. congruence.
Qed.

End Edges.

(** ** Types and contents *)

Section Types.
Context `{Libc}.

Lemma live_ok_value c t v : agrees t v → live_ok c → live_ok (set_content (set_type c t) v).
Proof.
  intros Ha Hl Hin. destruct (Hl Hin) as [_ Hd]. split; [|done].
  unfold content_agrees. simpl. destruct t, v; simpl in Ha; try done; eauto.
Qed.

Lemma live_ok_added c l d : dependents c = Some l → live_ok c → live_ok (added c l d).
Proof.
  intros El Hl. unfold added, live_ok, content_agrees.
  destruct (dependents_capacity c =? 0)%nat; simpl; intros Hin;
    (split; [apply (Hl Hin)|eauto]).
Qed.

Lemma evaluating_state cur D p c s : evaluating cur D p c → evaluating cur D p (set_state c s).
Proof. done. Qed.

Lemma evaluating_value cur D p c t v :
  agrees t v → evaluating cur D p c → evaluating cur D p (set_content (set_type c t) v).
Proof.
  intros Ha (H1 & H2 & H3). split; [done|]. split; [|by apply live_ok_value].
  intros _. simpl. destruct t, v; done.
Qed.

Lemma evaluating_add cur D p c l d :
  evaluating cur D p c → dependents c = Some l → d ∈ D → d ∉ l → evaluating cur D p (added c l d).
Proof.
  intros (H1 & H2 & H3) El _ _.
  assert (type (added c l d) = type c) as Hty.
  { unfold added. by destruct (dependents_capacity c =? 0)%nat. }
  split; [by rewrite Hty|]. split; [by rewrite Hty|by apply live_ok_added].
Qed.

Lemma at_rest_state D p c s : at_rest D p c → at_rest D p (set_state c s).
Proof. done. Qed.

Lemma at_rest_value D p c t v :
  agrees t v → at_rest D p c → at_rest D p (set_content (set_type c t) v).
Proof.
  intros Ha (H1 & H2 & H3). split; [done|]. split; [|by apply live_ok_value].
  simpl. destruct t, v; done.
Qed.

Lemma at_rest_add D p c l d :
  at_rest D p c → dependents c = Some l → d ∈ D → d ∉ l → at_rest D p (added c l d).
Proof.
  intros (H1 & H2 & H3) El _ _.
  assert (type (added c l d) = type c) as Hty.
  { unfold added. by destruct (dependents_capacity c =? 0)%nat. }
  split; [by rewrite Hty|]. split; [by rewrite Hty|by apply live_ok_added].
Qed.

Lemma cells_ok_insert (J : gset cellptr → cellptr → cell → Prop) (P : cellptr → cell → Prop)
    st p c1 :
  (∀ D q c, J D q c ↔ P q c) →
  (∀ q c, q ≠ p → spreadsheet st !! q = Some c → P q c) → P p c1 →
  cells_ok J (store st p c1).
Proof.
  intros HJ Hothers H1 q cq Eq. apply HJ. simpl in Eq.
  destruct (decide (q = p)) as [->|Hne].
  - rewrite lookup_insert_eq in Eq. injection Eq as <-. done.
  - rewrite lookup_insert_ne in Eq by done. auto.
Qed.

Lemma settled_set_cell_value st r c text :
  cells_ok at_rest st → returns (set_cell_value st r c text) (cells_ok at_rest).
Proof.
  intros Hok. unfold set_cell_value. apply returns_bind.
  eapply returns_mono; [apply returns_renew_cell|].
  intros [st1 current] (Hcur & c1 & [Hin Hc1] & Hst1). simpl in Hcur, Hst1. subst current st1.
  assert (is_Some (dependents c1)) as Hdeps.
  { destruct (spreadsheet st !! (r, c)) as [c0|] eqn:E0.
    - destruct Hc1 as ((_ & _ & -> & _) & _ & _ & _ & Hlive).
      destruct (Hok _ _ E0) as (_ & _ & Hl). by apply Hl.
    - subst c1. simpl. eauto. }
  assert (∀ q cq, q ≠ (r, c) → spreadsheet (store st (r, c) c1) !! q = Some cq → settled cq)
    as Hothers.
  { intros q cq Hne Eq. simpl in Eq. rewrite lookup_insert_ne in Eq by done.
    apply (Hok _ _ Eq). }
  case_bool_decide as Hformula.
  - apply returns_bind, returns_load. intros cur Ecur.
    assert (cur = c1) as -> by (simpl in Ecur; rewrite lookup_insert_eq in Ecur; congruence).
    set (st2 := store (store st (r, c) c1) (r, c) (declare_formula c1 text)).
    assert (cells_ok (evaluating (r, c)) st2) as Hok2.
    { apply (cells_ok_insert _ (λ p cl, evaluating (r, c) ∅ p cl)); [intros; reflexivity| |].
      - intros q cq Hne Eq. destruct (Hothers q cq Hne Eq) as (H1 & H2 & H3). done.
      - split; [done|]. split; [done|]. intros _. done. }
    apply returns_bind.
    eapply returns_mono;
      [apply (returns_evaluate_formula (evaluating (r, c)));
       eauto using evaluating_state, evaluating_value, evaluating_add|].
    intros [st3 v] [_ Hk3]. simpl in Hk3. specialize (Hk3 Hok2).
    assert (∀ q cq, q ≠ (r, c) → spreadsheet st3 !! q = Some cq → settled cq) as Hothers3.
    { intros q cq Hne Eq. destruct (Hk3 q cq Eq) as (H1 & H2 & H3). split; auto. }
    assert (∀ st4, keeps at_rest (store st3 (r, c) st4.1) st4.2 →
                   settled st4.1 → cells_ok at_rest st4.2) as Hrest.
    { intros [c4 st4] [_ Hk] H4. simpl in *. apply Hk.
      apply (cells_ok_insert _ (λ _ cl, settled cl)); [intros; reflexivity|done..]. }
    destruct (isnan v).
    + apply returns_bind, returns_load. intros cur3 E3.
      destruct (Hk3 _ _ E3) as (Hty3 & _ & Hl3).
      unfold type_is. case_bool_decide as Hf.
      * apply returns_bind, returns_deref. intros input Hinput. apply returns_ret.
        apply (Hrest (set_content (set_type cur3 ERROR) (text_value input), _));
          [by apply keeps_same|]. simpl.
        split; [done|]. split; [done|]. by apply live_ok_value.
      * apply returns_bind, returns_get_text. intros t _. apply returns_ret.
        intros q cq Eq. simpl in Eq.
        destruct (decide (q = (r, c))) as [->|Hne]; [|exact (Hothers3 q cq Hne Eq)].
        assert (cq = cur3) as -> by congruence. split; [done|]. split; [exact Hf|done].
    + apply returns_bind, returns_load. intros cur3 E3.
      destruct (Hk3 _ _ E3) as (Hty3 & _ & Hl3).
      eapply returns_mono;
        [apply (returns_update_dependencies at_rest);
         eauto using at_rest_state, at_rest_value, at_rest_add; apply keeps_refl|].
      intros st' [_ Hk]. apply Hk.
      intros q cq Eq. simpl in Eq. destruct (decide (q = (r, c))) as [->|Hne].
      * rewrite lookup_insert_eq in Eq. injection Eq as <-.
        split; [done|]. split; [done|]. intros Hi. destruct (Hl3 Hi) as [_ Hd].
        split; [|done]. unfold content_agrees. simpl. eauto.
      * rewrite lookup_insert_ne in Eq by done. exact (Hothers3 q cq Hne Eq).
  - apply returns_bind, returns_load. intros cur Ecur.
    assert (cur = c1) as -> by (simpl in Ecur; rewrite lookup_insert_eq in Ecur; congruence).
    destruct (strtod text) as [number rest].
    eapply returns_mono;
      [apply (returns_update_dependencies at_rest);
       eauto using at_rest_state, at_rest_value, at_rest_add; apply keeps_refl|].
    intros st' [_ Hk]. apply Hk.
    intros q cq Eq. simpl in Eq. destruct (decide (q = (r, c))) as [->|Hne].
    + rewrite lookup_insert_eq in Eq. injection Eq as <-.
      case_bool_decide; (split; [done|]; split; [done|]; intros _; split; [|done]);
        unfold content_agrees; simpl; eauto.
    + rewrite !lookup_insert_ne in Eq by done. apply (Hok _ _ Eq).
Qed.

Lemma settled_clear_cell st r c :
  cells_ok at_rest st → returns (clear_cell st r c) (cells_ok at_rest).
Proof.
  intros Hok st' Heq. unfold clear_cell in Heq.
  apply bind_Done in Heq as (current & Hfind & Heq).
  unfold find_cell in Hfind. destruct (spreadsheet st !! (r, c)) as [cl|] eqn:E; [|done].
  injection Hfind as <-.
  apply bind_Done in Heq as (cur & Hload & Heq).
  assert (cur = cl) as -> by (unfold load in Hload; rewrite E in Hload; simpl in Hload; congruence).
  apply bind_Done in Heq as (cur1 & H1 & Heq).
  apply bind_Done in Heq as (cur2 & H2 & Heq).
  apply bind_Done in Heq as (input & _ & Heq). injection Heq as <-.
  destruct (Hok _ _ E) as (Hty & Hnf & _).
  assert (type cur1 = type cl) as Hty1.
  { destruct (type_is cl FORMULA).
    - apply bind_Done in H1 as (? & _ & [= <-]). done.
    - destruct (type_is cl TEXT || type_is cl ERROR).
      + apply bind_Done in H1 as (? & _ & [= <-]). done.
      + injection H1 as <-. done. }
  assert (type cur2 = type cur1) as Hty2.
  { destruct (dependents_capacity cur1 =? 0)%nat.
    - injection H2 as <-. done.
    - apply bind_Done in H2 as (? & _ & [= <-]). done. }
  intros q cq Eq. simpl in Eq. destruct (decide (q = (r, c))) as [->|Hne].
  - rewrite lookup_insert_eq in Eq. injection Eq as <-.
    split; [simpl; congruence|]. split; [simpl; congruence|].
    intros [x Hx]. done.
  - rewrite lookup_insert_ne in Eq by done. apply (Hok _ _ Eq).
Qed.

Lemma reached_settled ps st p cl :
  reached ps st → spreadsheet st !! p = Some cl → settled cl.
Proof.
  intros Hr. revert p cl.
  induction Hr as [|ps st r c text st' Hr IH Heq|ps st r c st' Hr IH Heq].
  - intros p cl E. simpl in E. by rewrite lookup_empty in E.
  - exact (settled_set_cell_value st r c text IH st' Heq).
  - exact (settled_clear_cell st r c IH st' Heq).
Qed.

End Types.

(** ** Edges, inputs and cleared cells *)

Section More.
Context `{Libc}.
Local Open Scope list_scope.

Lemma grown_edges m0 D p c c' : same_edges c c' → grown m0 D p c → grown m0 D p c'.
Proof.
  intros (Hr & Hc & Hd & Hcap) [H1 H2]. unfold grown, within_capacity, edges_kept.
  rewrite Hd, Hcap. done.
Qed.

Lemma grown_add m0 D p c l d :
  grown m0 D p c → dependents c = Some l → d ∈ D → d ∉ l → grown m0 D p (added c l d).
Proof.
  intros [H1 H2] El Hd Hnew. split.
  - by apply within_capacity_added.
  - intros c0 E0 l0 El0. destruct (H2 c0 E0 l0 El0) as (l' & El' & Hpre).
    assert (l' = l) as -> by congruence. destruct (H1 l El) as [_ Hzero].
    unfold added. destruct (Nat.eqb_spec (dependents_capacity c) 0) as [Hcap|Hcap]; simpl.
    + eexists. split; [done|]. rewrite (Hzero Hcap) in Hpre.
      apply prefix_nil_inv in Hpre as ->. apply prefix_nil.
    + eexists. split; [done|]. by apply prefix_app_r.
Qed.

Lemma grown_mono m0 D D' p c : D ⊆ D' → grown m0 D p c → grown m0 D' p c.
Proof. done. Qed.

Lemma set_cell_value_edges_kept ps st r c text st' p cl :
  reached ps st → set_cell_value st r c text = Done st' →
  spreadsheet st !! p = Some cl →
  ∃ cl', spreadsheet st' !! p = Some cl' ∧ edges_kept cl cl'.
Proof.
  intros Hr Heq E.
  assert (cells_ok (grown (spreadsheet st)) st) as Hok.
  { intros q cq Eq. split; [apply (reached_edges_ok ps st q cq Hr Eq)|].
    intros c0 E0 l0 El0. assert (c0 = cq) as -> by congruence. eauto. }
  apply (returns_set_cell_value (grown (spreadsheet st)) (grown_edges _) (grown_add _)
           (grown_mono _) st r c text) in Heq as [Hok' Hdom]; [|
    intros Enone; split; [apply (edges_ok_new ∅ r c text)|]; intros c0 E0; congruence|done].
  assert (p ∈ dom (spreadsheet st')) as Hin.
  { rewrite Hdom. apply elem_of_union_r, elem_of_dom. eauto. }
  apply elem_of_dom in Hin as [cl' E']. exists cl'. split; [done|].
  apply (Hok' p cl' E'). done.
Qed.

(** *** get_textual_value *)

Lemma get_textual_value_same st st' r c :
  (spreadsheet st !! (r, c) = None → spreadsheet st' !! (r, c) = None) →
  (∀ cl, spreadsheet st !! (r, c) = Some cl →
         ∃ cl', spreadsheet st' !! (r, c) = Some cl' ∧ original_input cl' = original_input cl) →
  get_textual_value st' r c = get_textual_value st r c.
Proof.
  intros Hnone Hsome. unfold get_textual_value, find_cell, load.
  destruct (spreadsheet st !! (r, c)) as [cl|] eqn:E.
  - destruct (Hsome cl eq_refl) as (cl' & E' & Hin). rewrite E'. simpl. rewrite E'. simpl.
    rewrite Hin, E. done.
  - rewrite Hnone by done. done.
Qed.

Lemma frame_same_text K m m' p c c' :
  frame K m m' → m !! p = Some c → m' !! p = Some c' → same_text c c'.
Proof.
  intros Hf E E'. destruct (frame_lookup _ _ _ _ _ Hf E) as (c2 & E2 & Hk & _).
  assert (c2 = c') as -> by congruence.
  split; [apply Hk|]. split; [apply Hk|]. split; apply Hk.
Qed.

Lemma set_cell_value_elsewhere st r c text st' p :
  set_cell_value st r c text = Done st' → p ≠ (r, c) →
  (spreadsheet st !! p = None → spreadsheet st' !! p = None) ∧
  ∀ cl, spreadsheet st !! p = Some cl →
        ∃ cl', spreadsheet st' !! p = Some cl' ∧ same_text cl cl'.
Proof.
  intros Heq Hne.
  destruct (wp_Done _ _ _ (wp_set_cell_value st r c text) Heq) as (c1 & _ & _ & Hf).
  split.
  - intros E. apply (frame_lookup_None _ _ _ _ Hf). by rewrite lookup_insert_ne.
  - intros cl E. assert (<[(r, c) := c1]> (spreadsheet st) !! p = Some cl) as E1
      by by rewrite lookup_insert_ne.
    destruct (frame_lookup _ _ _ _ _ Hf E1) as (cl' & E' & _).
    exists cl'. split; [done|]. eapply frame_same_text; eauto.
Qed.

Lemma clear_cell_elsewhere st r c st' p :
  clear_cell st r c = Done st' → p ≠ (r, c) → spreadsheet st' !! p = spreadsheet st !! p.
Proof.
  intros Heq Hne.
  destruct (wp_Done _ _ _ (wp_clear_cell st r c) Heq) as (cl & cl' & _ & -> & _).
  by rewrite lookup_insert_ne.
Qed.

(** *** After clear_cell *)

(** clear_cell, with what it does to the cell it found set apart. *)
Lemma clear_cell_clear_buffers st r c :
  clear_cell st r c
  = current ← deref (find_cell st r c);
    cur ← load st current;
    cur3 ← Chained.clear_buffers cur;
    mret (update_cell_display (store st current cur3) r c "").
Proof.
  unfold clear_cell, Chained.clear_buffers.
  destruct (find_cell st r c) as [current|]; simpl; [|done].
  destruct (load st current) as [cur| |]; simpl; [|done..].
  destruct (if type_is cur FORMULA then _ else _) as [cur1| |]; simpl; [|done..].
  destruct (if (dependents_capacity cur1 =? 0)%nat then _ else _) as [cur2| |]; simpl; [|done..].
  destruct (deref (original_input cur2)); done.
Qed.

Lemma clear_cell_input st r c st' :
  clear_cell st r c = Done st' →
  ∃ cl', spreadsheet st' !! (r, c) = Some cl' ∧ original_input cl' = None.
Proof.
  intros Heq. unfold clear_cell in Heq.
  apply bind_Done in Heq as (current & Hfind & Heq).
  unfold find_cell in Hfind. destruct (spreadsheet st !! (r, c)) as [cl|] eqn:E; [|done].
  injection Hfind as <-.
  apply bind_Done in Heq as (cur & _ & Heq).
  apply bind_Done in Heq as (cur1 & _ & Heq).
  apply bind_Done in Heq as (cur2 & _ & Heq).
  apply bind_Done in Heq as (input & _ & Heq). injection Heq as <-.
  eexists. split; [apply lookup_insert_eq|done].
Qed.

Lemma cleared_faults st r c cl :
  spreadsheet st !! (r, c) = Some cl → original_input cl = None →
  get_textual_value st r c = Fault ∧ clear_cell st r c = Fault ∧
  ∀ text, set_cell_value st r c text = Fault.
Proof.
  intros E Hin. split; [|split].
  - unfold get_textual_value, find_cell, load. repeat (rewrite E; simpl). by rewrite Hin.
  - unfold clear_cell, find_cell, load. repeat (rewrite E; simpl).
    assert (∀ (m : outcome cell) (k : cell → outcome model),
              (∀ x, m = Done x → k x = Fault) → m ≠ OutOfFuel → m ≫= k = Fault) as Hbind.
    { intros [x| |] k Hk Hm; simpl; auto. done. }
    apply Hbind.
    + intros cur1 H1. apply Hbind.
      * intros cur2 H2.
        assert (original_input cur2 = None) as ->; [|done].
        assert (original_input cur1 = None) as Hin1.
        { destruct (type_is cl FORMULA).
          - apply bind_Done in H1 as (? & _ & [= <-]). done.
          - destruct (type_is cl TEXT || type_is cl ERROR).
            + apply bind_Done in H1 as (? & _ & [= <-]). done.
            + injection H1 as <-. done. }
        destruct (dependents_capacity cur1 =? 0)%nat.
        -- injection H2 as <-. done.
        -- apply bind_Done in H2 as (? & _ & [= <-]). done.
      * destruct (dependents_capacity cur1 =? 0)%nat; [done|].
        by destruct (dependents cur1).
    + destruct (type_is cl FORMULA); [by destruct (formula cl)|].
      destruct (type_is cl TEXT || type_is cl ERROR); [by destruct (content cl)|done].
  - intros text. unfold set_cell_value, renew_cell, find_cell, load.
    repeat (rewrite E; simpl). by rewrite Hin.
Qed.

(** *** Literal input *)

(** X17.  On a reached state, set_cell_value with a text that does not
    start with '=' leaves the cell of type NUMBER with the value of
    strtod when strtod consumes the whole text, and of type TEXT with
    the text otherwise; the update of the dependents does not change
    that. *)
Theorem literal_input_is_number_or_text ps st r c text st' :
  reached ps st → token_head text ≠ 61 → set_cell_value st r c text = Done st' →
  kind_of st' r c
  = Some (if bool_decide ((strtod text).2 = "") then (Some NUMBER, number_value (strtod text).1)
          else (Some TEXT, text_value text)).
Proof.
  intros Hr Hhead Heq. unfold set_cell_value in Heq.
  apply bind_Done in Heq as ([st1 current] & Hrenew & Heq).
  destruct (wp_Done _ _ _ (wp_renew_cell st r c text) Hrenew)
    as (Hcur & c1 & Hsp1 & _ & _ & Hin1 & Hdep1). simpl in Hcur, Hsp1. subst current.
  rewrite bool_decide_eq_false_2 in Heq by done.
  apply bind_Done in Heq as (cur & Hload & Heq).
  assert (cur = c1) as ->.
  { unfold load in Hload. rewrite Hsp1, lookup_insert_eq in Hload. simpl in Hload. congruence. }
  destruct (strtod text) as [number rest]. simpl.
  set (cur1 := if bool_decide (rest = "")
               then set_content (set_type c1 NUMBER) (number_value number)
               else set_content (set_type c1 TEXT) (text_value text)) in Heq.
  assert (self_free (r, c) cur1) as Hfree.
  { intros l El Hin. apply (reached_self_free ps st Hr (r, c)).
    assert (dependents c1 = Some l) as El1 by (subst cur1; by case_bool_decide).
    rewrite Hdep1 in El1. destruct (spreadsheet st !! (r, c)) as [c0|] eqn:E0.
    - exists c0, l. done.
    - injection El1 as <-. by apply elem_of_nil in Hin. }
  assert (type cur1 ≠ Some FORMULA) as Hty1 by (subst cur1; by case_bool_decide).
  eapply wp_Done in Heq;
    [|eapply (wp_update_dependencies_keeps _ (r, c) cur1);
      [simpl; apply lookup_insert_eq|exact Hfree|exact Hty1]].
  destruct Heq as (c' & E' & _ & Hty & Hct). unfold kind_of. rewrite E'. simpl.
  rewrite Hty, Hct. subst cur1. by case_bool_decide.
Qed.

(** *** What evaluation and propagation leave alone *)

Lemma frame_texts K st st' :
  mframe K st st' →
  dom (spreadsheet st') = dom (spreadsheet st) ∧
  ∀ p cl cl', spreadsheet st !! p = Some cl → spreadsheet st' !! p = Some cl' → same_text cl cl'.
Proof. intros Hf. split; [by eapply frame_dom|]. intros p cl cl'. by eapply frame_same_text. Qed.

End More.

(** ** The first token of a formula *)

Section Tokens.
Context `{Libc}.
Local Open Scope list_scope.

Lemma strtok_from_nonempty delim buf off tok save :
  strtok_from delim buf 0 = (Some (off, tok), save) →
  ∃ n, String.length buf = S n ∧ tok_buf save = buf.
Proof.
  intros Heq. pose proof (strtok_from_spec delim buf 0) as Hs. rewrite Heq in Hs.
  destruct (String.length buf) as [|n] eqn:El; [lia|]. exists n. split; [done|].
  unfold strtok_from in Heq.
  destruct (string_drop _ _); [done|]. destruct (span_token _ _). by injection Heq as _ _ <-.
Qed.

(** The call of evaluate_formula in set_cell_value, up to the first
    token. *)
Lemma set_cell_value_formula st r c text st1 :
  token_head text = 61 → renew_cell st r c text = Done (st1, (r, c)) →
  ∃ c1, spreadsheet st1 = <[(r, c) := c1]> (spreadsheet st) ∧
        original_input c1 = Some text ∧
        set_cell_value st r c text
        = '(st3, formula_result) ←
            evaluate_formula (store st1 (r, c) (declare_formula c1 text)) (r, c)
              (Some (token_tail text));
          if isnan formula_result then
            cur3 ← load st3 (r, c);
            if type_is cur3 FORMULA then
              input ← deref (original_input cur3);
              let cur4 := set_content (set_type cur3 ERROR) (text_value input) in
              mret (update_cell_display (store st3 (r, c) cur4) r c input)
            else
              t ← get_text (content cur3);
              mret (update_cell_display st3 r c t)
          else
            cur3 ← load st3 (r, c);
            let st4 := update_cell_display (store st3 (r, c) (assign_number cur3 formula_result))
                         r c (snprintf_1f formula_result) in
            update_dependencies st4 (r, c).
Proof.
  intros Hhead Hrenew.
  destruct (wp_Done _ _ _ (wp_renew_cell st r c text) Hrenew)
    as (_ & c1 & Hsp1 & _ & _ & Hin1 & _). simpl in Hsp1.
  exists c1. split; [done|]. split; [done|].
  unfold set_cell_value. rewrite Hrenew. simpl.
  rewrite bool_decide_eq_true_2 by done.
  assert (load st1 (r, c) = Done c1) as ->
    by (unfold load; rewrite Hsp1, lookup_insert_eq; done).
  reflexivity.
Qed.

(** evaluate_formula on a cell whose formula starts with the token
    [tok]: the mark, and the first turn of the loop. *)
Lemma evaluate_formula_first st cur ccur g f off tok save :
  spreadsheet st !! cur = Some ccur → formula ccur = Some f →
  strtok_from "+"%char f 0 = (Some (off, tok), save) →
  ∃ n,
  evaluate_formula st cur g
  = t ← token_turn (evaluate_formula_depth (size (spreadsheet st)))
         (mkmodel (<[cur := set_state ccur VISITING]> (spreadsheet st)) save (display st))
         cur 0 None tok;
    s ← match t with
        | Continue st1 result1 result_str1 =>
            let '(token1, st2) := call_strtok None st1 in
            token_loop (evaluate_formula_depth (size (spreadsheet st))) n st2 cur
              result1 result_str1 token1
        | Break st1 result1 result_str1 => mret (Scanned st1 result1 result_str1)
        | Return st1 v => mret (Returned st1 v)
        end;
    match s with
    | Returned st1 v => mret (st1, v)
    | Scanned st1 result result_str => resolve st1 cur result result_str
    end.
Proof.
  intros E Hf Htok. destruct (strtok_from_nonempty _ _ _ _ _ Htok) as (n & Hlen & _).
  exists n. unfold evaluate_formula. simpl. unfold evaluate_formula_body at 1.
  unfold scan_formula, set_cell_state, load. rewrite E. simpl.
  rewrite lookup_insert_eq. simpl. rewrite Hf. simpl.
  unfold call_strtok, strtok. simpl. rewrite Htok, Hlen. simpl.
  destruct (token_turn _ _ _ _ _ _) as [[]| |]; reflexivity.
Qed.

Lemma fail_with_eq st cur c msg :
  spreadsheet st !! cur = Some c →
  fail_with st cur msg
  = Done (Return
            (mkmodel
               (<[cur := set_state (set_content (set_type c ERROR) (text_value msg)) UNVISITED]>
                  (spreadsheet st))
               (strtok_save st) (display st ++ [(row c, col c, msg)])) NAN).
Proof.
  intros E. unfold fail_with, set_error_and_update, set_cell_state, load. rewrite E. simpl.
  rewrite lookup_insert_eq. simpl. unfold store. simpl. rewrite insert_insert_eq. done.
Qed.

(** The end of set_cell_value when the evaluation fails on the first
    token with the message [msg]. *)
Lemma set_cell_value_fails st r c text st1 off tok save msg :
  token_head text = 61 → renew_cell st r c text = Done (st1, (r, c)) →
  strtok_from "+"%char (token_tail text) 0 = (Some (off, tok), save) →
  (∀ st2 cur2, spreadsheet st2 !! (r, c) = Some cur2 → state cur2 = VISITING →
               strtok_save st2 = save →
               (∀ q, q ≠ (r, c) → spreadsheet st2 !! q = spreadsheet st1 !! q) →
               token_turn (evaluate_formula_depth (size (spreadsheet st2))) st2 (r, c) 0 None
                 tok
               = fail_with st2 (r, c) msg) →
  ∃ st', set_cell_value st r c text = Done st' ∧
         visit_state st' (r, c) = Some UNVISITED ∧ view st' r c = is_error msg.
Proof.
  intros Hhead Hrenew Htok Hturn.
  destruct (set_cell_value_formula st r c text st1 Hhead Hrenew) as (c1 & Hsp1 & Hin1 & ->).
  set (c2 := declare_formula c1 text).
  destruct (evaluate_formula_first (store st1 (r, c) c2) (r, c) c2 (Some (token_tail text))
              (token_tail text) off tok save) as (n & ->);
    [simpl; apply lookup_insert_eq|done|done|].
  match goal with |- context [token_turn ?e ?s _ _ _ _] => set (st2 := s) end.
  assert (size (spreadsheet (store st1 (r, c) c2)) = size (spreadsheet st2)) as Hsize.
  { rewrite <- !size_dom. f_equal. subst st2. simpl.
    rewrite !dom_insert_L. set_solver. }
  rewrite Hsize, (Hturn st2 (set_state c2 VISITING));
    [|subst st2; simpl; apply lookup_insert_eq|done|done|
      intros q Hq; subst st2; simpl; by rewrite !lookup_insert_ne].
  erewrite fail_with_eq by (subst st2; simpl; apply lookup_insert_eq).
  simpl. unfold load. simpl. rewrite lookup_insert_eq. simpl.
  eexists. split; [reflexivity|]. split.
  - unfold visit_state. simpl. rewrite lookup_insert_eq. done.
  - unfold view, displayed, kind_of. simpl. rewrite lookup_insert_eq, last_shown_snoc. done.
Qed.

(** The end of set_cell_value when the first turn of the loop has
    undefined behaviour. *)
Lemma set_cell_value_faults st r c text st1 off tok save :
  token_head text = 61 → renew_cell st r c text = Done (st1, (r, c)) →
  strtok_from "+"%char (token_tail text) 0 = (Some (off, tok), save) →
  (∀ e st2, token_turn e st2 (r, c) 0 None tok = Fault) →
  set_cell_value st r c text = Fault.
Proof.
  intros Hhead Hrenew Htok Hturn.
  destruct (set_cell_value_formula st r c text st1 Hhead Hrenew) as (c1 & Hsp1 & Hin1 & ->).
  set (c2 := declare_formula c1 text).
  destruct (evaluate_formula_first (store st1 (r, c) c2) (r, c) c2 (Some (token_tail text))
              (token_tail text) off tok save) as (n & ->);
    [simpl; apply lookup_insert_eq|done|done|].
  rewrite Hturn. done.
Qed.

(** A reference whose row is an int: the turn of the loop on the
    position it names. *)
Lemma reference_turn_named e st cur result result_str tok p :
  referenced tok = Some p →
  reference_turn e st cur result result_str tok
  = match spreadsheet st !! p with
    | None => fail_with st cur "ERROR: invalid cell reference"
    | Some _ =>
        cl ← load st p;
        if bool_decide (state cl = VISITING) then
          fail_with st cur "ERROR: circular dependency"
        else
          acc ← accumulate e st cur p cl result result_str;
          match acc with
          | Continue st1 result1 result_str1 =>
              register_dependent st1 cur p result1 result_str1
          | other => mret other
          end
    end.
Proof.
  unfold referenced, reference_turn, find_cell. intros Href.
  destruct (int_sub _ _) as [r0| |]; [|done..]. injection Href as <-. simpl.
  by destruct (spreadsheet st !! _).
Qed.

(** C6.  A formula whose first token does not start with a letter, as
    the numeric literal 5 of "=5+7": evaluate_formula hands the pointer
    [token], not the character [token[0]], to isdigit.  The behaviour of
    that call is undefined, so set_cell_value has no defined outcome:
    the literal is not added to the sum, and the cell does not become
    a Number. *)
Theorem numeric_literal_is_undefined st r c text st1 off tok save :
  token_head text = 61 → renew_cell st r c text = Done (st1, (r, c)) →
  strtok_from "+"%char (token_tail text) 0 = (Some (off, tok), save) →
  isalpha (token_head tok) = false →
  set_cell_value st r c text = Fault.
Proof.
  intros Hhead Hrenew Htok Halpha.
  eapply set_cell_value_faults; [done..|].
  intros e st2. unfold token_turn. rewrite Halpha. done.
Qed.

(** X20.  When the first token of a formula starts with a letter and
    names a position without a cell, set_cell_value leaves the cell of
    type ERROR with the message "ERROR: invalid cell reference", shows
    that message, and resets the mark. *)
Theorem formula_that_names_no_cell st r c text st1 off tok save p :
  token_head text = 61 → renew_cell st r c text = Done (st1, (r, c)) →
  strtok_from "+"%char (token_tail text) 0 = (Some (off, tok), save) →
  isalpha (token_head tok) = true → referenced tok = Some p →
  spreadsheet st1 !! p = None →
  ∃ st', set_cell_value st r c text = Done st' ∧
         visit_state st' (r, c) = Some UNVISITED ∧
         view st' r c = is_error "ERROR: invalid cell reference".
Proof.
  intros Hhead Hrenew Htok Halpha Href Hop.
  destruct (wp_Done _ _ _ (wp_renew_cell st r c text) Hrenew)
    as (_ & c1 & Hsp1 & _). simpl in Hsp1.
  eapply set_cell_value_fails; [done..|].
  intros st2 cur2 E2 Hvis Hsave Hsame. unfold token_turn. rewrite Halpha.
  rewrite (reference_turn_named _ _ _ _ _ _ _ Href).
  rewrite Hsame, Hop; [done|]. intros ->. rewrite Hsp1, lookup_insert_eq in Hop. done.
Qed.

(** X26.  When the first token of a formula starts with a letter and
    atoi reads INT_MIN behind the letter, the subtraction
    atoi(token + 1) - 1 overflows the type int: the behaviour of
    set_cell_value is undefined. *)
Theorem reference_row_overflows st r c text st1 off tok save :
  token_head text = 61 → renew_cell st r c text = Done (st1, (r, c)) →
  strtok_from "+"%char (token_tail text) 0 = (Some (off, tok), save) →
  isalpha (token_head tok) = true → atoi (token_tail tok) = INT_MIN →
  set_cell_value st r c text = Fault.
Proof.
  intros Hhead Hrenew Htok Halpha Hmin.
  eapply set_cell_value_faults; [done..|].
  intros e st2. unfold token_turn. rewrite Halpha.
  unfold reference_turn, int_sub. rewrite Hmin. done.
Qed.

(** X21.  When the first token of a formula names the cell that the
    formula is set in, set_cell_value leaves the cell of type ERROR
    with the message "ERROR: circular dependency", shows that message,
    and resets the mark. *)
Theorem formula_that_names_its_own_cell st r c text st1 off tok save :
  token_head text = 61 → renew_cell st r c text = Done (st1, (r, c)) →
  strtok_from "+"%char (token_tail text) 0 = (Some (off, tok), save) →
  isalpha (token_head tok) = true → referenced tok = Some (r, c) →
  ∃ st', set_cell_value st r c text = Done st' ∧
         visit_state st' (r, c) = Some UNVISITED ∧
         view st' r c = is_error "ERROR: circular dependency".
Proof.
  intros Hhead Hrenew Htok Halpha Hself.
  eapply set_cell_value_fails; [done..|].
  intros st2 cur2 E2 Hvis Hsave Hsame. unfold token_turn. rewrite Halpha.
  rewrite (reference_turn_named _ _ _ _ _ _ _ Hself), E2. simpl.
  unfold load. rewrite E2. simpl. rewrite bool_decide_eq_true_2 by done. done.
Qed.

(** evaluate_formula on a cell whose formula is one token that names
    another cell, a Number that is not under evaluation: the value is
    added to 0, the cell is registered with the cell it names, and the
    mark is reset. *)
Lemma evaluate_single_number st cur ccur g f off tok save save' p ct v l :
  spreadsheet st !! cur = Some ccur → formula ccur = Some f →
  strtok_from "+"%char f 0 = (Some (off, tok), save) →
  strtok_from "+"%char f (tok_pos save) = (None, save') →
  isalpha (token_head tok) = true → referenced tok = Some p → p ≠ cur →
  spreadsheet st !! p = Some ct → state ct = UNVISITED →
  type ct = Some NUMBER → content ct = number_value v → dependents ct = Some l →
  evaluate_formula st cur g
  = Done (mkmodel
            (<[cur := set_state ccur UNVISITED]>
               (if bool_decide (cur ∈ l) then spreadsheet st
                else <[p := added ct l cur]> (spreadsheet st)))
            save' (display st),
          (0 + v)%float).
Proof.
  intros E Hf Htok Hnext Halpha Href Hne Et Hst Hty Hct Hl.
  destruct (strtok_from_nonempty _ _ _ _ _ Htok) as (n0 & _ & Hbuf).
  destruct (evaluate_formula_first st cur ccur g f off tok save E Hf Htok) as (n & ->).
  unfold token_turn. rewrite Halpha. rewrite (reference_turn_named _ _ _ _ _ _ _ Href).
  simpl. rewrite lookup_insert_ne by done. rewrite Et. simpl.
  unfold load at 1. simpl. rewrite lookup_insert_ne by done. rewrite Et. simpl.
  rewrite bool_decide_eq_false_2 by (rewrite Hst; done).
  unfold accumulate, type_is. rewrite Hty.
  rewrite bool_decide_eq_true_2 by done. rewrite Hct. simpl.
  unfold register_dependent, load. simpl. rewrite lookup_insert_ne by done. rewrite Et. simpl.
  rewrite Hl. simpl.
  assert (call_strtok None
            (mkmodel (<[cur := set_state ccur VISITING]> (spreadsheet st)) save (display st))
          = (None, mkmodel (<[cur := set_state ccur VISITING]> (spreadsheet st)) save'
                     (display st))) as Hcall1.
  { unfold call_strtok, strtok. simpl. rewrite Hbuf, Hnext. done. }
  case_bool_decide as Hin; simpl.
  - rewrite lookup_insert_ne by done. rewrite Et. simpl. unfold type_is. rewrite Hty.
    rewrite bool_decide_eq_false_2 by done. simpl. rewrite Hcall1.
    assert (∀ m (k : scan → outcome (model * float)) st0 r0,
              token_loop m n st0 cur r0 None None ≫= k = k (Scanned st0 r0 None)) as Hloop
      by (by destruct n).
    rewrite Hloop. unfold resolve, set_cell_state, load. simpl. rewrite lookup_insert_eq. simpl.
    unfold store. simpl. rewrite insert_insert_eq. done.
  - unfold add_dependent, added, load. simpl. rewrite lookup_insert_ne by done. rewrite Et. simpl.
    assert (∀ m (k : scan → outcome (model * float)) st0 r0,
              token_loop m n st0 cur r0 None None ≫= k = k (Scanned st0 r0 None)) as Hloop
      by (by destruct n).
    destruct (dependents_capacity ct =? 0)%nat; simpl.
    + rewrite lookup_insert_eq. simpl. unfold type_is. simpl. rewrite Hty.
      rewrite bool_decide_eq_false_2 by done. simpl.
      unfold call_strtok, strtok. simpl. rewrite Hbuf, Hnext. rewrite Hloop.
      unfold resolve, set_cell_state, load. simpl.
      rewrite lookup_insert_ne, lookup_insert_eq by done. simpl.
      unfold store. simpl. f_equal. f_equal. f_equal.
      rewrite (insert_insert_ne _ p cur) by done.
      rewrite insert_insert_eq. done.
    + rewrite Hl. simpl. rewrite lookup_insert_eq. simpl. unfold type_is. simpl. rewrite Hty.
      rewrite bool_decide_eq_false_2 by done. simpl.
      unfold call_strtok, strtok. simpl. rewrite Hbuf, Hnext. rewrite Hloop.
      unfold resolve, set_cell_state, load. simpl.
      rewrite lookup_insert_ne, lookup_insert_eq by done. simpl.
      unfold store. simpl. f_equal. f_equal. f_equal.
      rewrite (insert_insert_ne _ p cur) by done.
      rewrite insert_insert_eq. done.
Qed.

Lemma evaluate_formula_empty st cur ccur g f save :
  spreadsheet st !! cur = Some ccur → formula ccur = Some f →
  strtok_from "+"%char f 0 = (None, save) →
  evaluate_formula st cur g
  = Done (mkmodel (<[cur := set_state ccur UNVISITED]> (spreadsheet st)) save (display st),
          0%float).
Proof.
  intros E Hf Htok. unfold evaluate_formula. simpl. unfold evaluate_formula_body.
  unfold scan_formula, set_cell_state, load. rewrite E. simpl.
  rewrite lookup_insert_eq. simpl. rewrite Hf. simpl.
  unfold call_strtok, strtok. simpl. rewrite Htok.
  assert (∀ m n (k : scan → outcome (model * float)) st0 r0,
            token_loop m n st0 cur r0 None None ≫= k = k (Scanned st0 r0 None)) as Hloop
    by (by intros m []).
  rewrite Hloop. unfold resolve, set_cell_state, load. simpl. rewrite lookup_insert_eq. simpl.
  unfold store. simpl. rewrite insert_insert_eq. done.
Qed.

(** The end of set_cell_value when the evaluation returns a number. *)
Lemma set_cell_value_number st r c text st1 c1 st3 v cur3 :
  token_head text = 61 → renew_cell st r c text = Done (st1, (r, c)) →
  spreadsheet st1 !! (r, c) = Some c1 →
  evaluate_formula (store st1 (r, c) (declare_formula c1 text)) (r, c)
    (Some (token_tail text)) = Done (st3, v) →
  isnan v = false → spreadsheet st3 !! (r, c) = Some cur3 → state cur3 = UNVISITED →
  ∃ st4, set_cell_value st r c text = update_dependencies st4 (r, c) ∧
         spreadsheet st4 = <[(r, c) := assign_number cur3 v]> (spreadsheet st3) ∧
         visit_state st4 (r, c) = Some UNVISITED ∧
         view st4 r c = is_number v (snprintf_1f v).
Proof.
  intros Hhead Hrenew E1 Heval Hnan E3 Hst.
  destruct (set_cell_value_formula st r c text st1 Hhead Hrenew) as (c0 & Hsp1 & Hin1 & ->).
  assert (c0 = c1) as -> by (rewrite Hsp1, lookup_insert_eq in E1; congruence).
  rewrite Heval. simpl. rewrite Hnan. unfold load. rewrite E3. simpl.
  eexists. split; [reflexivity|]. split; [done|]. split.
  - unfold visit_state. simpl. rewrite lookup_insert_eq. simpl. by rewrite Hst.
  - unfold view, displayed, kind_of. simpl. rewrite lookup_insert_eq, last_shown_snoc. done.
Qed.

(** X22.  A formula without a token ("=", or '=' followed by '+'
    signs only) makes the cell the Number 0, shown in "%.1f" form,
    before the dependents are updated. *)
Theorem formula_without_operands st r c text st1 save :
  token_head text = 61 → renew_cell st r c text = Done (st1, (r, c)) →
  strtok_from "+"%char (token_tail text) 0 = (None, save) →
  ∃ st4, set_cell_value st r c text = update_dependencies st4 (r, c) ∧
         visit_state st4 (r, c) = Some UNVISITED ∧
         view st4 r c = is_number 0 (snprintf_1f 0).
Proof.
  intros Hhead Hrenew Htok.
  destruct (wp_Done _ _ _ (wp_renew_cell st r c text) Hrenew)
    as (_ & c1 & Hsp1 & _). simpl in Hsp1.
  assert (spreadsheet st1 !! (r, c) = Some c1) as E1 by (rewrite Hsp1; apply lookup_insert_eq).
  edestruct (set_cell_value_number st r c text st1 c1) as (st4 & Heq & _ & Hvis & Hview);
    [done|done|done| | | | |eauto].
  - eapply evaluate_formula_empty; [simpl; apply lookup_insert_eq|done..].
  - done.
  - simpl. apply lookup_insert_eq.
  - done.
Qed.

(** X23.  A formula of one token that names another cell, a Number
    that is not under evaluation, makes the cell the Number 0 + v for
    the value v of that cell when 0 + v is not NaN, shown in "%.1f"
    form, and registers the cell as a dependent of the cell it names
    unless it is one already; then the dependents are updated. *)
Theorem formula_that_names_a_number st r c text st1 off tok save save' p ct v l :
  token_head text = 61 → renew_cell st r c text = Done (st1, (r, c)) →
  strtok_from "+"%char (token_tail text) 0 = (Some (off, tok), save) →
  strtok_from "+"%char (token_tail text) (tok_pos save) = (None, save') →
  isalpha (token_head tok) = true → referenced tok = Some p → p ≠ (r, c) →
  spreadsheet st !! p = Some ct → state ct = UNVISITED →
  type ct = Some NUMBER → content ct = number_value v → dependents ct = Some l →
  isnan (0 + v) = false →
  ∃ st4, set_cell_value st r c text = update_dependencies st4 (r, c) ∧
         visit_state st4 (r, c) = Some UNVISITED ∧
         view st4 r c = is_number (0 + v) (snprintf_1f (0 + v)) ∧
         spreadsheet st4 !! p
         = Some (if bool_decide ((r, c) ∈ l) then ct else added ct l (r, c)).
Proof.
  intros Hhead Hrenew Htok Hnext Halpha Href Hne Et Hst Hty Hct Hl Hnan.
  destruct (wp_Done _ _ _ (wp_renew_cell st r c text) Hrenew)
    as (_ & c1 & Hsp1 & _). simpl in Hsp1.
  assert (spreadsheet st1 !! (r, c) = Some c1) as E1 by (rewrite Hsp1; apply lookup_insert_eq).
  edestruct (set_cell_value_number st r c text st1 c1) as (st4 & Heq & Hsp4 & Hvis & Hview);
    [done|done|done| |exact Hnan| | |].
  - eapply (evaluate_single_number _ (r, c) (declare_formula c1 text) _ (token_tail text));
      [simpl; apply lookup_insert_eq|done|done|done|done|done|done| |done..].
    simpl. rewrite lookup_insert_ne, Hsp1, lookup_insert_ne by done. exact Et.
  - simpl. apply lookup_insert_eq.
  - done.
  - exists st4. split; [done|]. split; [done|]. split; [done|].
    rewrite Hsp4. simpl. rewrite !lookup_insert_ne by done.
    case_bool_decide.
    + rewrite lookup_insert_ne, Hsp1, lookup_insert_ne by done. by rewrite Et.
    + by rewrite lookup_insert_eq.
Qed.

Lemma update_dependencies_loop_end n st cur ccur l i :
  spreadsheet st !! cur = Some ccur → dependents ccur = Some l → l !! i = None →
  update_dependencies_loop n st cur i = Done st.
Proof.
  intros E El Ei. destruct n; simpl; unfold load; rewrite E; simpl; rewrite El; simpl;
    by rewrite Ei.
Qed.

(** set_cell_value of a number in a cell with one dependent, whose
    formula is one token that names the cell: up to the value that the
    evaluation of the dependent returns. *)
Lemma set_cell_value_one_dependent st r c text st1 w ct d cd f off tok save save' :
  token_head text ≠ 61 → renew_cell st r c text = Done (st1, (r, c)) →
  strtod text = (w, "") →
  spreadsheet st !! (r, c) = Some ct → dependents ct = Some [d] → state ct = UNVISITED →
  d ≠ (r, c) → spreadsheet st !! d = Some cd → formula cd = Some f →
  strtok_from "+"%char f 0 = (Some (off, tok), save) →
  strtok_from "+"%char f (tok_pos save) = (None, save') →
  isalpha (token_head tok) = true → referenced tok = Some (r, c) →
  ∃ c1,
    same_edges ct c1 ∧
    let cur1 := set_content (set_type c1 NUMBER) (number_value w) in
    let st3 := mkmodel (<[d := set_state cd UNVISITED]> (<[(r, c) := cur1]> (spreadsheet st)))
                 save' (display st ++ [(r, c, text)]) in
    set_cell_value st r c text
    = if isnan (0 + w) then
        dep1 ← load st3 d;
        st4 ← (if type_is dep1 ERROR
               then set_error_and_update st3 d "ERROR: incompatible types"
               else mret st3);
        dep2 ← load st4 d;
        t ← get_text (content dep2);
        update_dependencies_loop (size (spreadsheet st1))
          (update_cell_display st4 (row dep2) (col dep2) t) (r, c) 1
      else
        dep1 ← load st3 d;
        let dep2 := set_content (set_type dep1 NUMBER) (number_value (0 + w)) in
        update_dependencies_loop (size (spreadsheet st1))
          (update_cell_display (store st3 d dep2) (row dep2) (col dep2) (snprintf_1f (0 + w)))
          (r, c) 1.
Proof.
  intros Hhead Hrenew Hstrtod Et Hl Hst Hne Ed Hf Htok Hnext Halpha Href.
  destruct (returns_renew_cell st r c text _ Hrenew) as (_ & c1 & [Hin1 Hc1] & Hst1).
  simpl in Hst1. rewrite Et in Hc1. destruct Hc1 as (Hsame & Hty1 & Hstate1 & _).
  exists c1. split; [done|]. simpl.
  unfold set_cell_value. rewrite Hrenew. simpl.
  rewrite bool_decide_eq_false_2 by done.
  assert (load st1 (r, c) = Done c1) as ->
    by (unfold load; rewrite Hst1; simpl; rewrite lookup_insert_eq; done).
  simpl. rewrite Hstrtod. rewrite bool_decide_eq_true_2 by done.
  set (cur1 := set_content (set_type c1 NUMBER) (number_value w)).
  assert (dependents c1 = Some [d]) as Hl1.
  { destruct Hsame as (_ & _ & -> & _). done. }
  assert (spreadsheet st1 = <[(r, c) := c1]> (spreadsheet st)) as Hsp1 by (by rewrite Hst1).
  remember (update_cell_display (store st1 (r, c) cur1) r c text) as st2 eqn:Est2.
  assert (spreadsheet st2 = <[(r, c) := cur1]> (spreadsheet st)) as Hsp2.
  { subst st2. simpl. rewrite Hsp1. apply insert_insert_eq. }
  assert (load st2 (r, c) = Done cur1) as Hload2.
  { unfold load. rewrite Hsp2, lookup_insert_eq. done. }
  assert (load st2 d = Done cd) as Hloadd.
  { unfold load. rewrite Hsp2, lookup_insert_ne by done. rewrite Ed. done. }
  unfold update_dependencies. rewrite Hload2. simpl. rewrite Hl1. simpl.
  rewrite Hload2. simpl. rewrite Hl1. simpl.
  rewrite bool_decide_eq_false_2 by done. rewrite Hloadd. simpl.
  erewrite (evaluate_single_number _ d cd _ f off tok save save' (r, c) cur1 w [d]);
    [|rewrite Hsp2, lookup_insert_ne by done; exact Ed|done|done|done|done|done|done|
      rewrite Hsp2; apply lookup_insert_eq|
      simpl; congruence|done|done|done].
  simpl. rewrite bool_decide_eq_true_2 by (apply list_elem_of_singleton; done).
  assert (size (spreadsheet st2) = size (spreadsheet st1)) as ->.
  { rewrite <- !size_dom. by rewrite Hsp2, Hsp1, !dom_insert_L. }
  rewrite Hsp2. subst st2. rewrite Hst1. simpl. reflexivity.
Qed.

(** X24.  set_cell_value of a number w, with 0 + w not NaN, in a cell
    whose one dependent has a formula of one token that names the
    cell: the cell becomes the Number w, the dependent becomes the
    Number 0 + w, the display is notified of the text and then of the
    dependent in "%.1f" form, and the dependent is UNVISITED. *)
Theorem number_reaches_its_dependent st r c text st1 w ct d cd f off tok save save' :
  token_head text ≠ 61 → renew_cell st r c text = Done (st1, (r, c)) →
  strtod text = (w, "") →
  spreadsheet st !! (r, c) = Some ct → dependents ct = Some [d] → state ct = UNVISITED →
  d ≠ (r, c) → spreadsheet st !! d = Some cd → formula cd = Some f →
  strtok_from "+"%char f 0 = (Some (off, tok), save) →
  strtok_from "+"%char f (tok_pos save) = (None, save') →
  isalpha (token_head tok) = true → referenced tok = Some (r, c) →
  isnan (0 + w) = false →
  ∃ st', set_cell_value st r c text = Done st' ∧
         kind_of st' r c = Some (Some NUMBER, number_value w) ∧
         (kind_of st' d.1 d.2, visit_state st' d)
         = (Some (Some NUMBER, number_value (0 + w)), Some UNVISITED) ∧
         display st'
         = (display st ++ [(r, c, text); (row cd, col cd, snprintf_1f (0 + w))])%list.
Proof.
  intros Hhead Hrenew Hstrtod Et Hl Hst Hne Ed Hf Htok Hnext Halpha Href Hnan.
  destruct (set_cell_value_one_dependent st r c text st1 w ct d cd f off tok save save'
              Hhead Hrenew Hstrtod Et Hl Hst Hne Ed Hf Htok Hnext Halpha Href)
    as (c1 & Hsame & ->).
  rewrite Hnan. unfold load. simpl. rewrite lookup_insert_eq. simpl.
  erewrite update_dependencies_loop_end; cycle 1.
  - simpl. rewrite lookup_insert_ne by done. rewrite lookup_insert_ne by done.
    apply lookup_insert_eq.
  - simpl. destruct Hsame as (_ & _ & -> & _). exact Hl.
  - done.
  - eexists. split; [reflexivity|]. split; [|split].
    + unfold kind_of. simpl. rewrite lookup_insert_ne by done.
      rewrite lookup_insert_ne by done. rewrite lookup_insert_eq. done.
    + destruct d as [dr dc]. unfold kind_of, visit_state. simpl.
      rewrite lookup_insert_eq. done.
    + simpl. rewrite <- app_assoc. done.
Qed.

(** X25.  The same call with a text that strtod reads as NaN: the
    evaluation of the dependent returns NaN, which update_dependencies
    takes for a failure, and the dependent, of type NUMBER, has its
    number read as the pointer content.text_value. *)
Theorem nan_reaches_a_number_dependent st r c text st1 w ct d cd f off tok save save' x :
  token_head text ≠ 61 → renew_cell st r c text = Done (st1, (r, c)) →
  strtod text = (w, "") →
  spreadsheet st !! (r, c) = Some ct → dependents ct = Some [d] → state ct = UNVISITED →
  d ≠ (r, c) → spreadsheet st !! d = Some cd → formula cd = Some f →
  strtok_from "+"%char f 0 = (Some (off, tok), save) →
  strtok_from "+"%char f (tok_pos save) = (None, save') →
  isalpha (token_head tok) = true → referenced tok = Some (r, c) →
  isnan (0 + w) = true → type cd = Some NUMBER → content cd = number_value x →
  set_cell_value st r c text = Fault.
Proof.
  intros Hhead Hrenew Hstrtod Et Hl Hst Hne Ed Hf Htok Hnext Halpha Href Hnan Hty Hct.
  destruct (set_cell_value_one_dependent st r c text st1 w ct d cd f off tok save save'
              Hhead Hrenew Hstrtod Et Hl Hst Hne Ed Hf Htok Hnext Halpha Href)
    as (c1 & Hsame & ->).
  rewrite Hnan. unfold load. simpl. rewrite lookup_insert_eq. simpl.
  unfold type_is. simpl. rewrite Hty. rewrite bool_decide_eq_false_2 by done. simpl.
  rewrite lookup_insert_eq. simpl. rewrite Hct. done.
Qed.

End Tokens.

(** ** Properties of the reached states *)

Section Extras.
Context `{Libc}.
Local Open Scope list_scope.

(** X9.  In every state the interface reaches, every position that
    set_cell_value was called on holds a cell, also after clear_cell,
    and the cell records that position as its row and column. *)
Theorem cells_stay_where_they_are_set ps st r c :
  reached ps st → (r, c) ∈ ps →
  ∃ cl, spreadsheet st !! (r, c) = Some cl ∧ row cl = r ∧ col cl = c.
Proof.
  intros Hr Hin. assert ((r, c) ∈ dom (spreadsheet st)) as Hd.
  { rewrite (reached_dom_eq ps st Hr). by apply elem_of_list_to_set. }
  apply elem_of_dom in Hd as [cl E]. exists cl. split; [done|].
  destruct (reached_edges_ok ps st _ cl Hr E) as (_ & _ & Hp). by injection Hp.
Qed.

(** X10.  In every state the interface reaches, the count of
    dependents of a cell is at most the capacity of its array, and an
    array of capacity 0 has no dependents: add_dependent writes inside
    the array. *)
Theorem dependents_fit_their_array ps st p cl l :
  reached ps st → spreadsheet st !! p = Some cl → dependents cl = Some l →
  (length l ≤ dependents_capacity cl)%nat ∧ (dependents_capacity cl = 0%nat → l = []).
Proof.
  intros Hr E El. destruct (reached_edges_ok ps st p cl Hr E) as (Hcap & _). by apply Hcap.
Qed.

(** X11.  In every state the interface reaches, every dependent of a
    cell is a cell of the table, at a position that set_cell_value was
    called on. *)
Theorem dependents_are_cells_of_the_table ps st p cl l d :
  reached ps st → spreadsheet st !! p = Some cl → dependents cl = Some l → d ∈ l →
  d ∈ ps ∧ is_Some (spreadsheet st !! d).
Proof.
  intros Hr E El Hin. destruct (reached_edges_ok ps st p cl Hr E) as (_ & Hd & _).
  pose proof (Hd l d El Hin) as Hdom. split; [|by apply elem_of_dom].
  by apply (reached_dom ps st d Hr).
Qed.

(** X12.  In every state the interface reaches, every cell is of type
    NUMBER, TEXT or ERROR: FORMULA is the type of a cell only while
    set_cell_value evaluates its formula. *)
Theorem cells_are_settled_between_calls ps st p cl :
  reached ps st → spreadsheet st !! p = Some cl →
  type cl = Some NUMBER ∨ type cl = Some TEXT ∨ type cl = Some ERROR.
Proof.
  intros Hr E. destruct (reached_settled ps st p cl Hr E) as (H1 & H2 & _).
  destruct (type cl) as [[]|]; auto; done.
Qed.

(** X13.  In every state the interface reaches, clear_cell returns on
    every cell whose original input has not been freed. *)
Theorem clear_cell_returns_on_a_live_cell ps st r c cl :
  reached ps st → spreadsheet st !! (r, c) = Some cl → is_Some (original_input cl) →
  ∃ st', clear_cell st r c = Done st'.
Proof.
  intros Hr E Hin. destruct (reached_settled ps st _ cl Hr E) as (H1 & H2 & Hl).
  destruct (Hl Hin) as [Hc Hd]. apply (clear_cell_present st r c cl E).
  split; [done|]. split; [|done]. unfold content_agrees in Hc.
  intros [Hty|Hty]; rewrite Hty in Hc; done.
Qed.

(** X14.  After clear_cell the cell stays in the table with the
    pointer to its freed original input: get_textual_value copies from
    that pointer, and clear_cell and set_cell_value free it again. *)
Theorem cleared_cell_is_unusable st r c st' :
  clear_cell st r c = Done st' →
  get_textual_value st' r c = Fault ∧ clear_cell st' r c = Fault ∧
  ∀ text, set_cell_value st' r c text = Fault.
Proof.
  intros Heq. destruct (clear_cell_input st r c st' Heq) as (cl' & E' & Hin).
  by apply (cleared_faults st' r c cl').
Qed.

(** X15.  set_cell_value on a reached state removes no dependent from
    any cell: each array of dependents keeps its entries in their
    places, also those of a dependent whose formula is replaced. *)
Theorem dependency_edges_are_never_removed ps st r c text st' p cl l :
  reached ps st → set_cell_value st r c text = Done st' →
  spreadsheet st !! p = Some cl → dependents cl = Some l →
  ∃ cl' l', spreadsheet st' !! p = Some cl' ∧ dependents cl' = Some l' ∧ l `prefix_of` l'.
Proof.
  intros Hr Heq E El.
  destruct (set_cell_value_edges_kept ps st r c text st' p cl Hr Heq E) as (cl' & E' & Hk).
  destruct (Hk l El) as (l' & El' & Hpre). eauto.
Qed.

(** X16.  set_cell_value and clear_cell on one cell change nothing of
    what get_textual_value returns for another position, also when
    the other cell is re-evaluated as a dependent. *)
Theorem get_textual_value_of_another_cell st r c st' r' c' :
  (r', c') ≠ (r, c) →
  (∃ text, set_cell_value st r c text = Done st') ∨ clear_cell st r c = Done st' →
  get_textual_value st' r' c' = get_textual_value st r' c'.
Proof.
  intros Hne [[text Heq]|Heq].
  - destruct (set_cell_value_elsewhere st r c text st' (r', c') Heq Hne) as [Hnone Hsome].
    apply get_textual_value_same; [done|]. intros cl E.
    destruct (Hsome cl E) as (cl' & E' & Hin & _). eauto.
  - pose proof (clear_cell_elsewhere st r c st' (r', c') Heq Hne) as Hsame.
    apply get_textual_value_same; rewrite Hsame; eauto.
Qed.

(** X18.  evaluate_formula adds and removes no cell, and changes the
    original input, the formula, the row and the column of no cell. *)
Theorem evaluate_formula_keeps_inputs st current f st' v :
  evaluate_formula st current f = Done (st', v) →
  dom (spreadsheet st') = dom (spreadsheet st) ∧
  ∀ p cl cl', spreadsheet st !! p = Some cl → spreadsheet st' !! p = Some cl' →
              same_text cl cl'.
Proof.
  intros Heq. destruct (wp_Done _ _ _ (wp_evaluate_formula st current f) Heq) as (Hf & _).
  by apply (frame_texts _ _ _ Hf).
Qed.

(** X19.  The loop of update_dependencies terminates, although the
    array it walks can grow while it is walked; it adds and removes
    no cell, and changes the original input, the formula, the row and
    the column of no cell. *)
Theorem update_dependencies_terminates st current :
  update_dependencies st current ≠ OutOfFuel ∧
  ∀ st', update_dependencies st current = Done st' →
         dom (spreadsheet st') = dom (spreadsheet st) ∧
         ∀ p cl cl', spreadsheet st !! p = Some cl → spreadsheet st' !! p = Some cl' →
                     same_text cl cl'.
Proof.
  pose proof (wp_update_dependencies st current) as Hwp.
  split; [by eapply not_OutOfFuel|]. intros st' Heq.
  by apply (frame_texts _ _ _ (wp_Done _ _ _ Hwp Heq)).
Qed.

End Extras.

(** ** On concrete calls *)

Lemma reached_state_after calls :
  set_cells (H := CLib.c_library) model_init calls = Done (state_after calls) →
  reached (H := CLib.c_library) (reverse (map fst calls)) (state_after calls).
Proof.
  intros Heq. rewrite <- (app_nil_r (reverse _)).
  eapply reached_set_cells; [constructor|done].
Qed.

Lemma reached_cleared ps st r c :
  reached ps st → (∃ st', clear_cell st r c = Done st') → reached ps (cleared st r c).
Proof.
  intros Hr [st' Heq]. unfold cleared. rewrite Heq. by eapply reached_clear.
Qed.

(** X9, witness: the cell A1 after clear_cell. *)
Lemma cells_stay_after_clear_cell :
  ∃ cl, spreadsheet (cleared (state_after [(0, 0, "1")]) 0 0) !! (0, 0) = Some cl ∧
        row cl = 0 ∧ col cl = 0.
Proof.
  apply (cells_stay_where_they_are_set [(0, 0)]).
  - apply reached_cleared; [|eexists; vm_compute; reflexivity].
    apply (reached_state_after [(0, 0, "1")]). vm_compute. reflexivity.
  - left.
Defined.

(** X10, witness: three dependents in an array that was doubled twice. *)
Lemma three_readers_fit_four_places :
  ∃ l, l = [(0, 1); (0, 2); (0, 3)] ∧
       dependents (cell_at three_readers (0, 0)) = Some l ∧
       dependents_capacity (cell_at three_readers (0, 0)) = 4%nat ∧
       (le (length l) (dependents_capacity (cell_at three_readers (0, 0))) ∧
        (dependents_capacity (cell_at three_readers (0, 0)) = 0%nat → l = [])).
Proof.
  eexists. split; [reflexivity|].
  split; [vm_compute; reflexivity|]. split; [vm_compute; reflexivity|].
  eapply (dependents_fit_their_array _ three_readers (0, 0)).
  - apply (reached_state_after [(0, 0, "1"); (0, 1, "=A1"); (0, 2, "=A1"); (0, 3, "=A1")]).
    vm_compute. reflexivity.
  - vm_compute. reflexivity.
  - vm_compute. reflexivity.
Defined.

Lemma reached_three_readers :
  reached (H := CLib.c_library) [(0, 3); (0, 2); (0, 1); (0, 0)] three_readers.
Proof.
  apply (reached_state_after [(0, 0, "1"); (0, 1, "=A1"); (0, 2, "=A1"); (0, 3, "=A1")]).
  vm_compute. reflexivity.
Qed.

Lemma reached_one_and_copy : reached (H := CLib.c_library) [(0, 1); (0, 0)] one_and_copy.
Proof. apply (reached_state_after [(0, 0, "1"); (0, 1, "=A1")]). vm_compute. reflexivity. Qed.

Lemma reached_mutual_references :
  reached (H := CLib.c_library) [(1, 0); (0, 0)] (state_after mutual_references).
Proof. apply (reached_state_after mutual_references). vm_compute. reflexivity. Qed.

(** X11, witness: C1, a dependent of A1. *)
Lemma third_reader_is_a_cell :
  (0, 2) ∈ [(0, 3); (0, 2); (0, 1); (0, 0)] ∧ is_Some (spreadsheet three_readers !! (0, 2)).
Proof.
  eapply (dependents_are_cells_of_the_table _ three_readers (0, 0) _ [(0, 1); (0, 2); (0, 3)]).
  - exact reached_three_readers.
  - vm_compute. reflexivity.
  - vm_compute. reflexivity.
  - right. left.
Defined.

(** X12, witness: A2 = "=A1" took the message of the Error A1 as a text. *)
Lemma text_of_an_error_is_settled :
  type (cell_at (state_after mutual_references) (1, 0)) = Some TEXT ∧
  (type (cell_at (state_after mutual_references) (1, 0)) = Some NUMBER ∨
   type (cell_at (state_after mutual_references) (1, 0)) = Some TEXT ∨
   type (cell_at (state_after mutual_references) (1, 0)) = Some ERROR).
Proof.
  split; [vm_compute; reflexivity|].
  apply (cells_are_settled_between_calls _ _ (1, 0) _ reached_mutual_references).
  vm_compute. reflexivity.
Defined.

(** X13, witness: clear_cell on B1 = "=A1". *)
Lemma clear_cell_returns_on_a_copy : ∃ st', clear_cell one_and_copy 0 1 = Done st'.
Proof.
  eapply (clear_cell_returns_on_a_live_cell _ one_and_copy 0 1 _ reached_one_and_copy).
  - vm_compute. reflexivity.
  - vm_compute. eauto.
Defined.

(** X14, witness: A1 after clear_cell. *)
Lemma cleared_a1_is_unusable :
  get_textual_value (cleared one_cell_model 0 0) 0 0 = Fault ∧
  clear_cell (cleared one_cell_model 0 0) 0 0 = Fault ∧
  ∀ text, set_cell_value (cleared one_cell_model 0 0) 0 0 text = Fault.
Proof.
  apply (cleared_cell_is_unusable one_cell_model 0 0). vm_compute. reflexivity.
Defined.

(** X15, witness: B1 = "=A1" is overwritten with 7 and stays a dependent of
    A1; a later change of A1 makes B1 the Number 5, with the input "7". *)
Lemma overwritten_copy_stays_a_dependent :
  (∃ cl' l', spreadsheet copy_overwritten !! (0, 0) = Some cl' ∧ dependents cl' = Some l' ∧
             [(0, 1)] `prefix_of` l') ∧
  observe [(0, 0, "1"); (0, 1, "=A1"); (0, 1, "7"); (0, 0, "5")]
    (λ st, (kind_of st 0 1, get_textual_value st 0 1))
  = Done (Some (Some NUMBER, number_value 5), Done (Some "7")).
Proof.
  split; [|vm_compute; reflexivity].
  eapply (dependency_edges_are_never_removed _ one_and_copy 0 1 "7" _ (0, 0)).
  - exact reached_one_and_copy.
  - vm_compute. reflexivity.
  - vm_compute. reflexivity.
  - vm_compute. reflexivity.
Defined.

(** X16, witness: the input of B1 after A1 changed. *)
Lemma text_of_a_copy_survives_its_source :
  get_textual_value (state_after [(0, 0, "1"); (0, 1, "=A1"); (0, 0, "5")]) 0 1 = Done (Some "=A1") ∧
  get_textual_value (state_after [(0, 0, "1"); (0, 1, "=A1"); (0, 0, "5")]) 0 1
  = get_textual_value one_and_copy 0 1.
Proof.
  split; [vm_compute; reflexivity|].
  apply (get_textual_value_of_another_cell one_and_copy 0 0); [discriminate|].
  left. exists "5". vm_compute. reflexivity.
Defined.

(** X17, witness: the input "3.5". *)
Lemma literal_three_and_a_half :
  kind_of (state_after [(0, 0, "3.5")]) 0 0 = Some (Some NUMBER, number_value 3.5) ∧
  kind_of (state_after [(0, 0, "3.5")]) 0 0
  = Some (if bool_decide ((strtod "3.5").2 = "")
          then (Some NUMBER, number_value (strtod "3.5").1)
          else (Some TEXT, text_value "3.5")).
Proof.
  split; [vm_compute; reflexivity|].
  apply (literal_input_is_number_or_text [] model_init 0 0 "3.5").
  - constructor.
  - discriminate.
  - vm_compute. reflexivity.
Defined.

(** X18, witness: an evaluation that fails with a cycle. *)
Lemma failing_evaluation_keeps_inputs :
  ∃ st' v, evaluate_formula one_and_self_reader (0, 1) None = Done (st', v) ∧
           dom (spreadsheet st') = dom (spreadsheet one_and_self_reader) ∧
           ∀ p cl cl', spreadsheet one_and_self_reader !! p = Some cl →
                       spreadsheet st' !! p = Some cl' → same_text cl cl'.
Proof.
  eassert (evaluate_formula one_and_self_reader (0, 1) None = Done (_, _)) as Heq
    by (vm_compute; reflexivity).
  eexists _, _. split; [exact Heq|].
  exact (evaluate_formula_keeps_inputs one_and_self_reader (0, 1) None _ _ Heq).
Defined.

(** C6, witness: "=5+7" on the empty table. *)
Lemma five_plus_seven_is_undefined : set_cell_value model_init 0 0 "=5+7" = Fault.
Proof.
  eapply (numeric_literal_is_undefined model_init 0 0 "=5+7").
  - reflexivity.
  - vm_compute. reflexivity.
  - vm_compute. reflexivity.
  - reflexivity.
Defined.

(** X20, witness: A2 does not exist. *)
Lemma reference_to_a_missing_cell :
  ∃ st', set_cell_value one_cell_model 0 1 "=A2+A1" = Done st' ∧
         visit_state st' (0, 1) = Some UNVISITED ∧
         view st' 0 1 = is_error "ERROR: invalid cell reference".
Proof.
  eapply (formula_that_names_no_cell one_cell_model 0 1 "=A2+A1" _ _ _ _ (1, 0)).
  - reflexivity.
  - vm_compute. reflexivity.
  - vm_compute. reflexivity.
  - reflexivity.
  - vm_compute. reflexivity.
  - vm_compute. reflexivity.
Defined.

(** X26, witness: the row of "A-2147483648". *)
Lemma row_below_int_min : set_cell_value model_init 0 0 "=A-2147483648" = Fault.
Proof.
  eapply (reference_row_overflows model_init 0 0 "=A-2147483648").
  - reflexivity.
  - vm_compute. reflexivity.
  - vm_compute. reflexivity.
  - reflexivity.
  - vm_compute. reflexivity.
Defined.

(** X21, witness: "=A1" in A1. *)
Lemma formula_a1_in_a1 :
  ∃ st', set_cell_value model_init 0 0 "=A1" = Done st' ∧
         visit_state st' (0, 0) = Some UNVISITED ∧
         view st' 0 0 = is_error "ERROR: circular dependency".
Proof.
  eapply (formula_that_names_its_own_cell model_init 0 0 "=A1").
  - reflexivity.
  - vm_compute. reflexivity.
  - vm_compute. reflexivity.
  - reflexivity.
  - vm_compute. reflexivity.
Defined.

(** X22, witness: "=++" has no token. *)
Lemma formula_of_plus_signs :
  snprintf_1f 0 = "0.0" ∧
  ∃ st4, set_cell_value model_init 0 0 "=++" = update_dependencies st4 (0, 0) ∧
         visit_state st4 (0, 0) = Some UNVISITED ∧
         view st4 0 0 = is_number 0 (snprintf_1f 0).
Proof.
  split; [vm_compute; reflexivity|].
  eapply (formula_without_operands model_init 0 0 "=++").
  - reflexivity.
  - vm_compute. reflexivity.
  - vm_compute. reflexivity.
Defined.

(** X23, witness: "=A1" in B1, with A1 = 1. *)
Lemma copy_of_a1 :
  ∃ st4, set_cell_value one_cell_model 0 1 "=A1" = update_dependencies st4 (0, 1) ∧
         visit_state st4 (0, 1) = Some UNVISITED ∧
         view st4 0 1 = is_number (0 + 1) (snprintf_1f (0 + 1)) ∧
         spreadsheet st4 !! (0, 0)
         = Some (if bool_decide ((0, 1) ∈ @nil cellptr) then cell_at one_cell_model (0, 0)
                 else added (cell_at one_cell_model (0, 0)) [] (0, 1)).
Proof.
  eapply (formula_that_names_a_number one_cell_model 0 1 "=A1" _ 0 "A1" _ _ (0, 0)
            (cell_at one_cell_model (0, 0)) 1 []).
  - reflexivity.
  - vm_compute. reflexivity.
  - vm_compute. reflexivity.
  - vm_compute. reflexivity.
  - reflexivity.
  - vm_compute. reflexivity.
  - discriminate.
  - vm_compute. reflexivity.
  - vm_compute. reflexivity.
  - vm_compute. reflexivity.
  - vm_compute. reflexivity.
  - vm_compute. reflexivity.
  - reflexivity.
Defined.

(** X24, witness: A1 = 5 reaches B1 = "=A1". *)
Lemma five_reaches_the_copy :
  ∃ st', set_cell_value one_and_copy 0 0 "5" = Done st' ∧
         kind_of st' 0 0 = Some (Some NUMBER, number_value 5) ∧
         (kind_of st' (0, 1).1 (0, 1).2, visit_state st' (0, 1))
         = (Some (Some NUMBER, number_value (0 + 5)), Some UNVISITED) ∧
         display st'
         = (display one_and_copy
            ++ [(0, 0, "5");
                (row (cell_at one_and_copy (0, 1)), col (cell_at one_and_copy (0, 1)),
                 snprintf_1f (0 + 5))])%list.
Proof.
  eapply (number_reaches_its_dependent one_and_copy 0 0 "5" _ 5 (cell_at one_and_copy (0, 0))
            (0, 1) (cell_at one_and_copy (0, 1)) "A1" 0 "A1").
  - discriminate.
  - vm_compute. reflexivity.
  - vm_compute. reflexivity.
  - vm_compute. reflexivity.
  - vm_compute. reflexivity.
  - vm_compute. reflexivity.
  - discriminate.
  - vm_compute. reflexivity.
  - vm_compute. reflexivity.
  - vm_compute. reflexivity.
  - vm_compute. reflexivity.
  - reflexivity.
  - vm_compute. reflexivity.
  - reflexivity.
Defined.

(** X25, witness: A1 = "nan" with the dependent B1 = "=A1". *)
Lemma nan_reaches_the_copy : set_cell_value one_and_copy 0 0 "nan" = Fault.
Proof.
  eapply (nan_reaches_a_number_dependent one_and_copy 0 0 "nan" _ nan
            (cell_at one_and_copy (0, 0)) (0, 1) (cell_at one_and_copy (0, 1)) "A1" 0 "A1"
            _ _ 1).
  - discriminate.
  - vm_compute. reflexivity.
  - vm_compute. reflexivity.
  - vm_compute. reflexivity.
  - vm_compute. reflexivity.
  - vm_compute. reflexivity.
  - discriminate.
  - vm_compute. reflexivity.
  - vm_compute. reflexivity.
  - vm_compute. reflexivity.
  - vm_compute. reflexivity.
  - reflexivity.
  - vm_compute. reflexivity.
  - reflexivity.
  - vm_compute. reflexivity.
  - vm_compute. reflexivity.
Defined.

(** * Properties of the hash table *)

(** ** Keys *)

Section TableSpec.
Import Chained.
Context `{PlainChar}.
Local Open Scope list_scope.

Lemma hash_range str : 0 ≤ hash str < HASH_SIZE.
Proof. unfold hash. apply Z.mod_pos_bound. reflexivity. Qed.

Lemma digit_char_code d : 0 ≤ d < 10 → char_code (digit_char d) = 48 + d.
Proof.
  intros Hd. unfold char_code, digit_char.
  rewrite N_ascii_embedding by lia. lia.
Qed.

Lemma digit_char_inj a b : 0 ≤ a < 10 → 0 ≤ b < 10 → digit_char a = digit_char b → a = b.
Proof.
  intros Ha Hb Heq. apply (f_equal char_code) in Heq.
  rewrite !digit_char_code in Heq by done. lia.
Qed.

Lemma digit_char_neq d (a : ascii) :
  0 ≤ d < 10 → char_code a < 48 → digit_char d ≠ a.
Proof. intros Hd Ha Heq. subst a. rewrite digit_char_code in Ha by done. lia. Qed.

Lemma decimal_digits_length n v acc :
  (S (String.length acc) ≤ String.length (decimal_digits n v acc) ≤ S n + String.length acc)%nat.
Proof.
  revert v acc. induction n as [|n IH]; intros v acc; simpl; [lia|].
  destruct (v <? 10); simpl; [lia|].
  specialize (IH (v / 10) (String (digit_char (v mod 10)) acc)). simpl in IH. lia.
Qed.

Lemma decimal_digits_head n v acc :
  0 ≤ v → ∃ d s, 0 ≤ d < 10 ∧ decimal_digits n v acc = String (digit_char d) s.
Proof.
  revert v acc. induction n as [|n IH]; intros v acc Hv; simpl.
  - exists (v mod 10), acc. split; [apply Z.mod_pos_bound; lia|done].
  - destruct (v <? 10).
    + exists (v mod 10), acc. split; [apply Z.mod_pos_bound; lia|done].
    + apply IH. apply Z.div_pos; lia.
Qed.

Lemma decimal_digits_comma_free n v acc :
  0 ≤ v → comma_free acc → comma_free (decimal_digits n v acc).
Proof.
  revert v acc. induction n as [|n IH]; intros v acc Hv Hacc.
  - simpl. split; [|done]. apply digit_char_neq; [apply Z.mod_pos_bound; lia|reflexivity].
  - assert (comma_free (String (digit_char (v mod 10)) acc)) as Hacc'.
    { simpl. split; [|done]. apply digit_char_neq; [apply Z.mod_pos_bound; lia|reflexivity]. }
    simpl. destruct (v <? 10); [exact Hacc'|].
    apply IH; [apply Z.div_pos; lia|exact Hacc'].
Qed.

Lemma decimal_digits_inj n v w acc acc' :
  0 ≤ v < 10 ^ Z.of_nat (S n) → 0 ≤ w < 10 ^ Z.of_nat (S n) →
  String.length acc = String.length acc' →
  decimal_digits n v acc = decimal_digits n w acc' → v = w ∧ acc = acc'.
Proof.
  revert v w acc acc'. induction n as [|n IH]; intros v w acc acc' Hv Hw Hlen Heq.
  - simpl in Heq. change (10 ^ Z.of_nat 1) with 10 in *. injection Heq as Hd Hacc.
    apply digit_char_inj in Hd; [|apply Z.mod_pos_bound; lia..].
    rewrite !Z.mod_small in Hd by lia. done.
  - assert (10 ^ Z.of_nat (S (S n)) = 10 * 10 ^ Z.of_nat (S n)) as Hpow.
    { rewrite (Nat2Z.inj_succ (S n)), Z.pow_succ_r by lia. done. }
    simpl in Heq.
    destruct (Z.ltb_spec v 10) as [Hv10|Hv10], (Z.ltb_spec w 10) as [Hw10|Hw10].
    + injection Heq as Hd Hacc.
      apply digit_char_inj in Hd; [|apply Z.mod_pos_bound; lia..].
      rewrite !Z.mod_small in Hd by lia. done.
    + apply (f_equal String.length) in Heq. simpl in Heq.
      pose proof (decimal_digits_length n (w / 10) (String (digit_char (w mod 10)) acc')) as Hl.
      simpl in Hl. lia.
    + apply (f_equal String.length) in Heq. simpl in Heq.
      pose proof (decimal_digits_length n (v / 10) (String (digit_char (v mod 10)) acc)) as Hl.
      simpl in Hl. lia.
    + apply IH in Heq as [Hdiv Hacc].
      * injection Hacc as Hd Hacc.
        apply digit_char_inj in Hd; [|apply Z.mod_pos_bound; lia..].
        split; [|done]. rewrite (Z.div_mod v 10), (Z.div_mod w 10) by lia. lia.
      * split; [apply Z.div_pos; lia|]. apply Z.div_lt_upper_bound; lia.
      * split; [apply Z.div_pos; lia|]. apply Z.div_lt_upper_bound; lia.
      * simpl. lia.
Qed.

Lemma format_d_length v : (String.length (format_d v) ≤ 11)%nat.
Proof.
  unfold format_d. destruct (v <? 0); cbn [String.length].
  - pose proof (decimal_digits_length 9 (- v) "") as Hl. cbn [String.length] in Hl. lia.
  - pose proof (decimal_digits_length 9 v "") as Hl. cbn [String.length] in Hl. lia.
Qed.

Lemma format_d_comma_free v : comma_free (format_d v).
Proof.
  unfold format_d. destruct (Z.ltb_spec v 0); cbn [comma_free].
  - split; [discriminate|]. apply decimal_digits_comma_free; [lia|done].
  - apply decimal_digits_comma_free; [lia|done].
Qed.

Lemma String_inj a b s t : String a s = String b t → a = b ∧ s = t.
Proof. intros Heq. injection Heq as -> ->. done. Qed.

Lemma format_d_inj v w : is_int v → is_int w → format_d v = format_d w → v = w.
Proof.
  unfold is_int, INT_MIN, INT_MAX, format_d. intros Hv Hw Heq.
  assert (10 ^ Z.of_nat 10 = 10000000000) as Hpow by reflexivity.
  destruct (Z.ltb_spec v 0), (Z.ltb_spec w 0).
  - apply String_inj in Heq as [_ Heq].
    apply decimal_digits_inj in Heq as [Heq _]; rewrite ?Hpow; try done; lia.
  - destruct (decimal_digits_head 9 w "") as (d & s & Hd & Hs); [lia|].
    rewrite Hs in Heq. apply String_inj in Heq as [Heq _]. symmetry in Heq.
    by apply digit_char_neq in Heq.
  - destruct (decimal_digits_head 9 v "") as (d & s & Hd & Hs); [lia|].
    rewrite Hs in Heq. apply String_inj in Heq as [Heq _].
    by apply digit_char_neq in Heq.
  - apply decimal_digits_inj in Heq as [Heq _]; rewrite ?Hpow; try done; lia.
Qed.

Lemma comma_split s1 s2 t1 t2 :
  comma_free s1 → comma_free t1 →
  s1 +:+ String "," s2 = t1 +:+ String "," t2 → s1 = t1 ∧ s2 = t2.
Proof.
  revert t1. induction s1 as [|a s1 IH]; intros [|b t1] Hs Ht Heq; simpl in *.
  - injection Heq as ->. done.
  - injection Heq as <- _. tauto.
  - injection Heq as -> _. tauto.
  - injection Heq as -> Heq. destruct (IH t1) as [-> ->]; tauto.
Qed.

(** The key of a position determines the position. *)
Lemma key_text_inj r c r' c' :
  is_int r → is_int c → is_int r' → is_int c' →
  key_text r c = key_text r' c' → r = r' ∧ c = c'.
Proof.
  intros Hr Hc Hr' Hc' Heq. unfold key_text in Heq.
  apply comma_split in Heq as [H1 H2]; [|apply format_d_comma_free..].
  split; apply format_d_inj; done.
Qed.

Lemma append_length s t : String.length (s +:+ t) = (String.length s + String.length t)%nat.
Proof. induction s as [|a s IH]; simpl; [done|]. by rewrite IH. Qed.

Lemma key_text_length r c : (String.length (key_text r c) ≤ 23)%nat.
Proof.
  unfold key_text. rewrite !append_length. cbn [String.length].
  pose proof (format_d_length r). pose proof (format_d_length c). lia.
Qed.

Lemma string_take_all n s : (String.length s ≤ n)%nat → CLib.string_take n s = s.
Proof.
  revert n. induction s as [|a s IH]; intros [|n] Hlen; simpl in *; try done; try lia.
  rewrite IH by lia. done.
Qed.

Lemma snprintf_key_text r c : snprintf_key r c = key_text r c.
Proof. apply string_take_all. pose proof (key_text_length r c). lia. Qed.

Lemma sprintf_key_text r c : sprintf_key r c = Done (key_text r c).
Proof.
  unfold sprintf_key. pose proof (key_text_length r c).
  destruct (Nat.ltb_spec (String.length (key_text r c)) 50); [done|lia].
Qed.

(** ** Chains *)

Lemma bucket_of_lt r c : (bucket_of r c < Z.to_nat HASH_SIZE)%nat.
Proof. unfold bucket_of. pose proof (hash_range (key_text r c)). lia. Qed.

Lemma chain_unique h first l l' : chain h first l → chain h first l' → l = l'.
Proof.
  unfold chain. intros Hc. remember None as o eqn:Eo. revert l'.
  induction Hc as [o|a nd l o E Hc IH]; intros l' Hc'; subst; inversion Hc'; subst.
  - done.
  - assert (nd0 = nd) as -> by congruence. f_equal. auto.
Qed.

Lemma path_lookup h from l to a nd : path h from l to → (a, nd) ∈ l → h !! a = Some nd.
Proof.
  induction 1 as [o|a0 nd0 l o E Hc IH]; intros Hin.
  - by apply elem_of_nil in Hin.
  - apply elem_of_cons in Hin as [Heq|Hin]; [congruence|auto].
Qed.

Lemma path_app h a l1 b l2 c : path h a l1 b → path h b l2 c → path h a (l1 ++ l2) c.
Proof. induction 1; simpl; [done|]. intros. econstructor; eauto. Qed.

Lemma path_split h a l1 l2 c :
  path h a (l1 ++ l2) c → ∃ b, path h a l1 b ∧ path h b l2 c.
Proof.
  revert a. induction l1 as [|[a0 nd0] l1 IH]; intros a Hp; simpl in *.
  - exists a. split; [constructor|done].
  - inversion Hp; subst. destruct (IH _ ltac:(eassumption)) as (b & H1 & H2).
    exists b. split; [econstructor; eauto|done].
Qed.

Lemma path_insert h a l b p x :
  path h a l b → p ∉ l.*1 → path (<[p := x]> h) a l b.
Proof.
  induction 1 as [o|a0 nd0 l o E Hc IH]; intros Hp; [constructor|].
  rewrite fmap_cons, not_elem_of_cons in Hp. destruct Hp as [Hne Hp].
  econstructor; [|auto]. rewrite lookup_insert_ne by done. done.
Qed.

Lemma chain_length h first l : chain h first l → NoDup l.*1 → (length l ≤ size h)%nat.
Proof.
  intros Hc Hnd. rewrite <- (length_fmap fst), <- (size_list_to_set (C := gset addr)) by done.
  rewrite <- size_dom. apply subseteq_size. intros a Ha.
  apply elem_of_list_to_set, list_elem_of_fmap in Ha as ([a' nd] & -> & Hin).
  apply elem_of_dom. exists nd. eapply path_lookup; eauto.
Qed.

Lemma find_loop_chain n h k first l :
  chain h first l → (length l ≤ n)%nat → find_loop n h k first = Done (lookup_key k l).
Proof.
  unfold chain. intros Hc. remember None as o eqn:Eo. revert n.
  induction Hc as [o|a nd l o E Hc IH]; intros n Hn; subst; simpl in *.
  - by destruct n.
  - destruct n as [|n]; [lia|]. simpl. rewrite E. simpl.
    destruct (String.eqb (key nd) k); [done|]. apply IH; [done|lia].
Qed.

Lemma table_ok_bucket t r c :
  table_ok t → ∃ first l, buckets t !! bucket_of r c = Some first ∧
                          chain (heap t) first l ∧ chain_ok (bucket_of r c) l.
Proof.
  intros [Hlen Hch]. pose proof (bucket_of_lt r c) as Hlt.
  destruct (lookup_lt_is_Some_2 (buckets t) (bucket_of r c)) as [first E]; [lia|].
  destruct (Hch _ _ E) as (l & Hc & Hok). eauto.
Qed.

Lemma find_cell_chain t r c first l :
  buckets t !! bucket_of r c = Some first → chain (heap t) first l → NoDup l.*1 →
  find_cell t r c = Done (lookup_key (key_text r c) l).
Proof.
  intros E Hc Hnd. unfold find_cell. rewrite sprintf_key_text. simpl.
  fold (bucket_of r c). rewrite E. simpl.
  apply find_loop_chain; [done|]. eapply chain_length; eauto.
Qed.

Lemma lookup_key_Some k l a :
  lookup_key k l = Some a → ∃ nd, (a, nd) ∈ l ∧ key nd = k.
Proof.
  induction l as [|[a0 nd0] l IH]; simpl; [done|].
  destruct (String.eqb_spec (key nd0) k) as [Hk|Hk].
  - intros [= <-]. exists nd0. split; [left|done].
  - intros Hl. destruct (IH Hl) as (nd & Hin & Hkey). exists nd. split; [by right|done].
Qed.

Lemma lookup_key_None k l a nd : lookup_key k l = None → (a, nd) ∈ l → key nd ≠ k.
Proof.
  induction l as [|[a0 nd0] l IH]; simpl; intros Hl Hin.
  - by apply elem_of_nil in Hin.
  - destruct (String.eqb_spec (key nd0) k) as [Hk|Hk]; [done|].
    apply elem_of_cons in Hin as [[= -> ->]|Hin]; auto.
Qed.

Lemma chain_ok_node i l a nd : chain_ok i l → (a, nd) ∈ l → node_ok i nd.
Proof.
  intros Hok Hin. eapply Forall_forall; [apply (ok_nodes _ _ Hok)|].
  apply list_elem_of_fmap. exists (a, nd). done.
Qed.

(** X3.  On a well-formed table find_cell terminates: it returns the
    address of a node that is in a chain and holds a cell of the
    position, or NULL when no node in any chain holds a cell of the
    position. *)
Theorem find_cell_finds t r c :
  table_ok t → is_int r → is_int c →
  ∃ found, find_cell t r c = Done found ∧
           match found with
           | Some a => ∃ nd, linked t a nd ∧ row (value nd) = r ∧ col (value nd) = c
           | None => ∀ a nd, linked t a nd → (row (value nd), col (value nd)) ≠ (r, c)
           end.
Proof.
  intros Hok Hr Hc. destruct (table_ok_bucket t r c Hok) as (first & l & E & Hch & Hl).
  exists (lookup_key (key_text r c) l).
  split; [eapply find_cell_chain; [done..|apply (ok_addrs _ _ Hl)]|].
  destruct (lookup_key (key_text r c) l) as [a|] eqn:Hfind.
  - apply lookup_key_Some in Hfind as (nd & Hin & Hkey). exists nd.
    pose proof (chain_ok_node _ _ _ _ Hl Hin) as Hnd.
    rewrite (ok_key _ _ Hnd) in Hkey.
    apply key_text_inj in Hkey as [Hrow Hcol];
      [|apply (ok_row _ _ Hnd)|apply (ok_col _ _ Hnd)|done..].
    split; [|done]. exists (bucket_of r c), first, l. done.
  - intros a nd (i & first' & l' & E' & Hch' & Hin) [= Hrow Hcol].
    destruct Hok as [_ Hall]. destruct (Hall _ _ E') as (l0 & Hch0 & Hl0).
    assert (l0 = l') as -> by eauto using chain_unique.
    pose proof (chain_ok_node _ _ _ _ Hl0 Hin) as Hnd.
    assert (i = bucket_of r c) as ->.
    { rewrite <- (ok_index _ _ Hnd), (ok_key _ _ Hnd), Hrow, Hcol. done. }
    assert (first' = first) as -> by congruence.
    assert (l' = l) as -> by eauto using chain_unique.
    apply (lookup_key_None _ _ _ _ Hfind Hin).
    rewrite (ok_key _ _ Hnd), Hrow, Hcol. done.
Qed.

End TableSpec.

(** ** create_cell, free_cell and model_destroy *)

#[local] Arguments replicate : simpl never.
#[local] Arguments Z.to_nat : simpl never.

Section TableProofs.
Import Chained.
Context `{PlainChar}.
Local Open Scope list_scope.

Lemma find_cell_lookup t r c :
  table_ok t →
  ∃ first l, buckets t !! bucket_of r c = Some first ∧ chain (heap t) first l ∧
             chain_ok (bucket_of r c) l ∧
             find_cell t r c = Done (lookup_key (key_text r c) l).
Proof.
  intros Hok. destruct (table_ok_bucket t r c Hok) as (first & l & E & Hch & Hl).
  exists first, l. repeat split; try done. - apply Hl. - apply Hl. - apply Hl.
  - eapply find_cell_chain; eauto. apply Hl.
Qed.

Lemma lookup_key_fresh k l : k ∉ key <$> l.*2 → lookup_key k l = None.
Proof.
  induction l as [|[a nd] l IH]; simpl; [done|]. rewrite not_elem_of_cons. intros [Hne Hl].
  destruct (String.eqb_spec (key nd) k); [congruence|auto].
Qed.

Lemma lookup_key_not_in k l : lookup_key k l = None → k ∉ key <$> l.*2.
Proof.
  intros Hl Hin. apply list_elem_of_fmap in Hin as (nd & -> & Hin).
  apply list_elem_of_fmap in Hin as ([a nd'] & -> & Hin).
  by eapply lookup_key_None in Hl.
Qed.

Lemma chain_dom h first l a : chain h first l → a ∉ dom h → a ∉ l.*1.
Proof.
  intros Hc Ha Hin. apply list_elem_of_fmap in Hin as ([a' nd] & -> & Hin).
  apply Ha, elem_of_dom. exists nd. eapply path_lookup; eauto.
Qed.

(** What create_cell returns and what it makes of the table. *)
Lemma create_cell_spec t r c text :
  table_ok t → is_int r → is_int c → find_cell t r c = Done None →
  ∃ t' a, create_cell t r c text = Done (t', a) ∧ table_ok t' ∧
          heap t !! a = None ∧
          heap t' = <[a := mknode (key_text r c) (new_cell r c text)
                             (default None (buckets t !! bucket_of r c))]> (heap t) ∧
          buckets t' = <[bucket_of r c := Some a]> (buckets t) ∧
          shown t' = shown t.
Proof.
  intros Hok Hr Hc Hfind.
  destruct (find_cell_lookup t r c Hok) as (first & l & E & Hch & Hl & Hf).
  rewrite Hf in Hfind. injection Hfind as Hnone.
  unfold create_cell. rewrite snprintf_key_text. fold (bucket_of r c). rewrite E. simpl.
  set (a := fresh (dom (heap t))).
  assert (a ∉ dom (heap t)) as Ha by apply is_fresh.
  eexists _, a. split; [reflexivity|]. simpl.
  split; [|split; [by apply not_elem_of_dom|done]].
  destruct Hok as [Hlen Hall]. split; simpl; [by rewrite length_insert|].
  intros i first' Ei. destruct (decide (i = bucket_of r c)) as [->|Hne].
  - rewrite list_lookup_insert_eq in Ei by (rewrite Hlen; apply bucket_of_lt).
    injection Ei as <-.
    exists ((a, mknode (key_text r c) (new_cell r c text) first) :: l). split.
    + econstructor; [apply lookup_insert_eq|]. simpl.
      apply path_insert; [done|]. eapply chain_dom; eauto.
    + destruct Hl as [Hl1 Hl2 Hl3]. split; simpl.
      * constructor; [eapply chain_dom; eauto|done].
      * constructor; [by apply lookup_key_not_in|done].
      * constructor; [|done]. split; simpl; done.
  - rewrite list_lookup_insert_ne in Ei by done.
    destruct (Hall _ _ Ei) as (l' & Hch' & Hl'). exists l'. split; [|done].
    apply path_insert; [done|]. eapply chain_dom; eauto.
Qed.

Lemma find_cell_created t r c text t' a :
  table_ok t → is_int r → is_int c → find_cell t r c = Done None →
  create_cell t r c text = Done (t', a) →
  find_cell t' r c = Done (Some a) ∧
  heap t' !! a = Some (mknode (key_text r c) (new_cell r c text)
                         (default None (buckets t !! bucket_of r c))) ∧
  ∀ r' c', is_int r' → is_int c' → (r', c') ≠ (r, c) → find_cell t' r' c' = find_cell t r' c'.
Proof.
  intros Hok Hr Hc Hfind Hcreate.
  destruct (create_cell_spec t r c text Hok Hr Hc Hfind)
    as (t0 & a0 & Heq & Hok' & Hfresh & Hheap & Hbuckets & _).
  rewrite Heq in Hcreate. injection Hcreate as -> ->.
  destruct (find_cell_lookup t r c Hok) as (first & l & E & Hch & Hl & Hf).
  assert (a ∉ dom (heap t)) as Ha by by apply not_elem_of_dom.
  assert (length (buckets t) = Z.to_nat HASH_SIZE) as Hlen by apply Hok.
  rewrite E in Hheap. simpl in Hheap.
  assert (chain (heap t') (Some a)
            ((a, mknode (key_text r c) (new_cell r c text) first) :: l)) as Hch'.
  { rewrite Hheap. econstructor; [apply lookup_insert_eq|]. simpl.
    apply path_insert; [done|]. eapply chain_dom; eauto. }
  assert (NoDup ((a, mknode (key_text r c) (new_cell r c text) first) :: l).*1) as Hnd'.
  { simpl. constructor; [eapply chain_dom; eauto|apply Hl]. }
  split; [|split].
  - erewrite find_cell_chain; [| |exact Hch'|exact Hnd'].
    + simpl. by rewrite String.eqb_refl.
    + rewrite Hbuckets. apply list_lookup_insert_eq. rewrite Hlen. apply bucket_of_lt.
  - rewrite Hheap, E. apply lookup_insert_eq.
  - intros r' c' Hr' Hc' Hne.
    destruct (find_cell_lookup t r' c' Hok) as (first' & l' & E' & Hchl & Hl' & ->).
    destruct (decide (bucket_of r' c' = bucket_of r c)) as [Hb|Hb].
    + rewrite Hb in E'. assert (first' = first) as -> by congruence.
      assert (l' = l) as -> by eauto using chain_unique.
      erewrite find_cell_chain; [| |exact Hch'|exact Hnd'].
      * simpl. destruct (String.eqb_spec (key_text r c) (key_text r' c')) as [Hk|Hk]; [|done].
        apply key_text_inj in Hk as [-> ->]; done.
      * rewrite Hb, Hbuckets. apply list_lookup_insert_eq. rewrite Hlen. apply bucket_of_lt.
    + eapply find_cell_chain; [| |apply Hl'].
      * rewrite Hbuckets, list_lookup_insert_ne by done. exact E'.
      * rewrite Hheap. apply path_insert; [done|]. eapply chain_dom; eauto.
Qed.

Lemma initial_ok : table_ok initial.
Proof.
  split; [apply length_replicate|]. intros i first Ei. simpl in Ei.
  apply lookup_replicate in Ei as [-> _]. exists []. split; [constructor|].
  split; simpl; constructor.
Qed.

Lemma model_init_ok t : table_ok (model_init t).
Proof.
  split; [apply length_replicate|]. intros i first Ei. simpl in Ei.
  apply lookup_replicate in Ei as [-> _]. exists []. split; [constructor|].
  split; simpl; constructor.
Qed.

Lemma find_cell_model_init t r c : find_cell (model_init t) r c = Done None.
Proof.
  unfold find_cell. rewrite sprintf_key_text. simpl. fold (bucket_of r c).
  rewrite lookup_replicate_2 by apply bucket_of_lt. simpl.
  by destruct (size (heap t)).
Qed.

(** *** free_cell *)

Lemma free_loop_missing n t r c k index prev current l :
  chain (heap t) current l → lookup_key k l = None → (length l ≤ n)%nat →
  free_loop n t r c k index prev current = Done t.
Proof.
  unfold chain. intros Hc. remember None as o eqn:Eo. revert n prev.
  induction Hc as [o|a nd l o E Hc IH]; intros n prev Hl Hn; subst; simpl in *.
  - by destruct n.
  - destruct n as [|n]; [lia|]. simpl. rewrite E. simpl.
    destruct (String.eqb (key nd) k); [done|]. apply IH; [done..|lia].
Qed.

Lemma lookup_key_app k l1 l2 :
  lookup_key k (l1 ++ l2) = match lookup_key k l1 with
                            | Some a => Some a
                            | None => lookup_key k l2
                            end.
Proof.
  induction l1 as [|[a nd] l1 IH]; simpl; [done|].
  destruct (String.eqb (key nd) k); done.
Qed.

Lemma path_snoc h a l p pn b :
  path h a (l ++ [(p, pn)]) b → path h a l (Some p) ∧ h !! p = Some pn ∧ next pn = b.
Proof.
  intros Hp. apply path_split in Hp as (m & H1 & H2).
  inversion H2 as [|? ? ? ? E Hrest]; subst. inversion Hrest; subst. done.
Qed.

Lemma free_loop_present n t r c index first prev current l1 l2 a :
  is_int r → is_int c →
  index = bucket_of r c →
  length (buckets t) = Z.to_nat HASH_SIZE →
  buckets t !! index = Some first →
  path (heap t) first l1 current → chain (heap t) current l2 →
  walked first prev current l1 →
  chain_ok index (l1 ++ l2) →
  lookup_key (key_text r c) l1 = None → lookup_key (key_text r c) l2 = Some a →
  (length l2 ≤ n)%nat →
  free_loop n t r c (key_text r c) index prev current = Fault.
Proof.
  intros Hr Hc -> Hlen Efirst. revert n prev current l1.
  induction l2 as [|[a0 nd0] l2 IH]; intros n prev current l1 Hp1 Hc2 Hw Hok Hk1 Hk2 Hn;
    [done|].
  inversion Hc2 as [|? ? ? ? E0 Hrest]; subst. simpl in Hn. destruct n as [|n]; [lia|].
  simpl. rewrite E0. simpl. simpl in Hk2.
  destruct (String.eqb_spec (key nd0) (key_text r c)) as [Hkey|Hkey].
  - clear IH. injection Hk2 as ->.
    assert (node_ok (bucket_of r c) nd0) as Hnd0.
    { eapply chain_ok_node; [exact Hok|]. apply elem_of_app. right. left. }
    destruct Hok as [Hnd Hkeys _].
    rewrite fmap_app, fmap_cons in Hnd. simpl in Hnd.
    apply NoDup_app in Hnd as (Hnd1 & Hdisj & Hnd2). apply NoDup_cons in Hnd2 as [Ha2 Hnd2].
    rewrite !fmap_app, !fmap_cons in Hkeys. simpl in Hkeys.
    apply NoDup_app in Hkeys as (_ & _ & Hkeys2). apply NoDup_cons in Hkeys2 as [Hk2 _].
    assert (∀ t1, length (buckets t1) = Z.to_nat HASH_SIZE → heap t1 !! a = Some nd0 →
                  (∃ first1 l1', buckets t1 !! bucket_of r c = Some first1 ∧
                                 chain (heap t1) first1 (l1' ++ l2) ∧
                                 NoDup (l1' ++ l2).*1 ∧
                                 lookup_key (key_text r c) l1' = None) →
                  (nd1 ← deref (heap t1 !! a);
                   t2 ← clear_cell t1 (row (value nd1)) (col (value nd1));
                   _ ← deref (heap t2 !! a);
                   mret (mktable (buckets t2) (delete a (heap t2)) (shown t2 ++ [(r, c, "")])))
                  = Fault) as Hfault.
    { intros t1 Hlen1 E1 (first1 & l1' & Eb & Hch1 & Hnd1' & Hk1').
      rewrite E1. simpl. unfold clear_cell.
      assert (find_cell t1 (row (value nd0)) (col (value nd0)) = Done None) as ->; [|done].
      assert (key_text (row (value nd0)) (col (value nd0)) = key_text r c) as Hsame.
      { rewrite <- (ok_key _ _ Hnd0). done. }
      erewrite find_cell_chain; [| |exact Hch1|exact Hnd1'].
      - rewrite Hsame, lookup_key_app, Hk1'. f_equal. apply lookup_key_fresh.
        rewrite <- Hkey. done.
      - unfold bucket_of. rewrite Hsame. exact Eb. }
    destruct prev as [p|].
    + destruct Hw as (l0 & pn & ->). apply path_snoc in Hp1 as (Hp0 & Ep & Hnext).
      rewrite Ep. simpl. apply Hfault; simpl.
      * done.
      * rewrite lookup_insert_ne; [done|]. intros ->. apply (Hdisj a).
        -- rewrite fmap_app. apply elem_of_app. right. left.
        -- left.
      * rewrite fmap_app, NoDup_app in Hnd1. destruct Hnd1 as (Hnd0' & Hdisj0 & _).
        exists first, (l0 ++ [(p, mknode (key pn) (value pn) (next nd0))]).
        split; [done|]. rewrite <- app_assoc. split; [|split].
        -- eapply path_app.
           ++ apply path_insert; [exact Hp0|]. intros Hin. apply (Hdisj0 p Hin). left.
           ++ simpl. econstructor; [apply lookup_insert_eq|]. simpl.
              apply path_insert; [exact Hrest|]. intros Hin. apply (Hdisj p).
              ** rewrite fmap_app. apply elem_of_app. right. left.
              ** by right.
        -- rewrite fmap_app. simpl. apply NoDup_app. split; [done|]. split.
           ++ intros x Hx Hin. apply (Hdisj0 x Hx).
              apply elem_of_cons in Hin as [->|Hin]; [left|].
              exfalso. apply (Hdisj x); [rewrite fmap_app; apply elem_of_app; by left|by right].
           ++ constructor; [|done]. intros Hin. apply (Hdisj p); [|by right].
              rewrite fmap_app. apply elem_of_app. right. left.
        -- rewrite lookup_key_app in Hk1 |- *. simpl in *.
           destruct (lookup_key (key_text r c) l0); [done|].
           destruct (String.eqb (key pn) (key_text r c)); done.
    + destruct Hw as [-> Hfirst]. subst first.
      apply (Hfault (mktable (<[bucket_of r c := next nd0]> (buckets t)) (heap t) (shown t)));
        simpl.
      * by rewrite length_insert.
      * done.
      * exists (next nd0), []. simpl. split; [|split; [exact Hrest|split; [exact Hnd2|done]]].
        apply list_lookup_insert_eq. rewrite Hlen. apply bucket_of_lt.
  - eapply (IH n (Some a0) (next nd0) (l1 ++ [(a0, nd0)])).
    + eapply path_app; [exact Hp1|]. econstructor; [done|constructor].
    + done.
    + simpl. eauto.
    + by rewrite <- app_assoc.
    + rewrite lookup_key_app, Hk1. simpl.
      by destruct (String.eqb_spec (key nd0) (key_text r c)).
    + done.
    + lia.
Qed.

Lemma free_cell_spec t r c :
  table_ok t → is_int r → is_int c →
  ∃ found, find_cell t r c = Done found ∧
           free_cell t r c = match found with Some _ => Fault | None => Done t end.
Proof.
  intros Hok Hr Hc.
  destruct (find_cell_lookup t r c Hok) as (first & l & E & Hch & Hl & Hf).
  eexists. split; [exact Hf|].
  unfold free_cell. rewrite sprintf_key_text. simpl. fold (bucket_of r c). rewrite E. simpl.
  assert (length l ≤ size (heap t))%nat as Hn by (eapply chain_length; [done|apply Hl]).
  destruct (lookup_key (key_text r c) l) as [a|] eqn:Hfind.
  - eapply (free_loop_present _ t r c _ first None first [] l); try done.
    + apply Hok.
    + constructor.
  - eapply free_loop_missing; eauto.
Qed.

(** *** model_destroy *)

Lemma destroy_from_empty count i t :
  (∀ j, (i ≤ j < i + count)%nat → buckets t !! j = Some None) →
  destroy_from count i t = Done t.
Proof.
  revert i. induction count as [|count IH]; intros i Hall; simpl; [done|].
  rewrite (Hall i) by lia. simpl.
  assert (destroy_chain (size (heap t)) t None = Done t) as -> by by destruct (size (heap t)).
  simpl. apply IH. intros j Hj. apply Hall. lia.
Qed.

Lemma destroy_chain_fault t i a :
  table_ok t → buckets t !! i = Some (Some a) →
  destroy_chain (size (heap t)) t (Some a) = Fault.
Proof.
  intros Hok Ei. destruct (proj2 Hok _ _ Ei) as (l & Hch & Hl).
  inversion Hch as [|? nd l' ? E Hrest]; subst.
  assert (size (heap t) ≠ 0%nat) as Hsz.
  { intros Hz. apply map_size_empty_iff in Hz. rewrite Hz, lookup_empty in E. done. }
  destruct (size (heap t)) as [|n] eqn:Esz; [done|]. simpl. rewrite E. simpl.
  assert (node_ok i nd) as Hnd by (eapply chain_ok_node; [exact Hl|left]).
  destruct (free_cell_spec t (row (value nd)) (col (value nd)) Hok) as (found & Hf & ->);
    [apply Hnd..|].
  assert (bucket_of (row (value nd)) (col (value nd)) = i) as Hb.
  { unfold bucket_of. rewrite <- (ok_key _ _ Hnd). apply Hnd. }
  erewrite find_cell_chain in Hf; [|rewrite Hb; exact Ei|exact Hch|apply Hl].
  simpl in Hf. rewrite <- (ok_key _ _ Hnd), String.eqb_refl in Hf.
  injection Hf as <-. done.
Qed.

Lemma destroy_from_fault count i t j first :
  table_ok t → (i ≤ j < i + count)%nat → buckets t !! j = Some (Some first) →
  destroy_from count i t = Fault.
Proof.
  intros Hok. revert i. induction count as [|count IH]; intros i Hj Ej; simpl; [lia|].
  destruct (lookup_lt_is_Some_2 (buckets t) i) as [[a|] Ei].
  { apply lookup_lt_Some in Ej. lia. }
  - rewrite Ei. simpl. erewrite destroy_chain_fault by eauto. done.
  - rewrite Ei. simpl.
    assert (destroy_chain (size (heap t)) t None = Done t) as -> by by destruct (size (heap t)).
    simpl. apply IH; [|done]. destruct (decide (j = i)) as [->|]; [congruence|lia].
Qed.

(** X8.  On a well-formed table model_destroy returns, leaving the
    table as it is, exactly when every chain is empty; with a cell in
    the table its first call of free_cell dereferences NULL. *)
Theorem model_destroy_faults_on_a_cell t :
  table_ok t →
  model_destroy t = if decide (Forall (λ b, b = None) (buckets t)) then Done t else Fault.
Proof.
  intros Hok. unfold model_destroy. destruct Hok as [Hlen Hall].
  destruct (decide (Forall (λ b, b = None) (buckets t))) as [Hempty|Hnonempty].
  - apply destroy_from_empty. intros j Hj.
    destruct (lookup_lt_is_Some_2 (buckets t) j) as [b Ej]; [lia|].
    rewrite Ej. f_equal. eapply Forall_forall in Hempty; [exact Hempty|].
    eapply list_elem_of_lookup_2; eauto.
  - apply not_Forall_Exists in Hnonempty; [|intros b; apply _].
    apply Exists_exists in Hnonempty as ([a|] & Hin & Hb); [|by destruct Hb].
    apply list_elem_of_lookup_1 in Hin as [j Ej].
    eapply (destroy_from_fault _ 0 t j a); [by split| |done].
    apply lookup_lt_Some in Ej. lia.
Qed.

End TableProofs.

(** ** The table functions *)

Section TableClaims.
Import Chained.
Context `{PlainChar}.

(** X1.  For every string, with a signed or an unsigned plain char,
    hash returns an index of the array [spreadsheet]: a number from 0
    to HASH_SIZE - 1. *)
Theorem hash_is_an_index str : 0 ≤ hash str < HASH_SIZE.
Proof. apply hash_range. Qed.

(** X2.  The text "%d,%d" of two ints fits the 50 bytes of a key:
    sprintf in find_cell and free_cell stays inside the buffer and
    yields the key that snprintf yields in create_cell.  Two different
    positions have different keys. *)
Theorem key_of_position r c r' c' :
  is_int r → is_int c → is_int r' → is_int c' → (r, c) ≠ (r', c') →
  sprintf_key r c = Done (snprintf_key r c) ∧ snprintf_key r c ≠ snprintf_key r' c'.
Proof.
  intros Hr Hc Hr' Hc' Hne. rewrite sprintf_key_text, !snprintf_key_text.
  split; [done|]. intros Heq. apply key_text_inj in Heq as [-> ->]; done.
Qed.

(** X4.  On a well-formed table in which find_cell finds no cell at a
    position, as in set_cell_value, create_cell returns a node at an
    address that was not in use, leaves the table well formed, and
    notifies no display. *)
Theorem create_cell_keeps_table_ok t r c text :
  table_ok t → is_int r → is_int c → find_cell t r c = Done None →
  ∃ t' a, create_cell t r c text = Done (t', a) ∧ table_ok t' ∧
          heap t !! a = None ∧ shown t' = shown t.
Proof.
  intros Hok Hr Hc Hfind.
  destruct (create_cell_spec t r c text Hok Hr Hc Hfind) as (t' & a & ? & ? & ? & ? & ? & ?).
  exists t', a. done.
Qed.

(** X5.  After create_cell at a position where find_cell found no
    cell, find_cell returns the new node at that position, the node
    holds the cell that create_cell initialised, and find_cell returns
    what it returned before at every other position, also at the
    positions whose keys have the same hash. *)
Theorem find_cell_after_create_cell t r c text t' a :
  table_ok t → is_int r → is_int c → find_cell t r c = Done None →
  create_cell t r c text = Done (t', a) →
  find_cell t' r c = Done (Some a) ∧
  value <$> heap t' !! a = Some (new_cell r c text) ∧
  ∀ r' c', is_int r' → is_int c' → (r', c') ≠ (r, c) → find_cell t' r' c' = find_cell t r' c'.
Proof.
  intros Hok Hr Hc Hfind Hcreate.
  destruct (find_cell_created t r c text t' a Hok Hr Hc Hfind Hcreate) as (H1 & H2 & H3).
  split; [done|]. split; [|done]. rewrite H2. done.
Qed.

(** X6.  After model_init, find_cell returns NULL at every position,
    whatever the table held: the chains are dropped and no node is
    freed. *)
Theorem model_init_forgets_every_cell t r c :
  table_ok (model_init t) ∧ find_cell (model_init t) r c = Done None ∧
  heap (model_init t) = heap t.
Proof. split; [apply model_init_ok|]. split; [apply find_cell_model_init|done]. Qed.

(** X7.  On a well-formed table free_cell, at a position without a
    cell, returns and changes nothing.  At a position with a cell it
    does not return: the node is taken out of its chain before
    clear_cell is called, so the find_cell of clear_cell returns NULL,
    which clear_cell dereferences. *)
Theorem free_cell_faults_on_a_cell t r c :
  table_ok t → is_int r → is_int c →
  ∃ found, find_cell t r c = Done found ∧
           free_cell t r c = match found with Some _ => Fault | None => Done t end.
Proof. apply free_cell_spec. Qed.

End TableClaims.

Section TableCalls.
Import Chained.

Lemma is_int_small v : -1000 ≤ v ≤ 1000 → is_int v.
Proof. unfold is_int, INT_MIN, INT_MAX. lia. Qed.

Lemma one_cell_ok : table_ok one_cell.
Proof.
  destruct (create_cell_spec initial 0 0 "1" initial_ok) as (t' & a & Heq & Hok & _);
    [apply is_int_small; lia..|vm_compute; reflexivity|].
  unfold one_cell. rewrite Heq. exact Hok.
Qed.

(** X2, witness: the keys of (1, 23) and of (12, 3). *)
Lemma keys_of_two_positions :
  sprintf_key 1 23 = Done "1,23" ∧ snprintf_key 12 3 = "12,3" ∧
  sprintf_key 1 23 = Done (snprintf_key 1 23) ∧ snprintf_key 1 23 ≠ snprintf_key 12 3.
Proof.
  split; [reflexivity|]. split; [reflexivity|].
  apply (key_of_position 1 23 12 3); try (apply is_int_small; lia). discriminate.
Defined.

(** X3, witness: find_cell on the table with the one cell. *)
Lemma find_cell_finds_the_one_cell :
  ∃ found, find_cell one_cell 0 0 = Done found ∧
           match found with
           | Some a => ∃ nd, linked one_cell a nd ∧ row (value nd) = 0 ∧ col (value nd) = 0
           | None => ∀ a nd, linked one_cell a nd → (row (value nd), col (value nd)) ≠ (0, 0)
           end.
Proof. apply (find_cell_finds one_cell 0 0 one_cell_ok); apply is_int_small; lia. Defined.

(** X7, witness: free_cell at the position of the one cell. *)
Lemma free_cell_of_the_one_cell :
  find_cell one_cell 0 0 = Done (Some 1%positive) ∧ free_cell one_cell 0 0 = Fault ∧
  ∃ found, find_cell one_cell 0 0 = Done found ∧
           free_cell one_cell 0 0 = match found with Some _ => Fault | None => Done one_cell end.
Proof.
  split; [vm_compute; reflexivity|]. split; [vm_compute; reflexivity|].
  apply (free_cell_faults_on_a_cell one_cell 0 0 one_cell_ok); apply is_int_small; lia.
Defined.

(** X4, witness: create_cell at program start. *)
Lemma create_cell_at_program_start :
  ∃ t' a, create_cell initial 0 0 "1" = Done (t', a) ∧ table_ok t' ∧
          heap initial !! a = None ∧ shown t' = shown initial.
Proof.
  apply (create_cell_keeps_table_ok initial 0 0 "1" initial_ok);
    [apply is_int_small; lia..|vm_compute; reflexivity].
Defined.

(** X5, witness: find_cell after the first create_cell. *)
Lemma find_cell_after_the_first_create_cell :
  find_cell one_cell 0 0 = Done (Some 1%positive) ∧
  value <$> heap one_cell !! 1%positive = Some (new_cell 0 0 "1") ∧
  ∀ r' c', is_int r' → is_int c' → (r', c') ≠ (0, 0) →
           find_cell one_cell r' c' = find_cell initial r' c'.
Proof.
  apply (find_cell_after_create_cell initial 0 0 "1" one_cell 1%positive initial_ok);
    [apply is_int_small; lia..|vm_compute; reflexivity|vm_compute; reflexivity].
Defined.

(** X8, witness: model_destroy at program start and with one cell. *)
Lemma model_destroy_of_the_one_cell :
  model_destroy initial = Done initial ∧ model_destroy one_cell = Fault ∧
  model_destroy one_cell
  = if decide (Forall (λ b, b = None) (buckets one_cell)) then Done one_cell else Fault.
Proof.
  split; [vm_compute; reflexivity|]. split; [vm_compute; reflexivity|].
  apply (model_destroy_faults_on_a_cell one_cell one_cell_ok).
Defined.

End TableCalls.
